(** * Booking lifecycle and incentive engine of the klord backend

    A shallow embedding of the algorithmic core of [src/server.ts]:
    the upline resolver [getUplineChain], the commission distributor
    [distributeCommissionForPurchase] with its two HTTP entry points, the
    real-time due-day computation [calculateDueDays], and the two
    step-completion handlers (staff-facing and admin-facing) together with
    the certificate cascade.

    The persistent store (Prisma) is modelled by explicit state passing:
    tables keyed by a unique id are finite maps, tables whose row order is
    observed ([leadStep], [commission]) are lists. *)

From Stdlib Require Import ZArith QArith Qround Lia Sorted SpecFloat.
From stdpp Require Import base option strings gmap list.

Close Scope Q_scope.
Open Scope string_scope.
Open Scope list_scope.
Open Scope Z_scope.
Open Scope nat_scope.

(** JavaScript truthiness of a string: only the empty string is falsy. *)
Definition truthy (s : string) : bool :=
  match s with
  | EmptyString => false
  | String _ _ => true
  end.

(** ** Upline resolver *)

Module Upline.

(** The columns of [Customer] that the referral engine reads. *)
Record Customer := mkCustomer {
referredBy : option string;
level : Z;
referralCode : option string
}.

(** An element of the chain returned by [getUplineChain]. *)
Record Entry := mkEntry {
id : string;
depth : nat     (* the field [level] of the chain element *)
}.

#[global] Instance Entry_eq_dec : EqDecision Entry.
Proof. solve_decision. Defined.

Section Resolver.
Variable customers : gmap string Customer.

(** One turn of the [while] body: [findUnique] on [currentId], then the
    test [if (!me?.referredBy) break].  [None] stands for [break]
    (customer row missing, [referredBy] null, or the empty string). *)
Definition nextUpline (currentId : string) : option string :=
  match customers !! currentId with
  | None => None
  | Some me =>
      match referredBy me with
      | None => None
      | Some uplineId => if truthy uplineId then Some uplineId else None
      end
  end.

(** The [while (currentId && steps < maxLevels)] loop.  The structural
    argument [fuel] is [maxLevels - steps], the number of turns the
    guard [steps < maxLevels] still allows. *)
Fixpoint uplineLoop (fuel : nat) (currentId : string) (steps : nat)
  : list Entry :=
  match fuel with
  | O => []
  | S fuel' =>
      if truthy currentId then
        match nextUpline currentId with
        | None => []
        | Some uplineId =>
            mkEntry uplineId (steps + 1)
              :: uplineLoop fuel' uplineId (steps + 1)
        end
      else []
  end.

Definition getUplineChain (customerId : string) (maxLevels : nat)
  : list Entry :=
  uplineLoop maxLevels customerId 0.

(** *** Vocabulary of the referral graph, used to state the claims *)

(** The referrer edge followed by the walk. *)
Definition referrer (c : string) : option string :=
  if truthy c then nextUpline c else None.

(** [hop c n] is the node reached from [c] after [n] referrer edges. *)
Fixpoint hop (c : string) (n : nat) : option string :=
  match n with
  | O => Some c
  | S n' =>
      match referrer c with
      | None => None
      | Some u => hop u n'
      end
  end.

(** [chain_of c l]: the referrer chain of [c] is finite (hence acyclic)
    and lists exactly the ancestors [l], nearest first. *)
Inductive chain_of : string -> list string -> Prop :=
| chain_root c : referrer c = None -> chain_of c []
| chain_step c u l :
    referrer c = Some u -> chain_of u l -> chain_of c (u :: l).

End Resolver.

(** A malformed graph with a two-cycle: A was referred by B and B by A. *)
Definition cyclic_customers : gmap string Customer :=
<["A" := mkCustomer (Some "B") 1 None]>
  (<["B" := mkCustomer (Some "A") 1 None]> ∅).

(** A well-formed chain D -> C -> B -> A -> R (R is a root). *)
Definition linear_customers : gmap string Customer :=
<["D" := mkCustomer (Some "C") 4 None]>
  (<["C" := mkCustomer (Some "B") 3 None]>
     (<["B" := mkCustomer (Some "A") 2 None]>
        (<["A" := mkCustomer (Some "R") 1 None]>
           (<["R" := mkCustomer None 0 None]> ∅)))).

End Upline.

(** ** JavaScript numbers

    A [number] is an IEEE 754 binary64 value.  The type and the
    operations are those of the Standard Library's [SpecFloat] at
    precision 53 and maximal exponent 1024: sums, products and quotients
    are rounded to nearest, ties to even, with signed zeros, the two
    infinities and NaN, as JavaScript computes them. *)

Module JsNumber.

Definition prec : Z := 53.
Definition emax : Z := 1024.

Definition number : Type := spec_float.

Definition PosInf : number := S754_infinity false.
Definition NegInf : number := S754_infinity true.
Definition NaN : number := S754_nan.

(** The double of an integer (exact below 2^53 in absolute value). *)
Definition ofZ (z : Z) : number := binary_normalize prec emax z 0 false.

Definition add (a b : number) : number := SFadd prec emax a b.
Definition mul (a b : number) : number := SFmul prec emax a b.
Definition div (a b : number) : number := SFdiv prec emax a b.

(** The double that a decimal literal denotes: the correctly rounded
    quotient of numerator and denominator (both below 2^53), so
    [Fin (89 # 10)] is the literal [8.9] and [Fin 100] is [100]. *)
Definition Fin (q : Q) : number := div (ofZ (Qnum q)) (ofZ (Zpos (Qden q))).

(** [a <= b]; every comparison with NaN is false. *)
Definition le (a b : number) : bool := SFleb a b.

(** [a > b]. *)
Definition gt (a b : number) : bool := SFltb b a.

(** Truthiness: [0], [-0] and [NaN] are falsy. *)
Definition toBoolean (a : number) : bool :=
  match a with
  | S754_zero _ | S754_nan => false
  | _ => true
  end.

(** [Number.isFinite]. *)
Definition isFinite (a : number) : bool :=
  match a with
  | S754_zero _ | S754_finite _ _ _ => true
  | _ => false
  end.

(** The exact value of a finite double, [0] for the special values. *)
Definition toQ (a : number) : Q :=
  match a with
  | S754_finite s m e =>
      let v :=
        match e with
        | Zneg k => Qmake (Z.pos m) (2 ^ k)%positive
        | _ => inject_Z (Z.pos m * 2 ^ e)%Z
        end in
      if s then Qopp v else v
  | _ => 0%Q
  end.

(** [Math.round] on an exact value: the nearest integer, ties upward. *)
Definition round (q : Q) : Z := Qfloor (q + (1 # 2))%Q.

#[global] Arguments ofZ : simpl never.
#[global] Arguments Fin : simpl never.
#[global] Arguments add : simpl never.
#[global] Arguments mul : simpl never.
#[global] Arguments div : simpl never.
#[global] Arguments le : simpl never.
#[global] Arguments gt : simpl never.

End JsNumber.

(** ** The persistent store *)

Module Db.
Import JsNumber.

(** [MlSettings], the singleton configuration row. *)
Record MlSettings := mkMlSettings {
  maxPayoutPercent : number;
  level1Percent : number;
  level2Percent : number;
  level3Percent : number
}.

(** A row of the [Commission] ledger (the generated key and timestamp are
    left out). *)
Record Commission := mkCommission {
  customerId : string;
  fromCustomerId : string;
  levelFromDownline : nat;
  amount : number
}.

(** A row of [Booking] (table "Lead"). *)
Record Booking := mkBooking {
  bookingCustomerId : option string;
  assignedStaffId : option string;
  totalPayable : option number;
  createdAt : Z;
  percent : Z;
  certificateUrl : option string;
  certificateGeneratedAt : option Z;
  fullName : string;
  projectType : string;
  sizedKW : string;
  city : option string;
  state : option string;
  country : option string
}.

(** A row of [LeadStep].  Times are milliseconds since the epoch. *)
Record LeadStep := mkLeadStep {
  id : string;
  leadId : string;
  name : string;
  order : Z;
  completed : bool;
  completedAt : option Z;
  completionNotes : option string;
  dueDays : Z
}.

(** The argument of the certificate generator.  [installDate] is the
    instant that the handler formats with [toLocaleDateString]; the
    display-only [certificateId] is not modelled. *)
Record CertRequest := mkCertRequest {
  certLeadId : string;
  customerName : string;
  certProjectType : string;
  certSizedKW : string;
  installDate : Z;
  location : string
}.

(** The tables, and [issued], the log of calls made to the certificate
    generator. *)
Record Store := mkStore {
  customers : gmap string Upline.Customer;
  wallets : gmap string number;
  commissions : list Commission;
  mlSettings : option MlSettings;
  bookings : gmap string Booking;
  leadSteps : list LeadStep;
  issued : list CertRequest
}.

Definition setWallets (w : gmap string number) (st : Store) : Store :=
  mkStore (customers st) w (commissions st) (mlSettings st) (bookings st)
    (leadSteps st) (issued st).

Definition setCommissions (c : list Commission) (st : Store) : Store :=
  mkStore (customers st) (wallets st) c (mlSettings st) (bookings st)
    (leadSteps st) (issued st).

Definition setMlSettings (s : option MlSettings) (st : Store) : Store :=
  mkStore (customers st) (wallets st) (commissions st) s (bookings st)
    (leadSteps st) (issued st).

Definition setBookings (b : gmap string Booking) (st : Store) : Store :=
  mkStore (customers st) (wallets st) (commissions st) (mlSettings st) b
    (leadSteps st) (issued st).

Definition setLeadSteps (l : list LeadStep) (st : Store) : Store :=
  mkStore (customers st) (wallets st) (commissions st) (mlSettings st)
    (bookings st) l (issued st).

Definition setIssued (l : list CertRequest) (st : Store) : Store :=
  mkStore (customers st) (wallets st) (commissions st) (mlSettings st)
    (bookings st) (leadSteps st) l.

(** Who is calling, as decoded from the token by [protect]. *)
Inductive UserType := customer | staff | admin.

#[global] Instance UserType_eq_dec : EqDecision UserType.
Proof. solve_decision. Defined.

End Db.

(** ** Commission distributor *)

Module Commission.
Import JsNumber Db.

(** The column defaults of "MlSettings" in the migration, used by
    [mlSettings.create({ data: {} })]. *)
Definition defaultSettings : MlSettings :=
  mkMlSettings (Fin 4) (Fin 2) (Fin 1) (Fin 1).

(** [getMlSettings]: read the singleton, creating it when absent. *)
Definition getMlSettings (st : Store) : MlSettings * Store :=
  match mlSettings st with
  | Some settings => (settings, st)
  | None => (defaultSettings, setMlSettings (Some defaultSettings) st)
  end.

(** The effect of [upsertWalletAdd] on the wallet table: [update] with
    [balance + delta] when the wallet exists, [create] with [delta]
    otherwise. *)
Definition walletAdd (customerId : string) (delta : number)
    (w : gmap string number) : gmap string number :=
  match w !! customerId with
  | Some balance => <[customerId := add balance delta]> w
  | None => <[customerId := delta]> w
  end.

(** [upsertWalletAdd]. *)
Definition upsertWalletAdd (customerId : string) (delta : number)
    (st : Store) : Store :=
  setWallets (walletAdd customerId delta (wallets st)) st.

(** An element of [intended]. *)
Record Intended := mkIntended {
  uplineId : string;
  intendedLevel : nat;
  pct : number
}.

(** [percents[idx] ?? 0]. *)
Definition percentAt (percents : list number) (idx : nat) : number :=
  default (Fin 0) (percents !! idx).

Definition percentsOf (settings : MlSettings) : list number :=
  [level1Percent settings; level2Percent settings; level3Percent settings].

Definition intendedOf (settings : MlSettings) (chain : list Upline.Entry)
  : list Intended :=
  imap (λ idx u,
          mkIntended (Upline.id u) (Upline.depth u)
            (percentAt (percentsOf settings) idx)) chain.

(** [amounts.reduce((a, b) => a + b, 0)]. *)
Definition sumAmounts (amounts : list number) : number :=
  fold_left add amounts (Fin 0).

Definition capOf (settings : MlSettings) (gross : number) : number :=
  mul (div (maxPayoutPercent settings) (Fin 100)) gross.

Definition rawAmounts (intended : list Intended) (gross : number)
  : list number :=
  (λ x, mul (div (pct x) (Fin 100)) gross) <$> intended.

(** The proportional clawback: [if (total > cap && total > 0)]. *)
Definition scaleAmounts (cap : number) (amounts : list number)
  : list number :=
  let total := sumAmounts amounts in
  if gt total cap && gt total (Fin 0)
  then (λ a, mul a (div cap total)) <$> amounts
  else amounts.

(** An element of [details]. *)
Record Detail := mkDetail {
  detailUplineId : string;
  detailLevel : nat;
  detailAmount : number
}.

(** The [for] loop that persists rows and credits wallets.  [i] is the
    loop index and [rest] the elements [intended[i..]]; the accumulator
    carries the store, [created] and [details]. *)
Fixpoint creditLoop (sourceId : string) (amounts : list number) (i : nat)
    (rest : list Intended)
    (acc : Store * list Commission * list Detail)
  : Store * list Commission * list Detail :=
  match rest with
  | [] => acc
  | x :: rest' =>
      let amt := default (Fin 0) (amounts !! i) in
      if le amt (Fin 0) then creditLoop sourceId amounts (S i) rest' acc
      else
        let '(st, created, details) := acc in
        let row := mkCommission (uplineId x) sourceId (intendedLevel x) amt in
        let st1 := setCommissions (commissions st ++ [row]) st in
        let st2 := upsertWalletAdd (uplineId x) amt st1 in
        creditLoop sourceId amounts (S i) rest'
          (st2, created ++ [row],
           details ++ [mkDetail (uplineId x) (intendedLevel x) amt])
  end.

(** The value returned by the distributor. *)
Record Distribution := mkDistribution {
  created : nat;
  totalAmount : number;
  details : list Detail
}.

Definition distributeCommissionForPurchase (sourceId : string)
    (gross : number) (st : Store) : Distribution * Store :=
  let '(settings, st0) := getMlSettings st in
  let cap := capOf settings gross in
  let chain := Upline.getUplineChain (customers st0) sourceId 3 in
  let intended := intendedOf settings chain in
  let amounts := scaleAmounts cap (rawAmounts intended gross) in
  let '(st1, created, details) :=
    creditLoop sourceId amounts 0 intended (st0, [], []) in
  (mkDistribution (length created) (sumAmounts amounts) details, st1).

(** What a handler sends back: the JSON of a success, or a status with an
    error message. *)
Inductive Response :=
| Json (result : Distribution)
| Failure (status : nat) (error : string).

(** [POST /api/referrals/distribute].  [gross] is [Number(amount)]. *)
Definition postDistribute (userType : UserType) (sub : string)
    (gross : number) (st : Store) : Response * Store :=
  if decide (userType = customer) then
    if negb (toBoolean gross) || le gross (Fin 0)
    then (Failure 400 "amount required", st)
    else
      let '(result, st') := distributeCommissionForPurchase sub gross st in
      (Json result, st')
  else (Failure 403 "Forbidden", st).

(** [POST /api/admin/referrals/distribute-for-booking].  A missing or
    non-string [bookingId] is [None]. *)
Definition postDistributeForBooking (userType : UserType)
    (bookingId : option string) (st : Store) : Response * Store :=
  if decide (userType = admin) then
    match bookingId with
    | None => (Failure 400 "bookingId is required", st)
    | Some bid =>
        if truthy bid then
          match bookings st !! bid with
          | None => (Failure 404 "Booking not found", st)
          | Some booking =>
              match bookingCustomerId booking with
              | None => (Failure 400 "Booking has no customerId", st)
              | Some cid =>
                  if truthy cid then
                    let gross := default (Fin 0) (totalPayable booking) in
                    if negb (isFinite gross) || le gross (Fin 0)
                    then (Failure 400
                            "Booking totalPayable is not set or invalid", st)
                    else
                      let '(result, st') :=
                        distributeCommissionForPurchase cid gross st in
                      (Json result, st')
                  else (Failure 400 "Booking has no customerId", st)
              end
          end
        else (Failure 400 "bookingId is required", st)
    end
  else (Failure 403 "Forbidden", st).

(** *** Vocabulary of the claims *)

(** The recipients that the loop does not skip, with their amounts. *)
Definition creditedPairs (intended : list Intended) (amounts : list number)
  : list (Intended * number) :=
  List.filter (λ xa, negb (le xa.2 (Fin 0))) (zip intended amounts).

(** The ledger row written for a credited recipient. *)
Definition rowOf (sourceId : string) (xa : Intended * number) : Commission :=
  mkCommission (uplineId xa.1) sourceId (intendedLevel xa.1) xa.2.

Definition detailOf (xa : Intended * number) : Detail :=
  mkDetail (uplineId xa.1) (intendedLevel xa.1) xa.2.

(** The wallet credit that goes with a ledger row. *)
Definition creditRow (w : gmap string number) (r : Commission)
  : gmap string number :=
  walletAdd (customerId r) (amount r) w.

(** The entries of the upline chain whose amount is not skipped by the
    test [amt <= 0], with their amounts. *)
Definition paidEntries (chain : list Upline.Entry) (amounts : list number)
  : list (Upline.Entry * number) :=
  List.filter (λ ea, negb (le ea.2 (Fin 0))) (zip chain amounts).

(** The ledger row and the detail of a paid entry. *)
Definition ledgerRow (sourceId : string) (ea : Upline.Entry * number)
  : Commission :=
  mkCommission (Upline.id ea.1) sourceId (Upline.depth ea.1) ea.2.

Definition detailRow (ea : Upline.Entry * number) : Detail :=
  mkDetail (Upline.id ea.1) (Upline.depth ea.1) ea.2.

(** The balance of customer [k] after the wallet credits of [rows], in
    order, from the balance [old] ([None]: no wallet yet). *)
Definition balanceAfter (rows : list Commission) (k : string)
    (old : option number) : option number :=
  fold_left
    (λ b r,
       if decide (customerId r = k)
       then Some (match b with
                  | Some x => add x (amount r)
                  | None => amount r
                  end)
       else b)
    rows old.

(** *** Sample stores *)

Definition emptyStore : Store :=
  mkStore ∅ ∅ [] None ∅ [] [].

(** The chain D -> C -> B -> A -> R with the settings of the second
    scenario of the specification: cap 4%, levels 3%, 2%, 2%. *)
Definition scenarioStore : Store :=
  mkStore Upline.linear_customers ∅ []
    (Some (mkMlSettings (Fin 4) (Fin 3) (Fin 2) (Fin 2))) ∅ [] [].

(** The same chain with a negative second level: cap 4%, levels 2%,
    -1%, 1%. *)
Definition negativeLevelStore : Store :=
  mkStore Upline.linear_customers ∅ []
    (Some (mkMlSettings (Fin 4) (Fin 2) (Fin (-1)) (Fin 1))) ∅ [] [].

(** The same chain with no settings row yet (defaults 4, 2, 1, 1). *)
Definition freshStore : Store :=
  mkStore Upline.linear_customers ∅ [] None ∅ [] [].

End Commission.

(** ** Step workflow engine *)

Module Workflow.
Import JsNumber Db.

(** *** Sorting

    [Array.prototype.sort] with the comparator [key a - key b] is stable;
    so is this insertion sort, which puts an element in front of the
    elements of equal key that followed it in the input. *)
Section Sorting.
Context {A : Type}.
Variable key : A → Z.

Fixpoint insertByKey (x : A) (l : list A) : list A :=
  match l with
  | [] => [x]
  | y :: l' =>
      if (key x <=? key y)%Z then x :: y :: l' else y :: insertByKey x l'
  end.

Definition sortByKey (l : list A) : list A := foldr insertByKey [] l.

(** The order that the sort establishes. *)
Definition keyLe (a b : A) : Prop := (key a <= key b)%Z.

End Sorting.

(** *** Strings *)

Fixpoint trimStart (s : string) : string :=
  match s with
  | EmptyString => EmptyString
  | String c s' => if Ascii.is_space c then trimStart s' else s
  end.

(** [String.prototype.trim] on ASCII white space. *)
Definition trim (s : string) : string :=
  String.rev (trimStart (String.rev (trimStart s))).

(** [parts.join(sep)]. *)
Fixpoint join (sep : string) (parts : list string) : string :=
  match parts with
  | [] => EmptyString
  | [p] => p
  | p :: rest => p +:+ sep +:+ join sep rest
  end.

(** *** Real-time due days *)

Definition msPerDay : Z := 1000 * 60 * 60 * 24.

Definition setDueDays (d : Z) (s : LeadStep) : LeadStep :=
  mkLeadStep (id s) (leadId s) (name s) (order s) (completed s)
    (completedAt s) (completionNotes s) d.

Section DueDays.
(** The server's local time is taken at a fixed offset [tzOffset]
    (milliseconds east of UTC), as for Asia/Kolkata. *)
Variable tzOffset : Z.

(** [new Date(d.getFullYear(), d.getMonth(), d.getDate()).getTime()]: the
    local midnight that begins the day of [t]. *)
Definition startOfDay (t : Z) : Z := (t - (t + tzOffset) mod msPerDay)%Z.

(** [Math.floor((today.getTime() - startDay.getTime()) / msPerDay)]. *)
Definition calendarDays (startDate now : Z) : Z :=
  ((startOfDay now - startOfDay startDate) / msPerDay)%Z.

(** The number of the local calendar day that contains [t]. *)
Definition localDay (t : Z) : Z := ((t + tzOffset) / msPerDay)%Z.

(** The clock start of the step at [index], or [None] when the step is
    not active yet. *)
Definition startDateOf (sortedSteps : list LeadStep) (bookingCreatedAt : Z)
    (index : nat) : option Z :=
  match index with
  | O => Some bookingCreatedAt
  | S prevIndex =>
      match sortedSteps !! prevIndex with
      | Some prevStep =>
          if completed prevStep then completedAt prevStep else None
      | None => None
      end
  end.

(** The body of [sortedSteps.map((step, index) => ...)]. *)
Definition dueDaysOf (sortedSteps : list LeadStep) (bookingCreatedAt now : Z)
    (index : nat) (step : LeadStep) : Z :=
  if completed step then 0%Z
  else
    match startDateOf sortedSteps bookingCreatedAt index with
    | None => 0%Z
    | Some startDate =>
        Z.min (Z.max (calendarDays startDate now) 1) 5
    end.

(** [calculateDueDays]; [now] is the value of [new Date()]. *)
Definition calculateDueDays (steps : list LeadStep) (bookingCreatedAt now : Z)
  : list LeadStep :=
  let sortedSteps := sortByKey order steps in
  imap (λ index step,
          setDueDays (dueDaysOf sortedSteps bookingCreatedAt now index step)
            step) sortedSteps.

End DueDays.

(** *** Table access *)

(** [leadStep.update({ where: { id }, data })]. *)
Definition updateStep (stepId : string) (f : LeadStep → LeadStep)
    (steps : list LeadStep) : list LeadStep :=
  (λ s, if decide (id s = stepId) then f s else s) <$> steps.

(** [leadStep.findMany({ where: { leadId } })], in table order. *)
Definition stepsOfLead (lead : string) (steps : list LeadStep)
  : list LeadStep :=
  List.filter (λ s, bool_decide (leadId s = lead)) steps.

(** The same with [orderBy: { order: 'asc' }]. *)
Definition stepsOfLeadByOrder (lead : string) (steps : list LeadStep)
  : list LeadStep :=
  sortByKey order (stepsOfLead lead steps).

Definition setPercent (p : Z) (b : Booking) : Booking :=
  mkBooking (bookingCustomerId b) (assignedStaffId b) (totalPayable b)
    (createdAt b) p (certificateUrl b) (certificateGeneratedAt b)
    (fullName b) (projectType b) (sizedKW b) (city b) (state b) (country b).

Definition setCertificate (url : string) (at_ : Z) (b : Booking) : Booking :=
  mkBooking (bookingCustomerId b) (assignedStaffId b) (totalPayable b)
    (createdAt b) (percent b) (Some url) (Some at_)
    (fullName b) (projectType b) (sizedKW b) (city b) (state b) (country b).

(** Modelled from the spec: the Prisma schema is not among the sources,
    so the [lead] delegate that the admin handler reads through is taken
    to be the spec's get-booking-by-id on the table that the [booking]
    delegate writes. *)
Definition leadFindUnique (lead : string) (st : Store) : option Booking :=
  bookings st !! lead.

Definition countCompleted (steps : list LeadStep) : nat :=
  length (List.filter completed steps).

(** [Math.round((completedSteps / totalSteps) * 100)] of the staff
    handler, on doubles: the quotient and the product are rounded, and
    [Math.round] takes the exact value of the product.  The handler
    counts at least the step it completes, so the quotient is finite. *)
Definition materializedPercent (completedSteps totalSteps : nat) : Z :=
  round (toQ (mul (div (ofZ (Z.of_nat completedSteps))
                     (ofZ (Z.of_nat totalSteps)))
                (Fin 100))).

(** [Math.min(Math.round((completedCount / 12) * 100), 100)], used where
    the source fixes the workflow size, on the exact quotient; up to
    twelve completed steps the doubles give the same value
    ([fixedPercent_binary64]). *)
Definition fixedPercent (completedCount : nat) : Z :=
  Z.min (round (inject_Z (Z.of_nat completedCount) / 12 * 100)%Q) 100.

(** What a step handler sends back. *)
Inductive Response :=
| StepJson (step : LeadStep)
| ProgressJson (step : LeadStep) (completedSteps totalSteps : nat)
    (newPercent : Z)
| Failure (status : nat) (error : string).

(** *** Staff-facing completion: [POST /api/staff/steps/:stepId/complete] *)

Definition completeWithNotes (now : Z) (notes : string) (s : LeadStep)
  : LeadStep :=
  mkLeadStep (id s) (leadId s) (name s) (order s) true (Some now)
    (Some notes) (dueDays s).

Definition postStaffCompleteStep (now : Z) (userType : UserType)
    (sub stepId : string) (notes : option string) (st : Store)
  : Response * Store :=
  if decide (userType = staff) then
    match notes with
    | None => (Failure 400 "Completion notes are required", st)
    | Some notes =>
        if truthy notes && truthy (trim notes) then
          match List.find (λ s, bool_decide (id s = stepId)) (leadSteps st)
          with
          | None => (Failure 404 "Step not found", st)
          | Some step =>
              match bookings st !! leadId step with
              | None =>
                  (Failure 500 "An internal server error occurred", st)
              | Some lead =>
                  if decide (assignedStaffId lead = Some sub) then
                    if completed step then
                      (Failure 400 "Step is already completed", st)
                    else
                      let steps1 :=
                        updateStep stepId (completeWithNotes now (trim notes))
                          (leadSteps st) in
                      let allSteps := stepsOfLead (leadId step) steps1 in
                      let completedSteps := countCompleted allSteps in
                      let totalSteps := length allSteps in
                      let newPercent :=
                        materializedPercent completedSteps totalSteps in
                      (ProgressJson (completeWithNotes now (trim notes) step)
                         completedSteps totalSteps newPercent,
                       setBookings
                         (alter (setPercent newPercent) (leadId step)
                            (bookings st))
                         (setLeadSteps steps1 st))
                  else
                    (Failure 403 "You are not assigned to this booking", st)
              end
          end
        else (Failure 400 "Completion notes are required", st)
    end
  else (Failure 403 "Forbidden: Staff access required", st).

(** *** Percent self-heal of [GET /api/admin/leads/:id] *)

Definition selfHealPercent (lead : string) (st : Store) : Store :=
  match bookings st !! lead with
  | None => st
  | Some b =>
      let completedCount := countCompleted (stepsOfLead lead (leadSteps st)) in
      let correctPercent := fixedPercent completedCount in
      if decide (percent b = correctPercent) then st
      else setBookings (alter (setPercent correctPercent) lead (bookings st)) st
  end.

(** *** Admin-facing completion: [PATCH /api/admin/leads/:id/steps/:stepId] *)

Definition setCompletion (flag : bool) (now : Z) (s : LeadStep) : LeadStep :=
  mkLeadStep (id s) (leadId s) (name s) (order s) flag
    (if flag then Some now else None) (completionNotes s)
    (if flag then 0%Z else dueDays s).

Definition markCompleted (now : Z) (s : LeadStep) : LeadStep :=
  mkLeadStep (id s) (leadId s) (name s) (order s) true (Some now)
    (completionNotes s) (dueDays s).

Definition isCertificate (s : LeadStep) : bool :=
  bool_decide (name s = "certificate").

(** [!lead.certificateUrl]. *)
Definition hasCertificate (b : Booking) : bool :=
  match certificateUrl b with
  | Some url => truthy url
  | None => false
  end.

(** The latest of the [completedAt] values: sort ascending, then [pop]. *)
Definition latestCompletedAt (steps : list LeadStep) : option Z :=
  last (sortByKey (λ d : Z, d) (omap completedAt steps)).

(** [[lead.city, lead.state, lead.country].filter(Boolean).join(', ')]. *)
Definition locationOf (b : Booking) : string :=
  join ", " (List.filter truthy (omap (λ x, x) [city b; state b; country b])).

(** Activation of the next step: the first incomplete step other than the
    one just completed gets [dueDays = 1]. *)
Definition activateNext (lead stepId : string) (st : Store) : Store :=
  let allSteps := stepsOfLeadByOrder lead (leadSteps st) in
  match
    List.find (λ s, negb (completed s) && bool_decide (id s ≠ stepId)) allSteps
  with
  | Some nextStep =>
      setLeadSteps (updateStep (id nextStep) (setDueDays 1) (leadSteps st)) st
  | None => st
  end.

(** The first write of the admin handler: [leadStep.update] on the step. *)
Definition writeCompletion (now : Z) (stepId : string) (flag : bool)
    (st : Store) : Store :=
  setLeadSteps (updateStep stepId (setCompletion flag now) (leadSteps st)) st.

Section Certificate.
(** The certificate generator, an external collaborator: [Some publicUrl]
    on success, [None] when it throws. *)
Variable generateCertificatePDF : CertRequest → option string.

Definition certificateCascade (now : Z) (lead : string) (st : Store)
  : Store :=
  match leadFindUnique lead st with
  | None => st
  | Some b =>
      let steps := stepsOfLeadByOrder lead (leadSteps st) in
      let nonCertSteps := List.filter (λ s, negb (isCertificate s)) steps in
      let allNonCertComplete :=
        (0 <? length nonCertSteps) && forallb completed nonCertSteps in
      if allNonCertComplete && negb (hasCertificate b) then
        let installDate := default now (latestCompletedAt nonCertSteps) in
        let request :=
          mkCertRequest lead (fullName b) (projectType b) (sizedKW b)
            installDate (locationOf b) in
        let st1 := setIssued (issued st ++ [request]) st in
        match generateCertificatePDF request with
        | None => st1
        | Some publicUrl =>
            let st2 :=
              setBookings
                (alter (setCertificate publicUrl now) lead (bookings st1))
                st1 in
            match List.find isCertificate steps with
            | Some certStep =>
                if completed certStep then st2
                else
                  setLeadSteps
                    (updateStep (id certStep) (markCompleted now)
                       (leadSteps st2)) st2
            | None => st2
            end
        end
      else st
  end.

Definition patchAdminStep (now : Z) (userType : UserType)
    (lead stepId : string) (completedFlag : bool) (st : Store)
  : Response * Store :=
  if decide (userType = admin) then
    match
      List.find
        (λ s, bool_decide (id s = stepId) && bool_decide (leadId s = lead))
        (leadSteps st)
    with
    | None => (Failure 404 "Step not found", st)
    | Some step =>
        let updated := setCompletion completedFlag now step in
        let st1 := writeCompletion now stepId completedFlag st in
        if completedFlag then
          (StepJson updated,
           certificateCascade now lead (activateNext lead stepId st1))
        else (StepJson updated, st1)
    end
  else (Failure 403 "Forbidden", st).

End Certificate.

(** *** A sample booking

    Booking L1, assigned to staff member S1, with three materialized
    steps: the first completed at time 1000, the second open, and the
    certificate step. *)

Definition sampleBooking : Booking :=
  mkBooking (Some "C1") (Some "S1") (Some (Fin 100000)) 0 8 None None
    "Asha" "Residential" "5" (Some "Lucknow") (Some "UP") None.

Definition step1 : LeadStep :=
  mkLeadStep "s1" "L1" "meeting" 1 true (Some 1000%Z) (Some "met") 0.

Definition step2 : LeadStep :=
  mkLeadStep "s2" "L1" "survey" 2 false None None 1.

Definition step3 : LeadStep :=
  mkLeadStep "s3" "L1" "certificate" 3 false None None 0.

Definition sampleStore : Store :=
  mkStore ∅ ∅ [] None {["L1" := sampleBooking]} [step1; step2; step3] [].

(** A booking that has the "certificate" step only. *)
Definition certOnlyStore : Store :=
  mkStore ∅ ∅ [] None {["L1" := sampleBooking]} [step3] [].

(** A generator that succeeds, and one that always throws. *)
Definition issueOk (request : CertRequest) : option string :=
  Some ("https://certs/" +:+ certLeadId request).

Definition issueFails (request : CertRequest) : option string := None.

End Workflow.

(** ** Listing the steps of a booking, with creation from the template *)

Module Template.
Import JsNumber Db Workflow.

Definition DEFAULT_STEP_NAMES : list string :=
  ["meeting"; "survey"; "staucher install"; "civil work"; "wiring";
   "panel installation"; "net metering"; "testing"; "fully plant start";
   "subsidy process request"; "subsidy disbursement"; "certificate"].

(** What the listing handlers send back. *)
Inductive Response :=
| StepsJson (steps : list LeadStep)
| Failure (status : nat) (error : string).

Section Init.
(** The key that the database gives to the row created for a booking at
    a template index, and the column default of [dueDays]; a new row is
    not completed. *)
Variable newStepId : string → nat → string.
Variable defaultDueDays : Z.

(** [leadStep.create({ data: { leadId: id, name, order: idx + 1 } })]. *)
Definition templateRow (lead : string) (idx : nat) (name : string)
  : LeadStep :=
  mkLeadStep (newStepId lead idx) lead name (Z.of_nat (idx + 1)) false None
    None defaultDueDays.

(** The common body of the two handlers: create the twelve rows when the
    booking has none, then list the rows in order. *)
Definition listOrInit (lead : string) (st : Store) : Response * Store :=
  let existing := stepsOfLeadByOrder lead (leadSteps st) in
  let st1 :=
    if decide (length existing = 0) then
      setLeadSteps (leadSteps st ++ imap (templateRow lead) DEFAULT_STEP_NAMES)
        st
    else st in
  (StepsJson (stepsOfLeadByOrder lead (leadSteps st1)), st1).

(** [GET /api/admin/leads/:id/steps]. *)
Definition getAdminLeadSteps (userType : UserType) (lead : string)
    (st : Store) : Response * Store :=
  if decide (userType = admin) then
    match leadFindUnique lead st with
    | None => (Failure 404 "Lead not found", st)
    | Some _ => listOrInit lead st
    end
  else (Failure 403 "Forbidden", st).

(** [GET /api/customer/leads/:id/steps]: the booking must belong to the
    caller. *)
Definition getCustomerLeadSteps (userType : UserType) (sub lead : string)
    (st : Store) : Response * Store :=
  if decide (userType = customer) then
    match bookings st !! lead with
    | Some b =>
        if decide (bookingCustomerId b = Some sub) then listOrInit lead st
        else (Failure 404 "Lead not found", st)
    | None => (Failure 404 "Lead not found", st)
    end
  else (Failure 403 "Forbidden", st).

End Init.

(** A booking without steps, and a key generator for the samples. *)
Definition bareStore : Store :=
  mkStore ∅ ∅ [] None {["L2" := sampleBooking]} [] [].

Definition sampleStepId (lead : string) (idx : nat) : string :=
  lead +:+ "-" +:+ default "?" (DEFAULT_STEP_NAMES !! idx).

End Template.

(** ** Partner sign-in with a one-time code *)

Module PartnerAuth.

Record OtpRecord := mkOtpRecord {
  code : string;
  expiresAt : Z;
  attempts : nat
}.

Definition OTP_TTL_MS : Z := 5 * 60 * 1000.
Definition OTP_MAX_ATTEMPTS : nat := 5.

Record Partner := mkPartner {
  partnerId : string;
  mobile : string;
  partnerName : string
}.

(** The in-memory [otpStore] and the [Partner] table, keyed by its unique
    [mobile]. *)
Record AuthState := mkAuthState {
  otpStore : gmap string OtpRecord;
  partners : gmap string Partner
}.

Inductive Response :=
| OtpSent (otp : string) (ttlMs : Z)
| SignedIn (user : Partner)
| Failure (status : nat) (error : string).

Definition isDigit (c : Ascii.ascii) : bool :=
  match Ascii.is_nat c with
  | Some _ => true
  | None => false
  end.

Fixpoint allDigits (s : string) : bool :=
  match s with
  | EmptyString => true
  | String c s' => isDigit c && allDigits s'
  end.

(** [/^\d{10}$/.test(mobile)]. *)
Definition isTenDigits (s : string) : bool :=
  (String.length s =? 10) && allDigits s.

(** [POST /api/auth/partner/request-otp].  [otp] is the six-digit code
    drawn with [Math.random], [now] the value of [Date.now()]. *)
Definition requestOtp (now : Z) (otp : string) (mobile : option string)
    (st : AuthState) : Response * AuthState :=
  match mobile with
  | None => (Failure 400 "A valid 10-digit mobile number is required", st)
  | Some m =>
      if truthy m && isTenDigits m then
        let normalizedMobile := "+91" +:+ m in
        (OtpSent otp OTP_TTL_MS,
         mkAuthState
           (<[normalizedMobile := mkOtpRecord otp (now + OTP_TTL_MS) 0]>
              (otpStore st))
           (partners st))
      else (Failure 400 "A valid 10-digit mobile number is required", st)
  end.

Section Verify.
(** The key that the database gives to a partner created for a mobile. *)
Variable newPartnerId : string → string.

(** [POST /api/auth/partner/verify-otp]. *)
Definition verifyOtp (now : Z) (mobile otp : option string)
    (st : AuthState) : Response * AuthState :=
  match mobile, otp with
  | Some m, Some o =>
      if truthy m && truthy o then
        let normalizedMobile := "+91" +:+ m in
        match otpStore st !! normalizedMobile with
        | None => (Failure 401 "OTP is invalid or has expired", st)
        | Some otpData =>
            if (expiresAt otpData <? now)%Z
               || (OTP_MAX_ATTEMPTS <=? attempts otpData)
            then (Failure 401 "OTP is invalid or has expired", st)
            else if decide (code otpData = o) then
              let partner :=
                match partners st !! normalizedMobile with
                | Some p => p
                | None =>
                    mkPartner (newPartnerId normalizedMobile) normalizedMobile
                      "New Partner"
                end in
              (SignedIn partner,
               mkAuthState (delete normalizedMobile (otpStore st))
                 (<[normalizedMobile := partner]> (partners st)))
            else
              (Failure 401 "Incorrect OTP",
               mkAuthState
                 (<[normalizedMobile :=
                      mkOtpRecord (code otpData) (expiresAt otpData)
                        (S (attempts otpData))]> (otpStore st))
                 (partners st))
        end
      else (Failure 400 "Mobile and OTP are required", st)
  | _, _ => (Failure 400 "Mobile and OTP are required", st)
  end.

(** A run of verification requests for one mobile, all at time [now]. *)
Definition verifyAll (now : Z) (mobile : string) (guesses : list string)
    (st : AuthState) : AuthState :=
  foldl (λ st' guess, (verifyOtp now (Some mobile) (Some guess) st').2) st
    guesses.

End Verify.

Definition noAuth : AuthState := mkAuthState ∅ ∅.

Definition samplePartnerId (normalizedMobile : string) : string :=
  "partner" +:+ normalizedMobile.

End PartnerAuth.

(** ** Forced regeneration of a certificate *)

Module Regenerate.
Import JsNumber Db Workflow.

Inductive Response :=
| Regenerated (certificateUrl : string)
| Failure (status : nat) (error : string).

Section Handler.
Variable generateCertificatePDF : CertRequest → option string.
(** [signIfS3Url], which turns a stored URL into the one sent back. *)
Variable signIfS3Url : string → string.

(** [POST /api/admin/leads/:id/certificate/regenerate]. *)
Definition postRegenerate (now : Z) (userType : UserType) (lead : string)
    (st : Store) : Response * Store :=
  if decide (userType = admin) then
    match bookings st !! lead with
    | None => (Failure 404 "Lead not found", st)
    | Some b =>
        let steps := stepsOfLead lead (leadSteps st) in
        let installDate := default now (latestCompletedAt steps) in
        let request :=
          mkCertRequest lead (fullName b) (projectType b) (sizedKW b)
            installDate (locationOf b) in
        let st1 := setIssued (issued st ++ [request]) st in
        match generateCertificatePDF request with
        | None => (Failure 500 "Internal Server Error", st1)
        | Some publicUrl =>
            (Regenerated (signIfS3Url publicUrl),
             setBookings
               (alter (setCertificate publicUrl now) lead (bookings st1)) st1)
        end
    end
  else (Failure 403 "Forbidden", st).

End Handler.

End Regenerate.

(** ** Stored due days: the nightly job, the start-up sync and the
    initialisation script *)

Module DueDaysJobs.
Import JsNumber Db Workflow.

(** [leadStep.update({ where: { id }, data: { dueDays } })]. *)
Definition writeDueDays (stepId : string) (d : Z) (st : Store) : Store :=
  setLeadSteps (updateStep stepId (setDueDays d) (leadSteps st)) st.

(** The steps that the nightly job selects: incomplete, [dueDays > 0]. *)
Definition isActive (s : LeadStep) : bool :=
  negb (completed s) && (0 <? dueDays s)%Z.

(** The body of the job scheduled by [startDueDaysCron]. *)
Definition cronTick (st : Store) : Store :=
  let activeSteps := List.filter isActive (leadSteps st) in
  foldl (λ acc step, writeDueDays (id step) (Z.min (dueDays step + 1) 5) acc)
    st activeSteps.

(** [Math.max(1, Math.min(daysSinceStart + 1, 5))] of the start-up sync,
    [0] without a start date. *)
Definition syncValue (startDate : option Z) (now : Z) : Z :=
  match startDate with
  | Some start => Z.max 1 (Z.min ((now - start) / msPerDay + 1) 5)
  | None => 0%Z
  end.

(** The value that the sync wants for the step at index [i]. *)
Definition syncTarget (now : Z) (b : Booking) (steps : list LeadStep)
    (i : nat) (step : LeadStep) : Z :=
  if completed step then 0%Z
  else syncValue (startDateOf steps (createdAt b) i) now.

(** One turn of the inner loop of [syncDueDaysOnStartup]: write when the
    stored value differs. *)
Definition syncStep (now : Z) (b : Booking) (steps : list LeadStep)
    (acc : Store) (entry : nat * LeadStep) : Store :=
  let target := syncTarget now b steps entry.1 entry.2 in
  if decide (dueDays entry.2 = target) then acc
  else writeDueDays (id entry.2) target acc.

(** The loop over the steps of one booking; [snapshot] is the step table
    as loaded by the initial [findMany]. *)
Definition syncBooking (now : Z) (snapshot : list LeadStep) (acc : Store)
    (entry : string * Booking) : Store :=
  let steps := stepsOfLeadByOrder entry.1 snapshot in
  foldl (syncStep now entry.2 steps) acc (imap pair steps).

(** [syncDueDaysOnStartup]. *)
Definition syncDueDaysOnStartup (now : Z) (st : Store) : Store :=
  foldl (syncBooking now (leadSteps st)) st (map_to_list (bookings st)).

(** [Math.ceil(diffTime / msPerDay)] clamped to [1, 5], the value that
    the initialisation script gives to the first incomplete step. *)
Definition initValue (start now : Z) : Z :=
  Z.min (Z.max (- ((- (now - start)) / msPerDay)) 1) 5.

(** A loop of [leadStep.update({ data: { dueDays: 0 } })] over [steps]. *)
Definition zeroAll (steps : list LeadStep) (acc : Store) : Store :=
  foldl (λ acc step, writeDueDays (id step) 0 acc) acc steps.

(** The start date that the script takes for the step at index [k]:
    the booking's creation for the first step, else [completedAt] of
    the step before. *)
Definition initStartDate (steps : list LeadStep) (created : Z) (k : nat)
  : option Z :=
  if decide (k = 0) then Some created else steps !! (k - 1) ≫= completedAt.

(** One turn of the loop of [initializeDueDays] over the bookings;
    [list_find] is [steps.findIndex(s => !s.completed)]. *)
Definition initBooking (now : Z) (snapshot : list LeadStep) (acc : Store)
    (entry : string * Booking) : Store :=
  let steps := stepsOfLeadByOrder entry.1 snapshot in
  match list_find (λ s, completed s = false) steps with
  | None => zeroAll steps acc
  | Some (k, activeStep) =>
      let acc1 := zeroAll (take k steps) acc in
      let acc2 :=
        match initStartDate steps (createdAt entry.2) k with
        | Some start =>
            writeDueDays (id activeStep) (initValue start now) acc1
        | None => acc1
        end in
      zeroAll (drop (k + 1) steps) acc2
  end.

(** The script [initializeDueDays]. *)
Definition initializeDueDays (now : Z) (st : Store) : Store :=
  foldl (initBooking now (leadSteps st)) st (map_to_list (bookings st)).

(** The real-time value of [calculateDueDays] for an active step. *)
Definition liveValue (tzOffset start now : Z) : Z :=
  Z.min (Z.max (calendarDays tzOffset start now) 1) 5.

(** *** Vocabulary: a sequence of keyed writes of [dueDays] *)

Definition applyWrites (writes : list (string * Z)) (rows : list LeadStep)
  : list LeadStep :=
  foldl (λ l w, updateStep w.1 (setDueDays w.2) l) rows writes.

(** The value that the writes leave for key [k], [d] without a write. *)
Definition lastWrite (writes : list (string * Z)) (k : string) (d : Z) : Z :=
  foldl (λ acc w, if decide (w.1 = k) then w.2 else acc) d writes.

(** The write that one turn of the sync's inner loop makes, if any. *)
Definition syncWrite (now : Z) (b : Booking) (steps : list LeadStep)
    (entry : nat * LeadStep) : option (string * Z) :=
  let target := syncTarget now b steps entry.1 entry.2 in
  if decide (dueDays entry.2 = target) then None
  else Some (id entry.2, target).

(** The writes of the sync for one booking, and for all of them. *)
Definition bookingWrites (now : Z) (snapshot : list LeadStep)
    (entry : string * Booking) : list (string * Z) :=
  let steps := stepsOfLeadByOrder entry.1 snapshot in
  omap (syncWrite now entry.2 steps) (imap pair steps).

Definition syncWrites (now : Z) (st : Store) : list (string * Z) :=
  concat (bookingWrites now (leadSteps st) <$> map_to_list (bookings st)).

(** The writes of the initialisation script for one booking, and for
    all of them. *)
Definition zeroWrites (steps : list LeadStep) : list (string * Z) :=
  (λ step, (id step, 0%Z)) <$> steps.

Definition initBookingWrites (now : Z) (snapshot : list LeadStep)
    (entry : string * Booking) : list (string * Z) :=
  let steps := stepsOfLeadByOrder entry.1 snapshot in
  match list_find (λ s, completed s = false) steps with
  | None => zeroWrites steps
  | Some (k, activeStep) =>
      zeroWrites (take k steps)
      ++ match initStartDate steps (createdAt entry.2) k with
         | Some start => [(id activeStep, initValue start now)]
         | None => []
         end
      ++ zeroWrites (drop (k + 1) steps)
  end.

Definition initWrites (now : Z) (st : Store) : list (string * Z) :=
  concat (initBookingWrites now (leadSteps st) <$> map_to_list (bookings st)).

(** The value that the script leaves in the step at index [i] of a
    booking, [old] being the value stored before. *)
Definition initTarget (now : Z) (b : Booking) (steps : list LeadStep)
    (i : nat) (old : Z) : Z :=
  match list_find (λ s, completed s = false) steps with
  | None => 0%Z
  | Some (k, _) =>
      if decide (i = k) then
        match initStartDate steps (createdAt b) k with
        | Some start => initValue start now
        | None => old
        end
      else 0%Z
  end.

(** Two step lists that differ in stored due days only. *)
Definition sameButDue (l l' : list LeadStep) : Prop :=
  Forall2 (λ s s', s' = setDueDays (dueDays s') s) l l'.

(** A store whose step table needs the sync and the nightly job. *)
Definition staleStore : Store :=
  mkStore ∅ ∅ [] None {["L1" := sampleBooking]}
    [mkLeadStep "s1" "L1" "meeting" 1 true (Some 1000%Z) (Some "met") 3;
     mkLeadStep "s2" "L1" "survey" 2 false None None 2;
     mkLeadStep "s3" "L1" "certificate" 3 false None None 0] [].

End DueDaysJobs.

(** ** Referral overview of a customer *)

Module Referrals.
Import JsNumber Db.

(** [customer.findMany({ where: { referredBy: meId }, select: { id } })]
    mapped to the ids. *)
Definition referredByIs (parent : string)
    (customers : gmap string Upline.Customer) : list string :=
  (List.filter (λ kv, bool_decide (Upline.referredBy kv.2 = Some parent))
     (map_to_list customers)).*1.

(** [customer.findMany({ where: { referredBy: { in: ids } } })] mapped to
    the ids. *)
Definition referredByIn (parents : list string)
    (customers : gmap string Upline.Customer) : list string :=
  (List.filter
     (λ kv, match Upline.referredBy kv.2 with
            | Some p => bool_decide (p ∈ parents)
            | None => false
            end)
     (map_to_list customers)).*1.

(** [sumByLevel[level] ?? 0] after the [groupBy]: the sum of the amounts
    of the rows of [me] at a level, [0] when there is none. *)
Definition earningsAt (me : string) (level : nat)
    (rows : list Commission) : number :=
  Commission.sumAmounts
    (amount <$> List.filter
       (λ r, bool_decide (customerId r = me)
             && bool_decide (levelFromDownline r = level)) rows).

Record Overview := mkOverview {
  a1 : nat; a2 : nat; a3 : nat;
  earnings1 : number; earnings2 : number; earnings3 : number;
  maxPayoutPercent : number;
  levelPercents : list number
}.

Inductive Response :=
| Json (overview : Overview)
| Failure (status : nat) (error : string).

(** The three levels of downline of [me], as the handler computes them. *)
Definition downlines (me : string) (customers : gmap string Upline.Customer)
  : list string * list string * list string :=
  let a1Ids := referredByIs me customers in
  let a2Ids :=
    if decide (length a1Ids = 0) then [] else referredByIn a1Ids customers in
  let a3Ids :=
    if decide (length a2Ids = 0) then [] else referredByIn a2Ids customers in
  (a1Ids, a2Ids, a3Ids).

(** [GET /api/referrals/overview]. *)
Definition getOverview (userType : UserType) (me : string) (st : Store)
  : Response * Store :=
  if decide (userType = customer) then
    let '(settings, st0) := Commission.getMlSettings st in
    let '(a1Ids, a2Ids, a3Ids) := downlines me (customers st0) in
    (Json
       (mkOverview (length a1Ids) (length a2Ids) (length a3Ids)
          (earningsAt me 1 (commissions st0))
          (earningsAt me 2 (commissions st0))
          (earningsAt me 3 (commissions st0))
          (Db.maxPayoutPercent settings) (Commission.percentsOf settings)),
     st0)
  else (Failure 403 "Forbidden", st).

End Referrals.

(** ** Referral codes: normalisation of the typed code and its use at
    sign-in *)

Module ReferralCode.
Import Upline.

(** [String.prototype.toUpperCase] on one ASCII character. *)
Definition toUpperChar (c : Ascii.ascii) : Ascii.ascii :=
  let n := Ascii.nat_of_ascii c in
  if (97 <=? n) && (n <=? 122) then Ascii.ascii_of_nat (n - 32) else c.

(** [String.prototype.toUpperCase] on ASCII strings. *)
Fixpoint toUpperCase (s : string) : string :=
  match s with
  | EmptyString => EmptyString
  | String c s' => String (toUpperChar c) (toUpperCase s')
  end.

(** The strings on which [Workflow.trim] and [toUpperCase] are the
    JavaScript functions: all characters below 128. *)
Fixpoint isAscii (s : string) : bool :=
  match s with
  | EmptyString => true
  | String c s' => (Ascii.nat_of_ascii c <? 128) && isAscii s'
  end.

(** A string that does not begin with white space. *)
Definition noLeadingSpace (s : string) : bool :=
  match s with
  | EmptyString => true
  | String c _ => negb (Ascii.is_space c)
  end.

(** [normalizeReferralInput]; [None] is [null], also for an argument
    that is not a string. *)
Definition normalizeReferralInput (raw : option string) : option string :=
  match raw with
  | None => None
  | Some raw =>
      if truthy raw then
        let trimmed := toUpperCase (Workflow.trim raw) in
        if truthy trimmed then
          if String.prefix "KLORD-" trimmed then Some trimmed
          else Some ("KLORD-" +:+ trimmed)
        else None
      else None
  end.






End ReferralCode.

(** * Properties *)

(** ** Upline resolver *)

Section UplineFacts.
Import Upline.
Variable customers : gmap string Customer.

Lemma uplineLoop_length fuel c s :
  length (uplineLoop customers fuel c s) ≤ fuel.
Proof.
  revert c s. induction fuel as [|fuel IH]; intros c s; simpl; [lia|].
  destruct (truthy c); [|simpl; lia].
  destruct (nextUpline customers c) as [u|]; simpl; [|lia].
  specialize (IH u (s + 1)). lia.
Qed.

(** Every entry produced by the loop is the next hop of the walk, tagged
    with the running hop count. *)
Lemma uplineLoop_lookup fuel c s i e :
  uplineLoop customers fuel c s !! i = Some e →
  depth e = s + S i ∧ hop customers c (S i) = Some (id e).
Proof.
  revert c s i. induction fuel as [|fuel IH]; intros c s i; simpl; [done|].
  unfold referrer. destruct (truthy c); [|done].
  destruct (nextUpline customers c) as [u|]; [|done].
  destruct i as [|i]; simpl.
  - intros [= <-]. simpl. split; [lia|done].
  - intros H. apply IH in H as [Hd Hh]. split; [lia|exact Hh].
Qed.

(** When the loop returns fewer entries than its budget, the walk has hit
    a node without a referrer. *)
Lemma uplineLoop_short fuel c s :
  length (uplineLoop customers fuel c s) < fuel →
  hop customers c (S (length (uplineLoop customers fuel c s))) = None.
Proof.
  revert c s. induction fuel as [|fuel IH]; intros c s; simpl; [lia|].
  unfold referrer. destruct (truthy c); [|done].
  destruct (nextUpline customers c) as [u|] eqn:Hu; [|done].
  simpl. intros Hlt. apply (IH u (s + 1)). lia.
Qed.

Lemma chain_of_det c l1 l2 :
  chain_of customers c l1 → chain_of customers c l2 → l1 = l2.
Proof.
  intros H1. revert l2.
  induction H1 as [c Hc|c u l Hc _ IH]; intros l2 H2; inversion H2; subst;
    try congruence.
  assert (u0 = u) as -> by congruence.
  f_equal. by apply IH.
Qed.

Lemma chain_of_suffix c l1 a l2 :
  chain_of customers c (l1 ++ a :: l2) → chain_of customers a l2.
Proof.
  revert c. induction l1 as [|x l1 IH]; intros c H; inversion H; subst; eauto.
Qed.

(** A finite chain never comes back to its starting node. *)
Lemma chain_of_not_self c l : chain_of customers c l → c ∉ l.
Proof.
  intros H Hin. apply list_elem_of_split in Hin as (l1 & l2 & ->).
  pose proof (chain_of_suffix _ _ _ _ H) as H2.
  pose proof (chain_of_det _ _ _ H H2) as Heq.
  apply (f_equal length) in Heq. rewrite length_app in Heq. simpl in Heq. lia.
Qed.

Lemma chain_of_NoDup c l : chain_of customers c l → NoDup l.
Proof.
  induction 1 as [|c u l Hc Hl IH]; constructor; auto.
  by apply chain_of_not_self.
Qed.

(** On a finite chain the loop returns the first [fuel] ancestors, the
    [i]-th one tagged [steps + 1 + i]. *)
Lemma uplineLoop_chain fuel c s l :
  chain_of customers c l →
  uplineLoop customers fuel c s
  = imap (λ i a, mkEntry a (s + S i)) (take fuel l).
Proof.
  intros H. revert fuel s.
  induction H as [c Hc|c u l Hc _ IH]; intros [|fuel] s; simpl; try done.
  - unfold referrer in Hc. destruct (truthy c); [|done]. by rewrite Hc.
  - unfold referrer in Hc. destruct (truthy c); [|done]. rewrite Hc.
    rewrite IH. f_equal.
    apply imap_ext. intros i a _. simpl. f_equal. lia.
Qed.

Lemma getUplineChain_ids c n l :
  chain_of customers c l →
  id <$> getUplineChain customers c n = take n l.
Proof.
  intros H. unfold getUplineChain. rewrite (uplineLoop_chain _ _ _ _ H).
  apply list_eq. intros i.
  rewrite list_lookup_fmap, list_lookup_imap.
  by destruct (take n l !! i).
Qed.

End UplineFacts.

(** C9: for a customer whose acyclic referrer chain is [ancestors] (length
    L), [getUplineChain] with the default bound 3 returns exactly
    [min L 3] entries, the i-th entry pairing the i-th ancestor with depth
    i; so a chain of length at least 3 gives depths 1, 2, 3 in that
    order, a chain of length 1 gives one entry, and a customer without
    referrer gives the empty list. *)
Theorem getUplineChain_acyclic_chain
    (customers : gmap string Upline.Customer) (c : string)
    (ancestors : list string) :
  Upline.chain_of customers c ancestors →
  let chain := Upline.getUplineChain customers c 3 in
  length chain = min (length ancestors) 3
  ∧ (∀ i a, i < 3 → ancestors !! i = Some a →
       chain !! i = Some (Upline.mkEntry a (S i)))
  ∧ (3 ≤ length ancestors → Upline.depth <$> chain = [1; 2; 3])
  ∧ (length ancestors = 1 → length chain = 1)
  ∧ (ancestors = [] → chain = []).
Proof.
  intros H chain.
  assert (Hchain : chain
    = imap (λ i a, Upline.mkEntry a (S i)) (take 3 ancestors)).
  { unfold chain, Upline.getUplineChain.
    by rewrite (uplineLoop_chain _ _ _ _ _ H). }
  assert (Hlen : length chain = min (length ancestors) 3).
  { rewrite Hchain, length_imap, length_take. lia. }
  split; [exact Hlen|]. split; [|split; [|split]].
  - intros i a Hi Ha. rewrite Hchain, list_lookup_imap.
    by rewrite lookup_take_lt, Ha.
  - intros Hge. rewrite Hchain.
    destruct ancestors as [|a1 [|a2 [|a3 rest]]]; simpl in *; try lia.
    reflexivity.
  - intros H1. rewrite Hlen, H1. reflexivity.
  - intros ->. by rewrite Hchain.
Qed.

Lemma getUplineChain_acyclic_chain_witness :
  let chain := Upline.getUplineChain Upline.linear_customers "D" 3 in
  length chain = min (length ["C"; "B"; "A"; "R"]) 3
  ∧ (∀ i a, i < 3 → ["C"; "B"; "A"; "R"] !! i = Some a →
       chain !! i = Some (Upline.mkEntry a (S i)))
  ∧ (3 ≤ length ["C"; "B"; "A"; "R"] → Upline.depth <$> chain = [1; 2; 3])
  ∧ (length ["C"; "B"; "A"; "R"] = 1 → length chain = 1)
  ∧ (["C"; "B"; "A"; "R"] = [] → chain = []).
Proof.
  apply (getUplineChain_acyclic_chain Upline.linear_customers "D"
           ["C"; "B"; "A"; "R"]).
  repeat (eapply Upline.chain_step; [vm_compute; reflexivity|]).
  apply Upline.chain_root. vm_compute. reflexivity.
Defined.

(** C4 fails as stated: the loop has no visited-node guard.  On the
    two-cycle A <-> B the chain of A is B, A, B: it repeats B and contains
    A itself. *)
Lemma getUplineChain_cycle_counterexample :
  Upline.getUplineChain Upline.cyclic_customers "A" 3
  = [Upline.mkEntry "B" 1; Upline.mkEntry "A" 2; Upline.mkEntry "B" 3]
  ∧ ¬ (NoDup (Upline.id <$>
                Upline.getUplineChain Upline.cyclic_customers "A" 3)
       ∧ "A" ∉ Upline.id <$>
                Upline.getUplineChain Upline.cyclic_customers "A" 3).
Proof.
  assert (E : Upline.getUplineChain Upline.cyclic_customers "A" 3
    = [Upline.mkEntry "B" 1; Upline.mkEntry "A" 2; Upline.mkEntry "B" 3])
    by (vm_compute; reflexivity).
  split; [exact E|]. rewrite E. simpl. intros [_ Hnot].
  apply Hnot. set_solver.
Qed.

(** C4 (amended): for every referral graph, cyclic or not,
    [getUplineChain c maxDepth] follows the referrer edges from [c] and
    stops at the earliest of a node with no referrer and [maxDepth] hops
    consumed; there is no revisited-node guard.  When the referrer chain
    of [c] is acyclic the result never lists an ancestor twice and never
    lists [c] itself. *)
Theorem getUplineChain_stops
    (customers : gmap string Upline.Customer) (c : string) (maxDepth : nat) :
  let chain := Upline.getUplineChain customers c maxDepth in
  length chain ≤ maxDepth
  ∧ (∀ i e, chain !! i = Some e →
       Upline.depth e = S i
       ∧ Upline.hop customers c (S i) = Some (Upline.id e))
  ∧ (length chain < maxDepth →
       Upline.hop customers c (S (length chain)) = None)
  ∧ (∀ ancestors, Upline.chain_of customers c ancestors →
       NoDup (Upline.id <$> chain) ∧ c ∉ Upline.id <$> chain).
Proof.
  intros chain. unfold chain, Upline.getUplineChain.
  split; [apply uplineLoop_length|].
  split; [intros i e He; by apply uplineLoop_lookup in He|].
  split; [apply uplineLoop_short|].
  intros ancestors H.
  pose proof (getUplineChain_ids customers c maxDepth _ H) as Hids.
  unfold Upline.getUplineChain in Hids. rewrite Hids. split.
  - eapply sublist_NoDup; [by eapply chain_of_NoDup|apply sublist_take].
  - intros Hin. eapply chain_of_not_self; [exact H|].
    apply elem_of_take in Hin as (i & Hi & _).
    apply list_elem_of_lookup. by exists i.
Qed.

Lemma getUplineChain_stops_witness :
  NoDup (Upline.id <$> Upline.getUplineChain Upline.linear_customers "D" 3)
  ∧ "D" ∉ Upline.id <$> Upline.getUplineChain Upline.linear_customers "D" 3.
Proof.
  apply (getUplineChain_stops Upline.linear_customers "D" 3)
    with (ancestors := ["C"; "B"; "A"; "R"]).
  repeat (eapply Upline.chain_step; [vm_compute; reflexivity|]).
  apply Upline.chain_root. vm_compute. reflexivity.
Defined.

(** ** Commission distributor *)

Section DistributorFacts.
Import JsNumber Db Commission.

Lemma getUplineChain_length customers c n :
  length (Upline.getUplineChain customers c n) ≤ n.
Proof. apply uplineLoop_length. Qed.

Lemma intendedOf_length settings chain :
  length (intendedOf settings chain) = length chain.
Proof. apply length_imap. Qed.

(** With at most three ancestors, [percents[idx] ?? 0] picks the first
    levels of the schedule, so the raw amounts are [(p / 100) * gross]
    for them. *)
Lemma rawAmounts_explicit settings (chain : list Upline.Entry) gross :
  length chain ≤ 3 →
  rawAmounts (intendedOf settings chain) gross
  = (λ p, mul (div p (Fin 100)) gross)
      <$> take (length chain) (percentsOf settings).
Proof.
  intros Hlen.
  destruct chain as [|e1 [|e2 [|e3 [|e4 rest]]]]; simpl in *; try done; lia.
Qed.

Lemma zip_cons {A B} (x : A) (l : list A) (y : B) (k : list B) :
  zip (x :: l) (y :: k) = (x, y) :: zip l k.
Proof. reflexivity. Qed.

Lemma stdlib_filter_cons {A} (f : A → bool) (x : A) (l : list A) :
  List.filter f (x :: l) = if f x then x :: List.filter f l else List.filter f l.
Proof. reflexivity. Qed.

(** The rows and details of the loop, read off the chain entries. *)
Lemma creditedPairs_entries (g : nat → Upline.Entry → Intended)
    (chain : list Upline.Entry) (amounts : list number) :
  (∀ i u, uplineId (g i u) = Upline.id u
          ∧ intendedLevel (g i u) = Upline.depth u) →
  (∀ sourceId,
     rowOf sourceId <$> creditedPairs (imap g chain) amounts
     = ledgerRow sourceId <$> paidEntries chain amounts)
  ∧ detailOf <$> creditedPairs (imap g chain) amounts
    = detailRow <$> paidEntries chain amounts.
Proof.
  unfold creditedPairs, paidEntries. revert g amounts.
  induction chain as [|u chain IH]; intros g amounts Hg; [done|].
  destruct amounts as [|a amounts]; [done|].
  destruct (IH (g ∘ S) amounts (λ i, Hg (S i))) as [IHr IHd].
  destruct (Hg 0 u) as [Hid Hlevel].
  change (imap g (u :: chain)) with (g 0 u :: imap (g ∘ S) chain).
  rewrite !zip_cons, !stdlib_filter_cons. cbn [snd].
  destruct (le a (Fin 0)); cbn [negb]; [by split|].
  split.
  - intros sourceId. rewrite !fmap_cons, IHr. f_equal.
    unfold rowOf, ledgerRow. cbn [fst snd]. by rewrite Hid, Hlevel.
  - rewrite !fmap_cons, IHd. f_equal.
    unfold detailOf, detailRow. cbn [fst snd]. by rewrite Hid, Hlevel.
Qed.

Lemma walletAdd_lookup (k : string) (a : number) (w : gmap string number) :
  walletAdd k a w !! k
  = Some (match w !! k with Some b => add b a | None => a end)
  ∧ ∀ k', k' ≠ k → walletAdd k a w !! k' = w !! k'.
Proof.
  unfold walletAdd. destruct (w !! k) eqn:E.
  - split; [by rewrite lookup_insert_eq|].
    intros k' Hk. by rewrite lookup_insert_ne.
  - split; [by rewrite lookup_insert_eq|].
    intros k' Hk. by rewrite lookup_insert_ne.
Qed.

(** The balance of every customer after a sequence of wallet credits. *)
Lemma fold_credit_balance (rows : list Db.Commission) w k :
  fold_left creditRow rows w !! k = balanceAfter rows k (w !! k).
Proof.
  unfold balanceAfter. revert w.
  induction rows as [|r rows IH]; intros w; [done|].
  cbn [fold_left]. rewrite IH. f_equal. unfold creditRow.
  destruct (walletAdd_lookup (customerId r) (amount r) w) as [Hk Hother].
  destruct (decide (customerId r = k)) as [<-|Hne]; [exact Hk|].
  apply Hother. congruence.
Qed.

Lemma fold_credit_other (rows : list Db.Commission) w k :
  k ∉ customerId <$> rows → fold_left creditRow rows w !! k = w !! k.
Proof.
  revert w. induction rows as [|r rows IH]; intros w Hk; [done|].
  rewrite fmap_cons in Hk. apply not_elem_of_cons in Hk as [Hne Hk].
  simpl. rewrite IH by done. unfold creditRow.
  by apply walletAdd_lookup.
Qed.

Lemma fold_credit_one (rows : list Db.Commission) w r :
  NoDup (customerId <$> rows) → r ∈ rows →
  fold_left creditRow rows w !! customerId r
  = Some (match w !! customerId r with
          | Some b => add b (amount r)
          | None => amount r
          end).
Proof.
  revert w. induction rows as [|r0 rows IH]; intros w Hnd Hr;
    [by inversion Hr|].
  rewrite fmap_cons in Hnd. apply NoDup_cons in Hnd as [Hfresh Hnd].
  simpl. apply elem_of_cons in Hr. destruct Hr as [->|Hr].
  - rewrite fold_credit_other by done. unfold creditRow.
    apply walletAdd_lookup.
  - rewrite IH by done. unfold creditRow.
    assert (Hne : customerId r ≠ customerId r0).
    { intros Heq. apply Hfresh. rewrite <- Heq.
      by apply list_elem_of_fmap_2. }
    by rewrite (proj2 (walletAdd_lookup _ _ _) _ Hne).
Qed.

Lemma paidEntries_elem (chain : list Upline.Entry) (amounts : list number)
    e a :
  (e, a) ∈ paidEntries chain amounts
  ↔ ∃ i, chain !! i = Some e ∧ amounts !! i = Some a
         ∧ le a (Fin 0) = false.
Proof.
  unfold paidEntries.
  rewrite list_elem_of_In, filter_In, <- list_elem_of_In, list_elem_of_lookup.
  cbn [snd]. rewrite negb_true_iff. split.
  - intros [[i Hi] Hpos]. apply lookup_zip_Some in Hi as [He Ha]. eauto.
  - intros (i & He & Ha & Hpos). split; [|done].
    exists i. by apply lookup_zip_Some.
Qed.

Lemma paidEntries_sublist (chain : list Upline.Entry)
    (amounts : list number) :
  (paidEntries chain amounts).*1 `sublist_of` chain.
Proof.
  unfold paidEntries. revert amounts.
  induction chain as [|e chain IH]; intros [|a amounts];
    try apply sublist_nil_l.
  rewrite zip_cons, stdlib_filter_cons. cbn [snd].
  destruct (le a (Fin 0)); cbn [negb].
  - apply sublist_cons, IH.
  - rewrite fmap_cons. apply sublist_skip, IH.
Qed.

(** What the persisting loop does: one ledger row and one wallet credit
    of the same amount for each pair that is not skipped, in order; no
    other table is touched. *)
Lemma creditLoop_spec sourceId amounts rest i st created details :
  let pairs := creditedPairs rest (drop i amounts) in
  let rows := rowOf sourceId <$> pairs in
  creditLoop sourceId amounts i rest (st, created, details)
  = (mkStore (customers st)
       (fold_left (λ w r, walletAdd (customerId r) (amount r) w) rows
          (wallets st))
       (commissions st ++ rows) (mlSettings st) (bookings st)
       (leadSteps st) (issued st),
     created ++ rows, details ++ (detailOf <$> pairs)).
Proof.
  revert i st created details.
  induction rest as [|x rest IH]; intros i st created details; simpl.
  - rewrite !app_nil_r. by destruct st.
  - unfold creditedPairs.
    destruct (amounts !! i) as [a|] eqn:Ha.
    + rewrite (drop_S _ _ _ Ha). simpl.
      destruct (le a (Fin 0)) eqn:Hle; simpl.
      * apply IH.
      * rewrite IH. simpl. unfold creditedPairs.
        rewrite <- !app_assoc. reflexivity.
    + apply lookup_ge_None in Ha. rewrite (drop_ge _ _ Ha).
      simpl. rewrite IH. unfold creditedPairs.
      rewrite drop_ge by lia. by rewrite zip_with_nil_r.
Qed.

End DistributorFacts.

Section DistributeFacts.
Import JsNumber Db Commission.

Lemma getMlSettings_store st :
  (getMlSettings st).2
  = setMlSettings (Some (getMlSettings st).1) st.
Proof. unfold getMlSettings. destruct st as [? ? ? [s|] ? ? ?]; reflexivity. Qed.

(** The distributor, with the persisting loop replaced by its effect. *)
Lemma distribute_unfold sourceId gross st :
  let settings := (getMlSettings st).1 in
  let chain := Upline.getUplineChain (customers st) sourceId 3 in
  let intended := intendedOf settings chain in
  let amounts :=
    scaleAmounts (capOf settings gross) (rawAmounts intended gross) in
  let pairs := creditedPairs intended amounts in
  let rows := rowOf sourceId <$> pairs in
  distributeCommissionForPurchase sourceId gross st
  = (mkDistribution (length rows) (sumAmounts amounts) (detailOf <$> pairs),
     mkStore (customers st)
       (fold_left (λ w r, walletAdd (customerId r) (amount r) w) rows
          (wallets st))
       (commissions st ++ rows) (Some settings) (bookings st)
       (leadSteps st) (issued st)).
Proof.
  intros settings chain intended amounts pairs rows.
  unfold distributeCommissionForPurchase.
  pose proof (getMlSettings_store st) as Hst.
  destruct (getMlSettings st) as [settings' st0] eqn:E. simpl in Hst.
  subst st0. fold settings. simpl customers. fold chain intended amounts.
  rewrite creditLoop_spec. rewrite drop_0. fold pairs rows.
  simpl. reflexivity.
Qed.

(** The distributor in terms of the chain entries and of the arithmetic
    on the percentages: the nominal amounts [(p / 100) * gross], their
    sum, the cap, and the clawback by [cap / total]. *)
Lemma distribute_explicit sourceId gross st :
  let settings := (getMlSettings st).1 in
  let chain := Upline.getUplineChain (customers st) sourceId 3 in
  let nominals :=
    (λ p, mul (div p (Fin 100)) gross)
      <$> take (length chain)
            [level1Percent settings; level2Percent settings;
             level3Percent settings] in
  let total := fold_left add nominals (Fin 0) in
  let cap := mul (div (maxPayoutPercent settings) (Fin 100)) gross in
  let amounts :=
    if gt total cap && gt total (Fin 0)
    then (λ a, mul a (div cap total)) <$> nominals
    else nominals in
  let paid := paidEntries chain amounts in
  let rows := ledgerRow sourceId <$> paid in
  distributeCommissionForPurchase sourceId gross st
  = (mkDistribution (length rows) (fold_left add amounts (Fin 0))
       (detailRow <$> paid),
     mkStore (customers st) (fold_left creditRow rows (wallets st))
       (commissions st ++ rows) (Some settings) (bookings st)
       (leadSteps st) (issued st)).
Proof.
  intros settings chain nominals total cap amounts paid rows.
  rewrite distribute_unfold. fold settings chain.
  assert (Hraw : rawAmounts (intendedOf settings chain) gross = nominals)
    by (apply rawAmounts_explicit, getUplineChain_length).
  assert (Ham : scaleAmounts (capOf settings gross)
                  (rawAmounts (intendedOf settings chain) gross) = amounts)
    by (rewrite Hraw; reflexivity).
  rewrite Ham.
  destruct (creditedPairs_entries
              (λ idx u, mkIntended (Upline.id u) (Upline.depth u)
                          (percentAt (percentsOf settings) idx))
              chain amounts) as [Hrows Hdetails]; [done|].
  change (imap _ chain) with (intendedOf settings chain) in Hrows, Hdetails.
  rewrite Hrows, Hdetails. reflexivity.
Qed.

End DistributeFacts.

Section ComparisonFacts.
Import JsNumber.



End ComparisonFacts.




Section PersistFacts.
Import JsNumber Db Commission.

(** The depths recorded in a chain count up from 1. *)
Lemma getUplineChain_depths customers c n :
  Upline.depth <$> Upline.getUplineChain customers c n
  = seq 1 (length (Upline.getUplineChain customers c n)).
Proof.
  apply list_eq. intros i. rewrite list_lookup_fmap.
  destruct (Upline.getUplineChain customers c n !! i) as [e|] eqn:He.
  - pose proof (lookup_lt_Some _ _ _ He) as Hi.
    apply uplineLoop_lookup in He as [Hd _]. simpl in Hd. simpl.
    rewrite Hd. symmetry. by apply lookup_seq.
  - simpl. symmetry. apply lookup_ge_None.
    apply lookup_ge_None in He. by rewrite length_seq.
Qed.

Lemma stdlib_filter_length_id {A} (f : A → bool) (l : list A) :
  length (List.filter f l) = length l → List.filter f l = l.
Proof.
  induction l as [|x l IH]; [done|]. rewrite stdlib_filter_cons.
  pose proof (List.filter_length_le f l) as Hle.
  destruct (f x); simpl; intros Hlen; [f_equal; apply IH|]; lia.
Qed.

Lemma ledgerRow_recipients sourceId (paid : list (Upline.Entry * number)) :
  customerId <$> (ledgerRow sourceId <$> paid) = Upline.id <$> paid.*1.
Proof. rewrite <- !list_fmap_compose. by apply list_fmap_ext. Qed.

Lemma ledgerRow_levels sourceId (paid : list (Upline.Entry * number)) :
  levelFromDownline <$> (ledgerRow sourceId <$> paid)
  = Upline.depth <$> paid.*1.
Proof. rewrite <- !list_fmap_compose. by apply list_fmap_ext. Qed.

Lemma ledgerRow_amounts sourceId (paid : list (Upline.Entry * number)) :
  amount <$> (ledgerRow sourceId <$> paid) = paid.*2.
Proof. rewrite <- !list_fmap_compose. by apply list_fmap_ext. Qed.

End PersistFacts.

(** C8 fails as stated in two places.  A purchaser without upline does
    cause a write: the settings row is created when it is missing.  And
    the total returned is the sum of all post-scaling amounts, not of
    those credited: with levels 2%, -1%, 1% and a gross amount of 100 the
    ledger gets 2 and 1 (the ancestor with -1 is skipped) while the
    total returned is 2. *)
Lemma distribute_writes_counterexample :
  let run0 :=
    Commission.distributeCommissionForPurchase "R" (JsNumber.Fin 100000)
      Commission.freshStore in
  let run1 :=
    Commission.distributeCommissionForPurchase "D" (JsNumber.Fin 100)
      Commission.negativeLevelStore in
  (Upline.getUplineChain (Db.customers Commission.freshStore) "R" 3 = []
   ∧ Commission.created run0.1 = 0
   ∧ Db.mlSettings Commission.freshStore = None
   ∧ Db.mlSettings run0.2 = Some Commission.defaultSettings
   ∧ run0.2 ≠ Commission.freshStore)
  ∧ (Db.customerId <$> Db.commissions run1.2 = ["C"; "A"]
     ∧ Db.amount <$> Db.commissions run1.2
       = [JsNumber.Fin 2; JsNumber.Fin 1]
     ∧ fold_left JsNumber.add (Db.amount <$> Db.commissions run1.2)
         (JsNumber.Fin 0) = JsNumber.Fin 3
     ∧ Commission.totalAmount run1.1 = JsNumber.Fin 2
     ∧ Commission.totalAmount run1.1 ≠ JsNumber.Fin 3).
Proof.
  cbv zeta. split.
  - do 4 (split; [vm_compute; reflexivity|]).
    intros H. apply (f_equal Db.mlSettings) in H. vm_compute in H.
    discriminate H.
  - do 4 (split; [vm_compute; reflexivity|]).
    vm_compute. discriminate.
Qed.

(** C8 (amended): for every store, purchaser and gross amount the
    distributor appends to the ledger exactly one row for each resolved
    ancestor whose post-scaling amount is not <= 0 and none for the
    others, leaving the earlier rows as they were; it credits the wallet
    of each row's recipient by the row's amount (old balance plus the
    amount, or the amount alone for a new wallet) and leaves the other
    wallets alone; it returns the number of rows written, their details,
    and the sum of the post-scaling amounts of all resolved ancestors
    (the sum credited when none is skipped).  The settings row is
    created when missing; customers, bookings, steps and the certificate
    log are untouched.  Without upline it returns count 0 and total 0 and
    leaves ledger and wallets as they were. *)
Theorem distribute_persists
    (st : Db.Store) (sourceId : string) (gross : JsNumber.number) :
  let settings := (Commission.getMlSettings st).1 in
  let chain := Upline.getUplineChain (Db.customers st) sourceId 3 in
  let percents :=
    [Db.level1Percent settings; Db.level2Percent settings;
     Db.level3Percent settings] in
  let nominal p := JsNumber.mul (JsNumber.div p (JsNumber.Fin 100)) gross in
  let total :=
    fold_left JsNumber.add (nominal <$> take (length chain) percents)
      (JsNumber.Fin 0) in
  let cap := nominal (Db.maxPayoutPercent settings) in
  let scaled := JsNumber.gt total cap && JsNumber.gt total (JsNumber.Fin 0) in
  let amount p :=
    if scaled then JsNumber.mul (nominal p) (JsNumber.div cap total)
    else nominal p in
  let amounts := amount <$> take (length chain) percents in
  let run := Commission.distributeCommissionForPurchase sourceId gross st in
  let rows := drop (length (Db.commissions st)) (Db.commissions run.2) in
  take (length (Db.commissions st)) (Db.commissions run.2)
  = Db.commissions st
  ∧ (∀ i e a, chain !! i = Some e → amounts !! i = Some a →
       Upline.hop (Db.customers st) sourceId (S i) = Some (Upline.id e)
       ∧ if JsNumber.le a (JsNumber.Fin 0)
         then ∀ r, r ∈ rows → Db.levelFromDownline r ≠ S i
         else Db.mkCommission (Upline.id e) sourceId (S i) a ∈ rows
              ∧ ∀ r, r ∈ rows → Db.levelFromDownline r = S i →
                     r = Db.mkCommission (Upline.id e) sourceId (S i) a)
  ∧ Db.levelFromDownline <$> rows `sublist_of` seq 1 (length chain)
  ∧ (∀ k, Db.wallets run.2 !! k
          = Commission.balanceAfter rows k (Db.wallets st !! k))
  ∧ (NoDup (Upline.id <$> chain) → ∀ r, r ∈ rows →
       Db.wallets run.2 !! Db.customerId r
       = Some (match Db.wallets st !! Db.customerId r with
               | Some b => JsNumber.add b (Db.amount r)
               | None => Db.amount r
               end))
  ∧ (∀ k, k ∉ Db.customerId <$> rows →
          Db.wallets run.2 !! k = Db.wallets st !! k)
  ∧ Commission.created run.1 = length rows
  ∧ Commission.details run.1
    = (λ r, Commission.mkDetail (Db.customerId r) (Db.levelFromDownline r)
              (Db.amount r)) <$> rows
  ∧ Commission.totalAmount run.1
    = fold_left JsNumber.add amounts (JsNumber.Fin 0)
  ∧ (length rows = length chain →
       Commission.totalAmount run.1
       = fold_left JsNumber.add (Db.amount <$> rows) (JsNumber.Fin 0))
  ∧ Db.mlSettings run.2 = Some settings
  ∧ Db.customers run.2 = Db.customers st
  ∧ Db.bookings run.2 = Db.bookings st
  ∧ Db.leadSteps run.2 = Db.leadSteps st
  ∧ Db.issued run.2 = Db.issued st
  ∧ (chain = [] →
       Commission.created run.1 = 0
       ∧ Commission.details run.1 = []
       ∧ Commission.totalAmount run.1 = JsNumber.Fin 0
       ∧ Db.commissions run.2 = Db.commissions st
       ∧ Db.wallets run.2 = Db.wallets st).
Proof.
  intros settings chain percents nominal total cap scaled amount amounts
    run rows.
  set (paid := Commission.paidEntries chain amounts).
  assert (Ham : amounts
    = if scaled
      then (λ a, JsNumber.mul a (JsNumber.div cap total))
             <$> (nominal <$> take (length chain) percents)
      else nominal <$> take (length chain) percents).
  { unfold amounts, amount. destruct scaled; [|done].
    by rewrite <- list_fmap_compose. }
  assert (Hrun : run
    = (Commission.mkDistribution
         (length (Commission.ledgerRow sourceId <$> paid))
         (fold_left JsNumber.add amounts (JsNumber.Fin 0))
         (Commission.detailRow <$> paid),
       Db.mkStore (Db.customers st)
         (fold_left Commission.creditRow
            (Commission.ledgerRow sourceId <$> paid) (Db.wallets st))
         (Db.commissions st ++ (Commission.ledgerRow sourceId <$> paid))
         (Some settings) (Db.bookings st) (Db.leadSteps st)
         (Db.issued st))).
  { unfold run, paid. rewrite Ham. apply distribute_explicit. }
  assert (Hrows : rows = Commission.ledgerRow sourceId <$> paid).
  { unfold rows. rewrite Hrun. cbn [snd Db.commissions].
    by rewrite drop_app_length. }
  assert (Hdepth : ∀ j e, chain !! j = Some e → Upline.depth e = S j).
  { intros j e He. by apply uplineLoop_lookup in He as [Hd _]. }
  assert (Hin : ∀ r, r ∈ rows →
    ∃ j e a, chain !! j = Some e ∧ amounts !! j = Some a
             ∧ JsNumber.le a (JsNumber.Fin 0) = false
             ∧ r = Db.mkCommission (Upline.id e) sourceId (S j) a).
  { intros r Hr. rewrite Hrows in Hr.
    apply list_elem_of_fmap in Hr as ([e a] & -> & Hea).
    apply paidEntries_elem in Hea as (j & He & Ha & Hpos).
    exists j, e, a. repeat split; try done.
    unfold Commission.ledgerRow. cbn [fst snd]. by rewrite (Hdepth j e He). }
  assert (Hsub : (paid.*1) `sublist_of` chain)
    by apply paidEntries_sublist.
  rewrite Hrun. cbn [fst snd Commission.created Commission.totalAmount
                     Commission.details Db.commissions Db.wallets
                     Db.mlSettings Db.customers Db.bookings Db.leadSteps
                     Db.issued].
  split; [by rewrite take_app_length|].
  split.
  { intros i e a He Ha.
    split; [by apply uplineLoop_lookup in He as [_ Hh]|].
    destruct (JsNumber.le a (JsNumber.Fin 0)) eqn:Hle.
    - intros r Hr Hlevel.
      destruct (Hin r Hr) as (j & e' & a' & He' & Ha' & Hpos & ->).
      cbn [Db.levelFromDownline] in Hlevel.
      assert (j = i) as -> by lia. congruence.
    - split.
      + rewrite Hrows. apply list_elem_of_fmap. exists (e, a). split.
        * unfold Commission.ledgerRow. cbn [fst snd].
          by rewrite (Hdepth i e He).
        * apply paidEntries_elem. by exists i.
      + intros r Hr Hlevel.
        destruct (Hin r Hr) as (j & e' & a' & He' & Ha' & Hpos & ->).
        cbn [Db.levelFromDownline] in Hlevel.
        assert (j = i) as -> by lia. congruence. }
  split.
  { rewrite Hrows, ledgerRow_levels.
    unfold chain. rewrite <- getUplineChain_depths.
    apply fmap_sublist, Hsub. }
  split; [intros k; rewrite Hrows; apply fold_credit_balance|].
  split.
  { intros Hnd r Hr. rewrite Hrows in Hr.
    apply fold_credit_one; [|exact Hr].
    rewrite ledgerRow_recipients.
    eapply sublist_NoDup; [exact Hnd|]. by apply fmap_sublist. }
  split; [intros k Hk; rewrite Hrows in Hk; by apply fold_credit_other|].
  split; [by rewrite Hrows|].
  split.
  { rewrite Hrows, <- !list_fmap_compose. by apply list_fmap_ext. }
  split; [reflexivity|].
  split.
  { intros Hall. rewrite Hrows, ledgerRow_amounts.
    rewrite Hrows, length_fmap in Hall.
    assert (Hlenam : length amounts = length chain).
    { unfold amounts. rewrite length_fmap, length_take. simpl.
      pose proof (getUplineChain_length (Db.customers st) sourceId 3).
      fold chain in H. lia. }
    assert (Hfull : paid = zip chain amounts).
    { unfold paid, Commission.paidEntries in *.
      apply stdlib_filter_length_id.
      rewrite Hall, length_zip_with. lia. }
    by rewrite Hfull, snd_zip by lia. }
  do 5 (split; [reflexivity|]).
  intros Hnil. unfold paid. rewrite Hnil. unfold amounts. rewrite Hnil.
  cbn. by rewrite app_nil_r.
Qed.

Lemma distribute_persists_witness :
  let run :=
    Commission.distributeCommissionForPurchase "D" (JsNumber.Fin 100000)
      Commission.scenarioStore in
  Commission.created run.1 = 3
  ∧ Db.wallets run.2 !! "C"
    = Some (JsNumber.mul (JsNumber.Fin 3000)
              (JsNumber.div (JsNumber.Fin 4000) (JsNumber.Fin 7000)))
  ∧ Db.wallets run.2 !! "D" = None
  ∧ Db.customerId <$> Db.commissions run.2 = ["C"; "B"; "A"].
Proof.
  destruct (distribute_persists Commission.scenarioStore "D"
              (JsNumber.Fin 100000))
    as (Hold & _ & _ & Hbal & _ & Hother & Hcreated & _).
  split; [rewrite Hcreated; vm_compute; reflexivity|].
  split; [rewrite Hbal; vm_compute; reflexivity|].
  split.
  - rewrite Hother; [vm_compute; reflexivity|].
    apply (bool_decide_eq_true_1 _). vm_compute. reflexivity.
  - vm_compute. reflexivity.
Defined.

Section GuardFacts.
Import JsNumber Db Commission.

Lemma le_zero_cases (a : number) :
  le a (Fin 0)
  = match a with
    | S754_zero _ | S754_infinity true | S754_finite true _ _ => true
    | _ => false
    end.
Proof. by destruct a as [[]|[]| |[] m e]. Qed.

(** The customer-facing guard [!gross || gross <= 0] rejects zero,
    negative values, NaN and minus infinity, and the store is not
    touched. *)
Lemma postDistribute_rejects (sub : string) (gross : number) (st : Store) :
  match gross with
  | S754_finite false _ _ | S754_infinity false => False
  | _ => True
  end →
  postDistribute customer sub gross st = (Failure 400 "amount required", st).
Proof.
  intros Hbad. unfold postDistribute. simpl. rewrite le_zero_cases.
  by destruct gross as [[]|[]| |[] m e].
Qed.

(** The admin-facing guard [!Number.isFinite(gross) || gross <= 0]
    rejects every non-positive or non-finite amount. *)
Lemma postDistributeForBooking_rejects
    (bid : string) (booking : Booking) (st : Store) :
  bookings st !! bid = Some booking →
  match default (Fin 0) (totalPayable booking) with
  | S754_finite false _ _ => False
  | _ => True
  end →
  ∃ error,
    postDistributeForBooking admin (Some bid) st = (Failure 400 error, st).
Proof.
  intros Hb Hbad. unfold postDistributeForBooking. simpl.
  destruct (truthy bid); [|eauto]. rewrite Hb.
  destruct (bookingCustomerId booking) as [cid|]; [|eauto].
  destruct (truthy cid); [|eauto].
  rewrite le_zero_cases.
  destruct (default (Fin 0) (totalPayable booking)) as [[]|[]| |[] m e];
    simpl; eauto.
  done.
Qed.

End GuardFacts.

(** C7 (defect): the customer-facing entry point lets a gross amount of
    plus infinity through its guard.  For the customer D of the sample
    chain the distributor runs, writes three ledger rows of infinite
    amount and credits three wallets, where the claim requires an
    InvalidAmount failure and no state change. *)
Theorem postDistribute_accepts_infinity :
  ∃ result st',
    Commission.postDistribute Db.customer "D" JsNumber.PosInf
      Commission.freshStore = (Commission.Json result, st')
    ∧ Commission.created result = 3
    ∧ Db.commissions st'
      = [Db.mkCommission "C" "D" 1 JsNumber.PosInf;
         Db.mkCommission "B" "D" 2 JsNumber.PosInf;
         Db.mkCommission "A" "D" 3 JsNumber.PosInf]
    ∧ Db.wallets st' !! "C" = Some JsNumber.PosInf
    ∧ Db.commissions Commission.freshStore = []
    ∧ Db.wallets Commission.freshStore !! "C" = None.
Proof.
  eexists _, _. split.
  - unfold Commission.postDistribute. simpl.
    rewrite distribute_unfold. reflexivity.
  - vm_compute. repeat split; reflexivity.
Qed.

(** ** Step workflow engine *)

Section SortFacts.
Import Workflow.
Context {A : Type}.
Variable key : A → Z.

Lemma insertByKey_perm (x : A) (l : list A) : insertByKey key x l ≡ₚ x :: l.
Proof.
  induction l as [|y l IH]; simpl; [done|].
  destruct (key x <=? key y)%Z; [done|].
  rewrite IH. apply Permutation_swap.
Qed.

Lemma sortByKey_perm (l : list A) : sortByKey key l ≡ₚ l.
Proof.
  induction l as [|x l IH]; simpl; [done|].
  unfold sortByKey in *. simpl. by rewrite insertByKey_perm, IH.
Qed.

Lemma sortByKey_elem_of (x : A) (l : list A) : x ∈ sortByKey key l ↔ x ∈ l.
Proof. by rewrite sortByKey_perm. Qed.

Lemma insertByKey_sorted (x : A) (l : list A) :
  StronglySorted (keyLe key) l → StronglySorted (keyLe key) (insertByKey key x l).
Proof.
  induction 1 as [|y l Hl IH Hy]; simpl.
  - repeat constructor.
  - destruct (key x <=? key y)%Z eqn:E.
    + apply Z.leb_le in E. constructor; [by constructor|].
      constructor; [exact E|].
      eapply Forall_impl; [exact Hy|]. unfold keyLe. intros z Hz. lia.
    + apply Z.leb_gt in E. constructor; [exact IH|].
      rewrite insertByKey_perm. constructor; [unfold keyLe; lia|exact Hy].
Qed.

Lemma sortByKey_sorted (l : list A) : StronglySorted (keyLe key) (sortByKey key l).
Proof.
  induction l as [|x l IH]; [constructor|].
  unfold sortByKey in *. simpl. by apply insertByKey_sorted.
Qed.

(** Sorting a list that is already in order changes nothing. *)
Lemma sortByKey_id (l : list A) : StronglySorted (keyLe key) l → sortByKey key l = l.
Proof.
  induction 1 as [|x l Hl IH Hx]; [done|].
  unfold sortByKey in *. simpl. rewrite IH.
  destruct l as [|y l']; [done|]. simpl.
  inversion Hx as [|? ? Hxy _]; subst. unfold keyLe in Hxy.
  apply Z.leb_le in Hxy. by rewrite Hxy.
Qed.

(** The last element of a sorted list has the greatest key. *)
Lemma last_sorted_max (l : list A) (m : A) :
  StronglySorted (keyLe key) l → last l = Some m →
  ∀ x, x ∈ l → (key x <= key m)%Z.
Proof.
  induction 1 as [|y l Hl IH Hy]; intros Hlast x Hx; [by inversion Hx|].
  destruct l as [|z l'].
  - simpl in Hlast. injection Hlast as <-.
    apply list_elem_of_singleton in Hx as ->. lia.
  - assert (Hm : m ∈ z :: l').
    { apply last_Some in Hlast as (l'' & Hl'').
      change (y :: z :: l') with ([y] ++ z :: l') in Hl''.
      destruct l'' as [|w l'']; simpl in Hl''; [done|].
      injection Hl'' as _ Hl''. rewrite Hl''.
      apply elem_of_app. right. by apply list_elem_of_singleton. }
    apply elem_of_cons in Hx. destruct Hx as [Heq|Hx'].
    + subst x. rewrite Forall_forall in Hy. by apply Hy.
    + by apply IH.
Qed.

End SortFacts.

Section DueDaysFacts.
Import Db Workflow.
Variable tzOffset : Z.

(** The local midnight is a whole number of days after the epoch's. *)
Lemma startOfDay_day (t : Z) :
  startOfDay tzOffset t
  = (msPerDay * localDay tzOffset t - tzOffset)%Z.
Proof.
  unfold startOfDay, localDay, msPerDay.
  pose proof (Z.div_mod (t + tzOffset) (1000 * 60 * 60 * 24)) as H.
  lia.
Qed.

(** The elapsed calendar days are the difference of the local day
    numbers: the time of day plays no part. *)
Lemma calendarDays_localDay (startDate now : Z) :
  calendarDays tzOffset startDate now
  = (localDay tzOffset now - localDay tzOffset startDate)%Z.
Proof.
  unfold calendarDays. rewrite !startOfDay_day.
  replace (msPerDay * localDay tzOffset now - tzOffset
           - (msPerDay * localDay tzOffset startDate - tzOffset))%Z
    with ((localDay tzOffset now - localDay tzOffset startDate)
          * msPerDay)%Z by lia.
  apply Z.div_mul. unfold msPerDay. lia.
Qed.

Lemma dueDaysOf_range sortedSteps bookingCreatedAt now index step :
  let d := dueDaysOf tzOffset sortedSteps bookingCreatedAt now index step in
  d = 0%Z ∨ (1 <= d <= 5)%Z.
Proof.
  unfold dueDaysOf. destruct (completed step); [by left|].
  destruct (startDateOf sortedSteps bookingCreatedAt index); [|by left].
  right. lia.
Qed.

End DueDaysFacts.

(** C3: [calculateDueDays] is a function of the step list, the booking's
    creation time and the current time.  On the steps in order: a
    completed step gets 0; a step after the first whose predecessor is
    not completed gets 0; an active step gets the elapsed calendar days
    clamped to [1, 5], counted from the booking's creation for the first
    step and from the predecessor's completion otherwise; the elapsed
    calendar days are the difference of the local day numbers, so a start
    at 23:00 checked at 01:00 the next day counts 1; every value is 0 or
    lies in [1, 5]. *)
Theorem calculateDueDays_spec
    (tzOffset : Z) (steps : list Db.LeadStep) (bookingCreatedAt now : Z) :
  let sortedSteps := Workflow.sortByKey Db.order steps in
  let result := Workflow.calculateDueDays tzOffset steps bookingCreatedAt now in
  let clamp (n : Z) := Z.min (Z.max n 1) 5 in
  let elapsed (startDate : Z) :=
    (Workflow.localDay tzOffset now
     - Workflow.localDay tzOffset startDate)%Z in
  sortedSteps ≡ₚ steps
  ∧ StronglySorted (Workflow.keyLe Db.order) sortedSteps
  ∧ (StronglySorted (Workflow.keyLe Db.order) steps → sortedSteps = steps)
  ∧ length result = length steps
  ∧ (∀ k step, sortedSteps !! k = Some step →
       ∃ d, result !! k
            = Some (Db.mkLeadStep (Db.id step) (Db.leadId step)
                      (Db.name step) (Db.order step) (Db.completed step)
                      (Db.completedAt step) (Db.completionNotes step) d)
            ∧ Db.dueDays <$> result !! k = Some d
            ∧ (d = 0%Z ∨ (1 <= d <= 5)%Z)
            ∧ (Db.completed step = true → d = 0%Z)
            ∧ (∀ prev, 0 < k → sortedSteps !! (k - 1) = Some prev →
                 Db.completed prev = false → d = 0%Z)
            ∧ (Db.completed step = false → k = 0 →
                 d = clamp (elapsed bookingCreatedAt))
            ∧ (∀ prev t, Db.completed step = false → 0 < k →
                 sortedSteps !! (k - 1) = Some prev →
                 Db.completed prev = true → Db.completedAt prev = Some t →
                 d = clamp (elapsed t)))
  ∧ (∀ day : Z,
       let midnight := (Workflow.msPerDay * day - tzOffset)%Z in
       Workflow.calendarDays tzOffset
         (midnight + 23 * 3600000) (midnight + Workflow.msPerDay + 3600000)
       = 1%Z).
Proof.
  intros sortedSteps result clamp elapsed.
  split; [apply sortByKey_perm|].
  split; [apply sortByKey_sorted|].
  split; [apply sortByKey_id|].
  split.
  { unfold result, Workflow.calculateDueDays.
    rewrite length_imap.
    apply Permutation_length, sortByKey_perm. }
  split.
  - intros k step Hk.
    exists (Workflow.dueDaysOf tzOffset sortedSteps bookingCreatedAt now k step).
    assert (Hrow : result !! k
      = Some (Workflow.setDueDays
                (Workflow.dueDaysOf tzOffset sortedSteps bookingCreatedAt now
                   k step) step)).
    { unfold result, Workflow.calculateDueDays. fold sortedSteps.
      by rewrite list_lookup_imap, Hk. }
    split; [exact Hrow|]. split; [by rewrite Hrow|].
    split; [apply dueDaysOf_range|].
    unfold Workflow.dueDaysOf, clamp, elapsed.
    split; [by intros ->|]. split; [|split].
    + intros prev Hpos Hprev Hnot.
      destruct (Db.completed step); [done|].
      destruct k as [|k]; [lia|]. simpl in *.
      rewrite Nat.sub_0_r in Hprev. by rewrite Hprev, Hnot.
    + intros -> ->. simpl. by rewrite calendarDays_localDay.
    + intros prev t -> Hpos Hprev Hdone Ht.
      destruct k as [|k]; [lia|]. simpl in *.
      rewrite Nat.sub_0_r in Hprev. rewrite Hprev, Hdone, Ht.
      by rewrite calendarDays_localDay.
  - intros day midnight. rewrite calendarDays_localDay.
    unfold Workflow.localDay, midnight, Workflow.msPerDay.
    replace (1000 * 60 * 60 * 24 * day - tzOffset + 1000 * 60 * 60 * 24
             + 3600000 + tzOffset)%Z
      with (3600000 + (day + 1) * (1000 * 60 * 60 * 24))%Z by lia.
    replace (1000 * 60 * 60 * 24 * day - tzOffset + 23 * 3600000
             + tzOffset)%Z
      with (23 * 3600000 + day * (1000 * 60 * 60 * 24))%Z by lia.
    rewrite !Z.div_add by lia.
    rewrite !Z.div_small by lia. lia.
Qed.

Lemma calculateDueDays_spec_witness :
  let day (n : Z) := (n * Workflow.msPerDay)%Z in
  let first := Db.mkLeadStep "a" "L" "meeting" 1 true (Some (day 3%Z)) None 4 in
  let second := Db.mkLeadStep "b" "L" "survey" 2 false None None 0 in
  let third := Db.mkLeadStep "c" "L" "design" 3 false None None 2 in
  Db.dueDays
    <$> Workflow.calculateDueDays 19800000 [third; first; second] 0 (day 5%Z)
  = [0%Z; 2%Z; 0%Z].
Proof.
  intros day first second third.
  destruct (calculateDueDays_spec 19800000 [third; first; second] 0 (day 5%Z))
    as (_ & _ & _ & Hlen & Hrows & _).
  destruct (Hrows 0 first eq_refl) as (d0 & _ & H0 & _ & Hd0 & _).
  destruct (Hrows 1 second eq_refl) as (d1 & _ & H1 & _ & _ & _ & _ & Hd1).
  destruct (Hrows 2 third eq_refl) as (d2 & _ & H2 & _ & _ & Hd2 & _).
  rewrite (Hd0 eq_refl) in H0.
  rewrite (Hd1 first (day 3%Z) eq_refl ltac:(lia) eq_refl eq_refl eq_refl)
    in H1.
  rewrite (Hd2 second ltac:(lia) eq_refl eq_refl) in H2.
  apply list_eq. intros [|[|[|k]]].
  - rewrite list_lookup_fmap. exact H0.
  - rewrite list_lookup_fmap, H1. vm_compute. reflexivity.
  - rewrite list_lookup_fmap. exact H2.
  - rewrite list_lookup_fmap, lookup_ge_None_2; [done|].
    rewrite Hlen. simpl. lia.
Defined.

Section StaffFacts.
Import Db Workflow.

Lemma updateStep_lookup stepId f (steps : list LeadStep) i :
  updateStep stepId f steps !! i
  = (λ s, if decide (id s = stepId) then f s else s) <$> steps !! i.
Proof. unfold updateStep. apply list_lookup_fmap. Qed.

Lemma updateStep_length stepId f (steps : list LeadStep) :
  length (updateStep stepId f steps) = length steps.
Proof. unfold updateStep. apply length_fmap. Qed.

(** A successful staff completion passed every guard, and its writes are
    the update of the step and the update of the booking's percent. *)
Lemma postStaffCompleteStep_success now userType sub stepId notes st s c t p st' :
  postStaffCompleteStep now userType sub stepId notes st
  = (ProgressJson s c t p, st') →
  ∃ text step lead,
    notes = Some text
    ∧ List.find (λ x, bool_decide (id x = stepId)) (leadSteps st) = Some step
    ∧ bookings st !! leadId step = Some lead
    ∧ completed step = false
    ∧ s = completeWithNotes now (trim text) step
    ∧ p = materializedPercent c t
    ∧ st' = setBookings
              (alter (setPercent p) (leadId step) (bookings st))
              (setLeadSteps
                 (updateStep stepId (completeWithNotes now (trim text))
                    (leadSteps st)) st).
Proof.
  unfold postStaffCompleteStep. intros H.
  destruct (decide (userType = staff)); [|done].
  destruct notes as [text|]; [|done].
  destruct (truthy text && truthy (trim text)); [|done].
  destruct (List.find _ (leadSteps st)) as [step|] eqn:Hfind; [|done].
  destruct (bookings st !! leadId step) as [lead|] eqn:Hlead; [|done].
  destruct (decide (assignedStaffId lead = Some sub)); [|done].
  destruct (completed step) eqn:Hc; [done|].
  injection H as <- <- <- <- <-.
  exists text, step, lead. repeat split; done.
Qed.

(** Every refusal of the staff handler leaves the store as it was. *)
Lemma postStaffCompleteStep_failure now userType sub stepId notes st status
    error st' :
  postStaffCompleteStep now userType sub stepId notes st
  = (Failure status error, st') → st' = st.
Proof.
  unfold postStaffCompleteStep. intros H.
  repeat (match type of H with
          | context [match ?x with _ => _ end] => destruct x
          | context [if ?x then _ else _] => destruct x
          end; try done); by injection H.
Qed.

End StaffFacts.

(** C5 (defect): the staff-facing completion divides by the number of
    steps materialized so far and does not clamp.  Completing the second
    of the three materialized steps of the sample booking stores 67
    percent, where the fixed template size 12 gives 17. *)
Theorem staff_percent_uses_materialized_steps :
  Db.percent <$>
    Db.bookings
      (Workflow.postStaffCompleteStep 5000 Db.staff "S1" "s2" (Some "done")
         Workflow.sampleStore).2 !! "L1"
  = Some 67%Z
  ∧ Workflow.fixedPercent 2 = 17%Z.
Proof. vm_compute. split; reflexivity. Qed.

(** C6 fails as stated on the admin-facing path, which has no such
    guard: completing the already completed first step of the sample
    booking again answers with the updated step and moves its
    [completedAt] from 1000 to 5000. *)
Lemma admin_recompletion_counterexample :
  Db.completedAt <$> Db.leadSteps Workflow.sampleStore !! 0
  = Some (Some 1000%Z)
  ∧ Db.completed <$> Db.leadSteps Workflow.sampleStore !! 0 = Some true
  ∧ (Workflow.patchAdminStep Workflow.issueFails 5000 Db.admin "L1" "s1"
       true Workflow.sampleStore).1
    = Workflow.StepJson
        (Db.mkLeadStep "s1" "L1" "meeting" 1 true (Some 5000%Z)
           (Some "met") 0)
  ∧ Db.completedAt <$>
      Db.leadSteps
        (Workflow.patchAdminStep Workflow.issueFails 5000 Db.admin "L1" "s1"
           true Workflow.sampleStore).2 !! 0
    = Some (Some 5000%Z).
Proof. vm_compute. repeat split; reflexivity. Qed.

(** C6 (amended): on the staff-facing path, a completion request with
    non-blank notes from the assigned staff member for a step that is
    already completed fails with "Step is already completed" (status 400)
    and leaves the whole store, hence the step's [completedAt],
    [completed] and notes and the booking's percent, exactly as the first
    completion set them.  The admin-facing path has no such check. *)
Theorem staff_already_completed
    (now : Z) (sub stepId text : string) (st : Db.Store)
    (step : Db.LeadStep) (lead : Db.Booking) :
  truthy text && truthy (Workflow.trim text) = true →
  List.find (λ x, bool_decide (Db.id x = stepId)) (Db.leadSteps st)
  = Some step →
  Db.bookings st !! Db.leadId step = Some lead →
  Db.assignedStaffId lead = Some sub →
  Db.completed step = true →
  Workflow.postStaffCompleteStep now Db.staff sub stepId (Some text) st
  = (Workflow.Failure 400 "Step is already completed", st).
Proof.
  intros Hnotes Hfind Hlead Hstaff Hdone.
  unfold Workflow.postStaffCompleteStep. simpl.
  rewrite Hnotes, Hfind, Hlead, Hdone.
  by destruct (decide (Db.assignedStaffId lead = Some sub)).
Qed.

Lemma staff_already_completed_witness :
  let st1 :=
    (Workflow.postStaffCompleteStep 5000 Db.staff "S1" "s2" (Some "done")
       Workflow.sampleStore).2 in
  Workflow.postStaffCompleteStep 9000 Db.staff "S1" "s2" (Some "again") st1
  = (Workflow.Failure 400 "Step is already completed", st1).
Proof.
  intros st1.
  apply (staff_already_completed 9000 "S1" "s2" "again" st1
           (Workflow.completeWithNotes 5000 "done" Workflow.step2)
           (Workflow.setPercent 67 Workflow.sampleBooking));
    vm_compute; reflexivity.
Defined.

(** C10: a successful staff-facing completion writes the completed step's
    [completed], [completedAt] and [completionNotes] and the percent of
    the step's booking, and nothing else: every other step, every other
    field of the step, every other booking field (so [certificateUrl]),
    the log of certificate calls and the tables of the referral engine
    are as before. *)
Theorem staff_completion_frame
    (now : Z) (userType : Db.UserType) (sub stepId : string)
    (notes : option string) (st st' : Db.Store) (s : Db.LeadStep)
    (c t : nat) (p : Z) :
  Workflow.postStaffCompleteStep now userType sub stepId notes st
  = (Workflow.ProgressJson s c t p, st') →
  Db.issued st' = Db.issued st
  ∧ Db.customers st' = Db.customers st
  ∧ Db.wallets st' = Db.wallets st
  ∧ Db.commissions st' = Db.commissions st
  ∧ Db.mlSettings st' = Db.mlSettings st
  ∧ (∀ b, Db.bookings st' !! b
          = if decide (b = Db.leadId s)
            then Workflow.setPercent p <$> Db.bookings st !! b
            else Db.bookings st !! b)
  ∧ (∀ b, Db.certificateUrl <$> Db.bookings st' !! b
          = Db.certificateUrl <$> Db.bookings st !! b)
  ∧ length (Db.leadSteps st') = length (Db.leadSteps st)
  ∧ (∀ i x, Db.leadSteps st !! i = Some x →
       if decide (Db.id x = stepId)
       then ∃ text,
         Db.leadSteps st' !! i
         = Some (Db.mkLeadStep (Db.id x) (Db.leadId x) (Db.name x)
                   (Db.order x) true (Some now) (Some text) (Db.dueDays x))
       else Db.leadSteps st' !! i = Some x).
Proof.
  intros H.
  apply postStaffCompleteStep_success in H
    as (text & step & lead & -> & Hfind & Hlead & Hc & -> & -> & ->).
  simpl.
  assert (Hb : ∀ b,
    alter (Workflow.setPercent (Workflow.materializedPercent c t))
      (Db.leadId step) (Db.bookings st) !! b
    = if decide (b = Db.leadId step)
      then Workflow.setPercent (Workflow.materializedPercent c t) <$>
             Db.bookings st !! b
      else Db.bookings st !! b).
  { intros b. destruct (decide (b = Db.leadId step)) as [->|Hne].
    - by rewrite lookup_alter_eq.
    - by rewrite lookup_alter_ne. }
  repeat split; try reflexivity.
  - exact Hb.
  - intros b. rewrite Hb. destruct (decide (b = Db.leadId step)); [|done].
    by destruct (Db.bookings st !! b).
  - apply updateStep_length.
  - intros i x Hx. rewrite updateStep_lookup, Hx. simpl.
    destruct (decide (Db.id x = stepId)); [|done].
    by exists (Workflow.trim text).
Qed.

Lemma staff_completion_frame_witness :
  let st' :=
    (Workflow.postStaffCompleteStep 5000 Db.staff "S1" "s2" (Some "done")
       Workflow.sampleStore).2 in
  Db.issued st' = []
  ∧ Db.leadSteps st' !! 2 = Some Workflow.step3
  ∧ Db.certificateUrl <$> Db.bookings st' !! "L1" = Some None.
Proof.
  intros st'.
  destruct (staff_completion_frame 5000 Db.staff "S1" "s2" (Some "done")
              Workflow.sampleStore st'
              (Workflow.completeWithNotes 5000 "done" Workflow.step2) 2 3 67)
    as (Hissued & _ & _ & _ & _ & _ & Hcert & _ & Hsteps).
  - vm_compute. reflexivity.
  - split; [exact Hissued|]. split.
    + exact (Hsteps 2 Workflow.step3 eq_refl).
    + rewrite Hcert. vm_compute. reflexivity.
Defined.

Section AdminFacts.
Import Db Workflow.

Lemma activateNext_frame lead stepId st :
  bookings (activateNext lead stepId st) = bookings st
  ∧ issued (activateNext lead stepId st) = issued st.
Proof. unfold activateNext. by destruct (List.find _ _). Qed.

(** The latest completion time is an upper bound of the recorded
    completion times and is one of them; it is absent only when no step
    records one. *)
Lemma latestCompletedAt_spec (steps : list LeadStep) :
  match latestCompletedAt steps with
  | Some latest =>
      (∃ s, s ∈ steps ∧ completedAt s = Some latest)
      ∧ ∀ s t, s ∈ steps → completedAt s = Some t → (t <= latest)%Z
  | None => Forall (λ s, completedAt s = None) steps
  end.
Proof.
  unfold latestCompletedAt.
  destruct (last _) as [latest|] eqn:Hlast.
  - split.
    + apply last_Some_elem_of in Hlast.
      apply sortByKey_elem_of in Hlast.
      by apply list_elem_of_omap in Hlast.
    + intros s t Hs Ht.
      apply (last_sorted_max (λ d : Z, d) _ latest
               (sortByKey_sorted _ _) Hlast).
      apply sortByKey_elem_of, list_elem_of_omap. eauto.
  - apply last_None in Hlast. apply Forall_forall. intros s Hs.
    destruct (completedAt s) as [t|] eqn:Ht; [|done].
    assert (Hin : t ∈ sortByKey (λ d : Z, d) (omap completedAt steps))
      by (apply sortByKey_elem_of, list_elem_of_omap; eauto).
    rewrite Hlast in Hin. by inversion Hin.
Qed.

(** With a certificate on the booking the cascade does nothing. *)
Lemma certificateCascade_issued_once generate now lead st :
  (∀ b, bookings st !! lead = Some b → hasCertificate b = true) →
  certificateCascade generate now lead st = st.
Proof.
  intros H. unfold certificateCascade, leadFindUnique.
  destruct (bookings st !! lead) as [b|] eqn:Hb; [|done].
  rewrite (H b eq_refl). simpl. by rewrite andb_false_r.
Qed.

(** No completion request issues a certificate for a booking that has
    one. *)
Lemma patchAdminStep_no_reissue generate now userType lead stepId flag st :
  (∀ b, bookings st !! lead = Some b → hasCertificate b = true) →
  issued (patchAdminStep generate now userType lead stepId flag st).2
  = issued st.
Proof.
  intros H. unfold patchAdminStep.
  destruct (decide (userType = admin)); [|done].
  destruct (List.find _ _) as [step|]; [|done].
  destruct flag; [|done]. simpl.
  rewrite certificateCascade_issued_once.
  - by rewrite (proj2 (activateNext_frame _ _ _)).
  - intros b Hb. apply H.
    by rewrite (proj1 (activateNext_frame _ _ _)) in Hb.
Qed.

End AdminFacts.

(** C2 fails as stated in two places.  The staff-facing completion has
    no cascade: when the assigned staff member completes the last open
    step that is not named "certificate", every such step is completed
    and the booking has no certificate, yet the generator is not called.
    And the admin-facing cascade requires at least one such step: on a
    booking that has the "certificate" step only, completing it calls no
    generator either. *)
Lemma completion_without_cascade_counterexample :
  let staffRun :=
    Workflow.postStaffCompleteStep 5000 Db.staff "S1" "s2" (Some "done")
      Workflow.sampleStore in
  let adminRun :=
    Workflow.patchAdminStep Workflow.issueOk 5000 Db.admin "L1" "s3" true
      Workflow.certOnlyStore in
  let nonCertSteps (st : Db.Store) :=
    List.filter (λ s, negb (Workflow.isCertificate s))
      (Workflow.stepsOfLeadByOrder "L1" (Db.leadSteps st)) in
  (staffRun.1
   = Workflow.ProgressJson
       (Db.mkLeadStep "s2" "L1" "survey" 2 true (Some 5000%Z) (Some "done") 1)
       2 3 67
   ∧ Db.name <$> nonCertSteps staffRun.2 = ["meeting"; "survey"]
   ∧ Db.completed <$> nonCertSteps staffRun.2 = [true; true]
   ∧ Db.certificateUrl <$> Db.bookings staffRun.2 !! "L1" = Some None
   ∧ Db.issued Workflow.sampleStore = []
   ∧ Db.issued staffRun.2 = [])
  ∧ (adminRun.1
     = Workflow.StepJson
         (Db.mkLeadStep "s3" "L1" "certificate" 3 true (Some 5000%Z) None 0)
     ∧ nonCertSteps adminRun.2 = []
     ∧ Db.certificateUrl <$> Db.bookings adminRun.2 !! "L1" = Some None
     ∧ Db.issued adminRun.2 = []).
Proof. vm_compute. repeat split; reflexivity. Qed.

(** C2 (amended): let an admin-facing completion leave every step of the
    booking that is not named "certificate" completed (there is at least
    one).
    The answer is the updated step in every case.  If the booking has no
    certificate, the generator is called exactly once, with the latest
    [completedAt] among those steps (the current time if none has one) as
    install date; when it returns a handle, the handle becomes the
    booking's [certificateUrl] and the "certificate" step is completed;
    when it fails, nothing more is written: the completion stands and
    the booking keeps all steps done and no certificate.  If the booking
    has a certificate already, no completion calls the generator. *)
Theorem certificate_cascade
    (generate : Db.CertRequest → option string) (now : Z)
    (lead stepId : string) (st : Db.Store) (step : Db.LeadStep)
    (b : Db.Booking) :
  List.find
    (λ s, bool_decide (Db.id s = stepId) && bool_decide (Db.leadId s = lead))
    (Db.leadSteps st) = Some step →
  Db.bookings st !! lead = Some b →
  let st1 :=
    Workflow.activateNext lead stepId
      (Workflow.writeCompletion now stepId true st) in
  let steps := Workflow.stepsOfLeadByOrder lead (Db.leadSteps st1) in
  let nonCertSteps :=
    List.filter (λ s, negb (Workflow.isCertificate s)) steps in
  nonCertSteps ≠ [] →
  Forall (λ s, Db.completed s = true) nonCertSteps →
  let request :=
    Db.mkCertRequest lead (Db.fullName b) (Db.projectType b) (Db.sizedKW b)
      (default now (Workflow.latestCompletedAt nonCertSteps))
      (Workflow.locationOf b) in
  let response :=
    (Workflow.patchAdminStep generate now Db.admin lead stepId true st).1 in
  let st' :=
    (Workflow.patchAdminStep generate now Db.admin lead stepId true st).2 in
  response = Workflow.StepJson (Workflow.setCompletion true now step)
  ∧ (Workflow.hasCertificate b = false →
       Db.issued st' = Db.issued st ++ [request]
       ∧ (∀ s t, s ∈ nonCertSteps → Db.completedAt s = Some t →
            (t <= Db.installDate request)%Z)
       ∧ ((∃ s, s ∈ nonCertSteps
                ∧ Db.completedAt s = Some (Db.installDate request))
          ∨ (Db.installDate request = now
             ∧ Forall (λ s, Db.completedAt s = None) nonCertSteps))
       ∧ (∀ url, generate request = Some url →
            Db.certificateUrl <$> Db.bookings st' !! lead = Some (Some url)
            ∧ ∀ certStep,
                List.find Workflow.isCertificate steps = Some certStep →
                ∃ s, s ∈ Db.leadSteps st' ∧ Db.id s = Db.id certStep
                     ∧ Db.name s = "certificate"
                     ∧ Db.completed s = true)
       ∧ (generate request = None →
            Db.bookings st' = Db.bookings st
            ∧ Db.leadSteps st' = Db.leadSteps st1))
  ∧ (Workflow.hasCertificate b = true →
       Db.issued st' = Db.issued st ∧ Db.bookings st' = Db.bookings st)
  ∧ (∀ userType stepId' flag st0,
       (∀ b0, Db.bookings st0 !! lead = Some b0 →
              Workflow.hasCertificate b0 = true) →
       Db.issued
         (Workflow.patchAdminStep generate now userType lead stepId' flag
            st0).2
       = Db.issued st0).
Proof.
  intros Hfind Hlead st1 steps nonCertSteps Hnonempty Hall request response
    st'.
  destruct (activateNext_frame lead stepId
              (Workflow.writeCompletion now stepId true st))
    as [Hbook1 Hissued1].
  fold st1 in Hbook1, Hissued1. simpl in Hbook1, Hissued1.
  assert (Hpatch :
    Workflow.patchAdminStep generate now Db.admin lead stepId true st
    = (Workflow.StepJson (Workflow.setCompletion true now step),
       Workflow.certificateCascade generate now lead st1)).
  { unfold Workflow.patchAdminStep. simpl. by rewrite Hfind. }
  assert (Hguard :
    (0 <? length nonCertSteps) && forallb Db.completed nonCertSteps = true).
  { apply andb_true_iff. split.
    - apply Nat.ltb_lt. destruct nonCertSteps; [done|simpl; lia].
    - apply forallb_forall. intros s Hs.
      rewrite Forall_forall in Hall. apply Hall.
      by apply list_elem_of_In. }
  assert (Hcascade :
    Workflow.certificateCascade generate now lead st1
    = if negb (Workflow.hasCertificate b) then
        match generate request with
        | None => Db.setIssued (Db.issued st1 ++ [request]) st1
        | Some publicUrl =>
            let st2 :=
              Db.setBookings
                (alter (Workflow.setCertificate publicUrl now) lead
                   (Db.bookings st1))
                (Db.setIssued (Db.issued st1 ++ [request]) st1) in
            match List.find Workflow.isCertificate steps with
            | Some certStep =>
                if Db.completed certStep then st2
                else
                  Db.setLeadSteps
                    (Workflow.updateStep (Db.id certStep)
                       (Workflow.markCompleted now) (Db.leadSteps st2)) st2
            | None => st2
            end
        end
      else st1).
  { assert (Hl1 : Workflow.leadFindUnique lead st1 = Some b)
      by (unfold Workflow.leadFindUnique; by rewrite Hbook1).
    unfold Workflow.certificateCascade. rewrite Hl1.
    cbv zeta. fold steps. fold nonCertSteps.
    rewrite Hguard, andb_true_l. reflexivity. }
  unfold response, st'. rewrite Hpatch, Hcascade. simpl.
  split; [reflexivity|]. split; [|split].
  - intros Hno. rewrite Hno. simpl.
    pose proof (latestCompletedAt_spec nonCertSteps) as Hlatest.
    split; [|split; [|split; [|split]]].
    + destruct (generate request) as [url|]; simpl.
      * destruct (List.find Workflow.isCertificate steps) as [c|]; simpl;
          [destruct (Db.completed c); simpl|]; by rewrite Hissued1.
      * by rewrite Hissued1.
    + intros s t Hs Ht.
      destruct (Workflow.latestCompletedAt nonCertSteps) as [latest|];
        simpl.
      * destruct Hlatest as [_ Hmax]. by eapply Hmax.
      * rewrite Forall_forall in Hlatest. specialize (Hlatest s Hs).
        congruence.
    + destruct (Workflow.latestCompletedAt nonCertSteps) as [latest|];
        simpl.
      * left. by destruct Hlatest as [Hex _].
      * right. by split.
    + intros url ->. simpl. split.
      * assert (Hurl : Db.certificateUrl <$>
                  alter (Workflow.setCertificate url now) lead
                    (Db.bookings st1) !! lead = Some (Some url))
          by (by rewrite lookup_alter_eq, Hbook1, Hlead).
        destruct (List.find Workflow.isCertificate steps) as [c|]; simpl;
          [destruct (Db.completed c); simpl|]; exact Hurl.
      * intros certStep Hc. rewrite Hc.
        apply find_some in Hc as [Hin Hname].
        assert (Hin1 : certStep ∈ Db.leadSteps st1).
        { apply list_elem_of_In in Hin.
          apply sortByKey_elem_of in Hin. apply list_elem_of_In in Hin.
          apply filter_In in Hin as [Hin _].
          by apply list_elem_of_In. }
        apply bool_decide_eq_true in Hname.
        destruct (Db.completed certStep) eqn:Hdone; simpl.
        -- exists certStep. by repeat split.
        -- exists (Workflow.markCompleted now certStep).
           split; [|by repeat split].
           unfold Workflow.updateStep.
           apply (list_elem_of_fmap_2' _ _ certStep); [exact Hin1|].
           by destruct (decide (Db.id certStep = Db.id certStep)).
    + intros ->. simpl. by split.
  - intros Hyes. rewrite Hyes. simpl. by split.
  - intros userType stepId' flag st0 H0.
    by apply patchAdminStep_no_reissue.
Qed.

Lemma certificate_cascade_witness :
  let st' :=
    (Workflow.patchAdminStep Workflow.issueOk 5000 Db.admin "L1" "s2" true
       Workflow.sampleStore).2 in
  length (Db.issued st') = 1
  ∧ Db.installDate <$> Db.issued st' !! 0 = Some 5000%Z
  ∧ Db.certificateUrl <$> Db.bookings st' !! "L1"
    = Some (Some "https://certs/L1")
  ∧ Db.completed <$> Db.leadSteps st' !! 2 = Some true.
Proof.
  intros st'.
  destruct (certificate_cascade Workflow.issueOk 5000 "L1" "s2"
              Workflow.sampleStore Workflow.step2 Workflow.sampleBooking)
    as (_ & Hissue & _).
  - vm_compute. reflexivity.
  - vm_compute. reflexivity.
  - vm_compute. discriminate.
  - vm_compute. repeat constructor.
  - destruct Hissue as (Hlog & _ & _ & Hok & _); [reflexivity|].
    destruct (Hok "https://certs/L1") as [Hurl _]; [reflexivity|].
    fold st' in Hlog, Hurl.
    split; [rewrite Hlog; reflexivity|].
    split; [rewrite Hlog; vm_compute; reflexivity|].
    split; [exact Hurl|]. vm_compute. reflexivity.
Defined.

(** ** Scenarios of the specification, evaluated on the model *)

Section Scenarios.
Import JsNumber Db.

(** Settings 4%, 2%, 1%, 1% and G = 100000 with a three-level upline: the
    nominal amounts 2000, 1000, 1000 reach the cap exactly and are paid
    unscaled. *)
Example scenario_cap_reached :
  Commission.details
    (Commission.distributeCommissionForPurchase "D" (Fin 100000)
       Commission.freshStore).1
  = [Commission.mkDetail "C" 1 (Fin 2000);
     Commission.mkDetail "B" 2 (Fin 1000);
     Commission.mkDetail "A" 3 (Fin 1000)].
Proof. rewrite distribute_unfold. reflexivity. Qed.

(** A booking created on day 0 whose first step is still open shows 3 on
    day 3 and 5 on day 7; the second step shows 0 until the first is
    completed, and 1 on the day of that completion. *)
Example scenario_due_days :
  let tz := 19800000%Z in
  let day (n : Z) := (n * Workflow.msPerDay)%Z in
  let first := mkLeadStep "a" "L" "meeting" 1 false None None 0 in
  let second := mkLeadStep "b" "L" "survey" 2 false None None 0 in
  let firstDone :=
    mkLeadStep "a" "L" "meeting" 1 true (Some (day 3%Z)) None 0 in
  dueDays <$> Workflow.calculateDueDays tz [second; first] 0 (day 3%Z)
  = [3%Z; 0%Z]
  ∧ dueDays <$> Workflow.calculateDueDays tz [second; first] 0 (day 7%Z)
    = [5%Z; 0%Z]
  ∧ dueDays <$> Workflow.calculateDueDays tz [firstDone; second] 0
                  (day 3%Z + 3600000)%Z
    = [0%Z; 1%Z].
Proof. vm_compute. repeat split; reflexivity. Qed.

(** A customer without referrer: nothing is paid, and ledger and wallets
    stay empty. *)
Example scenario_no_upline :
  let '(result, st') :=
    Commission.distributeCommissionForPurchase "X" (Fin 100000)
      Commission.emptyStore in
  Commission.created result = 0
  ∧ Commission.details result = []
  ∧ commissions st' = []
  ∧ wallets st' = ∅.
Proof. rewrite distribute_unfold. repeat split; reflexivity. Qed.

(** When the generator throws, the completion of the last open step is
    answered normally; the booking is left with every non-certificate step
    done, no certificate, and one recorded call. *)
Example scenario_certificate_failure :
  let '(response, st') :=
    Workflow.patchAdminStep Workflow.issueFails 5000 admin "L1" "s2" true
      Workflow.sampleStore in
  response
  = Workflow.StepJson (mkLeadStep "s2" "L1" "survey" 2 true (Some 5000%Z) None 0)
  ∧ completed <$> leadSteps st' = [true; true; false]
  ∧ certificateUrl <$> bookings st' !! "L1" = Some None
  ∧ length (issued st') = 1.
Proof. vm_compute. repeat split; reflexivity. Qed.

(** The percent self-heal of the admin read stores the value computed
    with the fixed workflow size, which lies in [0, 100]. *)
Lemma selfHealPercent_fixed (lead : string) (st : Store) (b : Booking) :
  bookings st !! lead = Some b →
  let p :=
    Workflow.fixedPercent
      (Workflow.countCompleted (Workflow.stepsOfLead lead (leadSteps st))) in
  percent <$> bookings (Workflow.selfHealPercent lead st) !! lead = Some p
  ∧ (0 <= p <= 100)%Z.
Proof.
  intros Hb p. split.
  - unfold Workflow.selfHealPercent. rewrite Hb. fold p.
    destruct (decide (percent b = p)) as [Hp|Hp]; simpl.
    + by rewrite Hb, <- Hp.
    + by rewrite lookup_alter_eq, Hb.
  - unfold p, Workflow.fixedPercent, round. split; [|lia].
    apply Z.min_glb; [|lia].
    apply (Qfloor_resp_le 0).
    rewrite <- (Qplus_0_l 0). apply Qplus_le_compat; [|done].
    apply Qmult_le_0_compat; [|done].
    apply Qle_shift_div_l; [reflexivity|].
    rewrite Qmult_0_l. unfold Qle. simpl. lia.
Qed.

End Scenarios.

(** * Further properties of the code *)

(** ** Percent complete *)

Section PercentFacts.
Import JsNumber Db Workflow.

Lemma fixedPercent_small (c : nat) :
  c < 12 → (fixedPercent c < 100)%Z ∧ fixedPercent c = materializedPercent c 12.
Proof.
  intros Hc.
  do 12 (destruct c as [|c]; [vm_compute; split; reflexivity|]). lia.
Qed.

(** Up to twelve completed steps, the value computed on doubles is the
    value computed on the exact quotient. *)
Lemma fixedPercent_binary64 (c : nat) :
  c ≤ 12 → fixedPercent c = Z.min (materializedPercent c 12) 100.
Proof.
  intros Hc.
  do 13 (destruct c as [|c]; [vm_compute; reflexivity|]). lia.
Qed.

Lemma fixedPercent_full (c : nat) : 12 ≤ c → fixedPercent c = 100%Z.
Proof.
  intros Hc. unfold fixedPercent, round. apply Z.min_r.
  change 100%Z with (Qfloor (inject_Z 100)) at 1.
  apply Qfloor_resp_le.
  assert (H12 : (inject_Z 12 <= inject_Z (Z.of_nat c))%Q)
    by (rewrite <- Zle_Qle; lia).
  unfold Qle in *. simpl in *. lia.
Qed.

Lemma fixedPercent_mono (c1 c2 : nat) :
  c1 ≤ c2 → (fixedPercent c1 <= fixedPercent c2)%Z.
Proof.
  intros Hc. unfold fixedPercent, round.
  apply Z.min_le_compat_r, Qfloor_resp_le.
  assert (H : (inject_Z (Z.of_nat c1) <= inject_Z (Z.of_nat c2))%Q)
    by (rewrite <- Zle_Qle; lia).
  unfold Qle in *. simpl in *. lia.
Qed.

End PercentFacts.

(** X1: the percent computed with the fixed workflow size reads 100
    exactly when twelve or more steps are completed, and never decreases
    when more steps are completed. *)
Theorem fixedPercent_complete_iff (c1 c2 : nat) :
  (Workflow.fixedPercent c1 = 100%Z ↔ 12 ≤ c1)
  ∧ (c1 ≤ c2 → (Workflow.fixedPercent c1 <= Workflow.fixedPercent c2)%Z).
Proof.
  split; [|apply fixedPercent_mono]. split.
  - intros H. destruct (le_lt_dec 12 c1) as [|Hlt]; [done|].
    apply fixedPercent_small in Hlt as [Hlt _]. lia.
  - apply fixedPercent_full.
Qed.

(** ** Creation of the steps from the template *)

Section TemplateFacts.
Import Db Workflow Template.
Variable newStepId : string → nat → string.
Variable defaultDueDays : Z.

Lemma stepsOfLead_imap_same {A} (f : nat → A → LeadStep) (lead : string)
    (l : list A) :
  (∀ i x, leadId (f i x) = lead) →
  stepsOfLead lead (imap f l) = imap f l.
Proof.
  unfold stepsOfLead. revert f.
  induction l as [|x l IH]; intros f Hf; simpl; [done|].
  rewrite bool_decide_eq_true_2 by apply Hf.
  f_equal. apply IH. intros i y. apply Hf.
Qed.

Lemma templateRows_sorted (lead : string) :
  StronglySorted (keyLe order)
    (imap (templateRow newStepId defaultDueDays lead) DEFAULT_STEP_NAMES).
Proof.
  unfold DEFAULT_STEP_NAMES. simpl.
  repeat (constructor; [|repeat constructor; unfold keyLe; simpl; lia]).
  constructor.
Qed.

Lemma stepsOfLeadByOrder_nil (lead : string) (rows : list LeadStep) :
  stepsOfLeadByOrder lead rows = [] ↔ stepsOfLead lead rows = [].
Proof.
  unfold stepsOfLeadByOrder. split; intros H; [|by rewrite H].
  apply Permutation_nil_r. rewrite <- H. by rewrite sortByKey_perm.
Qed.

Lemma stepsOfLead_app_template (lead : string) (rows : list LeadStep) :
  stepsOfLead lead rows = [] →
  let template :=
    imap (templateRow newStepId defaultDueDays lead) DEFAULT_STEP_NAMES in
  stepsOfLead lead (rows ++ template) = template
  ∧ stepsOfLeadByOrder lead (rows ++ template) = template.
Proof.
  intros Hnone template.
  assert (H : stepsOfLead lead (rows ++ template) = template).
  { unfold stepsOfLead. rewrite List.filter_app.
    fold (stepsOfLead lead rows). rewrite Hnone, app_nil_l.
    by apply stepsOfLead_imap_same. }
  split; [exact H|].
  unfold stepsOfLeadByOrder. rewrite H.
  apply sortByKey_id, templateRows_sorted.
Qed.

(** With no row for the booking, the listing appends the template rows
    and returns them in template order. *)
Lemma listOrInit_fresh (lead : string) (st : Store) :
  stepsOfLead lead (leadSteps st) = [] →
  listOrInit newStepId defaultDueDays lead st
  = (StepsJson
       (imap (templateRow newStepId defaultDueDays lead) DEFAULT_STEP_NAMES),
     setLeadSteps
       (leadSteps st
        ++ imap (templateRow newStepId defaultDueDays lead) DEFAULT_STEP_NAMES)
       st).
Proof.
  intros Hnone. unfold listOrInit.
  rewrite (proj2 (stepsOfLeadByOrder_nil lead (leadSteps st)) Hnone).
  destruct (decide (length (@nil LeadStep) = 0)); [|done].
  cbn [leadSteps setLeadSteps].
  by rewrite (proj2 (stepsOfLead_app_template lead _ Hnone)).
Qed.

(** With rows present, the listing writes nothing. *)
Lemma listOrInit_present (lead : string) (st : Store) :
  stepsOfLead lead (leadSteps st) ≠ [] →
  listOrInit newStepId defaultDueDays lead st
  = (StepsJson (stepsOfLeadByOrder lead (leadSteps st)), st).
Proof.
  intros Hsome. unfold listOrInit.
  destruct (decide (length (stepsOfLeadByOrder lead (leadSteps st)) = 0))
    as [Hlen|]; [|done].
  apply length_zero_iff_nil, stepsOfLeadByOrder_nil in Hlen. done.
Qed.

End TemplateFacts.

(** X2: the first listing of the steps of a booking that has none creates
    the twelve template rows, in template order with orders 1 to 12, none
    completed and the "certificate" step last, and leaves the rows of
    other bookings in place; listing again, as admin or as the owning
    customer, creates nothing and returns the same twelve rows. *)
Theorem steps_created_once
    (newStepId : string → nat → string) (defaultDueDays : Z)
    (lead : string) (st : Db.Store) (b : Db.Booking) :
  Db.bookings st !! lead = Some b →
  Workflow.stepsOfLead lead (Db.leadSteps st) = [] →
  let rows :=
    imap (Template.templateRow newStepId defaultDueDays lead)
      Template.DEFAULT_STEP_NAMES in
  let first :=
    Template.getAdminLeadSteps newStepId defaultDueDays Db.admin lead st in
  first.1 = Template.StepsJson rows
  ∧ Db.leadSteps first.2 = Db.leadSteps st ++ rows
  ∧ Db.name <$> rows = Template.DEFAULT_STEP_NAMES
  ∧ Db.order <$> rows = [1; 2; 3; 4; 5; 6; 7; 8; 9; 10; 11; 12]%Z
  ∧ Forall (λ s, Db.completed s = false ∧ Db.leadId s = lead) rows
  ∧ Db.name <$> last rows = Some "certificate"
  ∧ Template.getAdminLeadSteps newStepId defaultDueDays Db.admin lead first.2
    = (Template.StepsJson rows, first.2)
  ∧ (∀ sub, Db.bookingCustomerId b = Some sub →
       Template.getCustomerLeadSteps newStepId defaultDueDays Db.customer sub
         lead first.2
       = (Template.StepsJson rows, first.2)).
Proof.
  intros Hb Hnone rows first.
  assert (Hfirst : first
    = (Template.StepsJson rows,
       Db.setLeadSteps (Db.leadSteps st ++ rows) st)).
  { unfold first, Template.getAdminLeadSteps, Workflow.leadFindUnique.
    simpl. rewrite Hb. by apply listOrInit_fresh. }
  rewrite Hfirst. simpl.
  assert (Hagain :
    Template.listOrInit newStepId defaultDueDays lead
      (Db.setLeadSteps (Db.leadSteps st ++ rows) st)
    = (Template.StepsJson rows,
       Db.setLeadSteps (Db.leadSteps st ++ rows) st)).
  { destruct (stepsOfLead_app_template newStepId defaultDueDays lead
                (Db.leadSteps st) Hnone) as [Hflt Hsort].
    rewrite listOrInit_present; cbn [Db.leadSteps Db.setLeadSteps].
    - fold rows in Hsort. by rewrite Hsort.
    - fold rows in Hflt. rewrite Hflt. done. }
  repeat split; try reflexivity.
  - unfold rows. simpl. repeat constructor.
  - unfold Template.getAdminLeadSteps, Workflow.leadFindUnique. simpl.
    by rewrite Hb.
  - intros sub Hsub. unfold Template.getCustomerLeadSteps. simpl.
    rewrite Hb. by destruct (decide (Db.bookingCustomerId b = Some sub)).
Qed.

Lemma steps_created_once_witness :
  let first :=
    Template.getAdminLeadSteps Template.sampleStepId 0 Db.admin "L2"
      Template.bareStore in
  length (Db.leadSteps first.2) = 12
  ∧ Template.getAdminLeadSteps Template.sampleStepId 0 Db.admin "L2" first.2
    = (first.1, first.2).
Proof.
  intros first.
  destruct (steps_created_once Template.sampleStepId 0 "L2"
              Template.bareStore Workflow.sampleBooking eq_refl eq_refl)
    as (H1 & H2 & _ & _ & _ & _ & H3 & _).
  fold first in H1, H2, H3.
  split; [by rewrite H2|]. by rewrite H3, H1.
Defined.

Section StaffPercentFacts.
Import Db Workflow.

Lemma stepsOfLead_updateStep lead stepId f rows :
  (∀ s, leadId (f s) = leadId s) →
  stepsOfLead lead (updateStep stepId f rows)
  = updateStep stepId f (stepsOfLead lead rows).
Proof.
  intros Hf. unfold stepsOfLead, updateStep.
  induction rows as [|s rows IH]; [done|].
  rewrite fmap_cons. cbn [List.filter].
  assert (Hl : leadId (if decide (id s = stepId) then f s else s) = leadId s)
    by (destruct (decide (id s = stepId)); [apply Hf|done]).
  rewrite Hl. destruct (bool_decide (leadId s = lead));
    [rewrite fmap_cons|]; by rewrite IH.
Qed.

Lemma countCompleted_le (rows : list LeadStep) :
  countCompleted rows ≤ length rows.
Proof. unfold countCompleted. apply filter_length_le. Qed.

(** The counts that a successful staff completion reports are those of
    the rows of the booking after the write. *)
Lemma postStaffCompleteStep_counts now userType sub stepId notes st s c t p st' :
  postStaffCompleteStep now userType sub stepId notes st
  = (ProgressJson s c t p, st') →
  c = countCompleted (stepsOfLead (leadId s) (leadSteps st'))
  ∧ t = length (stepsOfLead (leadId s) (leadSteps st'))
  ∧ t = length (stepsOfLead (leadId s) (leadSteps st))
  ∧ p = materializedPercent c t
  ∧ ∃ b, bookings st !! leadId s = Some b
         ∧ bookings st' !! leadId s = Some (setPercent p b).
Proof.
  unfold postStaffCompleteStep. intros H.
  destruct (decide (userType = staff)); [|done].
  destruct notes as [text|]; [|done].
  destruct (truthy text && truthy (trim text)); [|done].
  destruct (List.find _ (leadSteps st)) as [step|] eqn:Hfind; [|done].
  destruct (bookings st !! leadId step) as [lead|] eqn:Hlead; [|done].
  destruct (decide (assignedStaffId lead = Some sub)); [|done].
  destruct (completed step) eqn:Hc; [done|].
  injection H as <- <- <- <- <-. simpl.
  repeat split; try reflexivity.
  - rewrite stepsOfLead_updateStep by done. by rewrite updateStep_length.
  - exists lead. split; [done|]. by rewrite lookup_alter_eq, Hlead.
Qed.

End StaffPercentFacts.

(** X3: when the booking has exactly twelve rows, a successful
    staff-facing completion stores the percent of the fixed workflow size,
    so the percent self-heal of the next admin read finds nothing to
    repair. *)
Theorem staff_percent_full_template
    (now : Z) (userType : Db.UserType) (sub stepId : string)
    (notes : option string) (st st' : Db.Store) (s : Db.LeadStep)
    (c t : nat) (p : Z) :
  Workflow.postStaffCompleteStep now userType sub stepId notes st
  = (Workflow.ProgressJson s c t p, st') →
  length (Workflow.stepsOfLead (Db.leadId s) (Db.leadSteps st)) = 12 →
  t = 12 ∧ p = Workflow.fixedPercent c
  ∧ Workflow.selfHealPercent (Db.leadId s) st' = st'.
Proof.
  intros H Hlen.
  apply postStaffCompleteStep_counts in H
    as (Hc & Ht & Ht0 & Hp & b & Hb & Hb').
  assert (Ht12 : t = 12) by lia.
  assert (Hp' : p = Workflow.fixedPercent c).
  { pose proof (countCompleted_le
      (Workflow.stepsOfLead (Db.leadId s) (Db.leadSteps st'))) as Hle.
    rewrite <- Hc, <- Ht, Ht12 in Hle. rewrite Hp, Ht12.
    destruct (decide (c = 12)) as [->|Hne]; [by vm_compute|].
    symmetry. apply fixedPercent_small. lia. }
  split; [exact Ht12|]. split; [exact Hp'|].
  unfold Workflow.selfHealPercent. rewrite Hb'. rewrite <- Hc. simpl.
  by destruct (decide (p = Workflow.fixedPercent c)).
Qed.

Lemma staff_percent_full_template_witness :
  let st :=
    (Template.getAdminLeadSteps Template.sampleStepId 0 Db.admin "L2"
       Template.bareStore).2 in
  let r :=
    Workflow.postStaffCompleteStep 5000 Db.staff "S1" "L2-meeting"
      (Some "done") st in
  Db.percent <$> Db.bookings r.2 !! "L2" = Some 8%Z
  ∧ Workflow.selfHealPercent "L2" r.2 = r.2.
Proof.
  intros st r.
  destruct (staff_percent_full_template 5000 Db.staff "S1" "L2-meeting"
              (Some "done") st r.2
              (Workflow.completeWithNotes 5000 "done"
                 (Template.templateRow Template.sampleStepId 0 "L2" 0
                    "meeting"))
              1 12 8) as (_ & _ & Hheal).
  - vm_compute. reflexivity.
  - vm_compute. reflexivity.
  - split; [vm_compute; reflexivity|exact Hheal].
Defined.

(** ** Partner sign-in *)

Section PartnerFacts.
Import PartnerAuth.
Variable newPartnerId : string → string.

(** A verification that does not sign in leaves the partner table alone
    and changes at most the attempt counter of the mobile. *)
Lemma verifyOtp_failure_frame now mobile otp st status error st' :
  verifyOtp newPartnerId now mobile otp st = (Failure status error, st') →
  partners st' = partners st
  ∧ ∀ k r, otpStore st' !! k = Some r →
      ∃ r0, otpStore st !! k = Some r0 ∧ code r = code r0
            ∧ expiresAt r = expiresAt r0
            ∧ attempts r0 ≤ attempts r ≤ S (attempts r0).
Proof.
  unfold verifyOtp. intros H.
  assert (Hsame : ∀ k r, otpStore st !! k = Some r →
    ∃ r0, otpStore st !! k = Some r0 ∧ code r = code r0
          ∧ expiresAt r = expiresAt r0
          ∧ attempts r0 ≤ attempts r ≤ S (attempts r0))
    by (intros k r Hr; exists r; repeat split; [done|lia|lia]).
  destruct mobile as [m|]; [|simplify_eq; by split].
  destruct otp as [o|]; [|simplify_eq; by split].
  destruct (truthy m && truthy o); [|simplify_eq; by split].
  destruct (otpStore st !! ("+91" +:+ m)) as [r0|] eqn:Hr0;
    [|simplify_eq; by split].
  destruct ((expiresAt r0 <? now)%Z || (OTP_MAX_ATTEMPTS <=? attempts r0));
    [simplify_eq; by split|].
  destruct (decide (code r0 = o)); [done|].
  simplify_eq. simpl. split; [done|].
  intros k r Hr. destruct (decide (k = "+91" +:+ m)) as [->|Hne].
  - rewrite lookup_insert_eq in Hr. injection Hr as <-.
    exists r0. simpl. repeat split; [done|lia|lia].
  - rewrite lookup_insert_ne in Hr by done. by apply Hsame.
Qed.

Lemma verifyOtp_locked now m o st rec :
  truthy m = true → truthy o = true →
  otpStore st !! ("+91" +:+ m) = Some rec → 5 ≤ attempts rec →
  verifyOtp newPartnerId now (Some m) (Some o) st
  = (Failure 401 "OTP is invalid or has expired", st).
Proof.
  intros Hm Ho Hrec H5. unfold verifyOtp. rewrite Hm, Ho, Hrec. cbn [andb].
  assert (Hlock : (OTP_MAX_ATTEMPTS <=? attempts rec) = true)
    by (apply Nat.leb_le; unfold OTP_MAX_ATTEMPTS; lia).
  by rewrite Hlock, orb_true_r.
Qed.

Lemma verifyOtp_wrong now m o st rec :
  truthy m = true → truthy o = true →
  otpStore st !! ("+91" +:+ m) = Some rec →
  (now <= expiresAt rec)%Z → attempts rec < 5 → o ≠ code rec →
  verifyOtp newPartnerId now (Some m) (Some o) st
  = (Failure 401 "Incorrect OTP",
     mkAuthState
       (<["+91" +:+ m :=
            mkOtpRecord (code rec) (expiresAt rec) (S (attempts rec))]>
          (otpStore st))
       (partners st)).
Proof.
  intros Hm Ho Hrec Hexp Hatt Hne.
  unfold verifyOtp. rewrite Hm, Ho, Hrec. cbn [andb].
  assert (Hlock : (OTP_MAX_ATTEMPTS <=? attempts rec) = false)
    by (apply Nat.leb_gt; unfold OTP_MAX_ATTEMPTS; lia).
  assert (Hexp' : (expiresAt rec <? now)%Z = false) by (apply Z.ltb_ge; lia).
  rewrite Hexp', Hlock. cbn [orb].
  destruct (decide (code rec = o)); [congruence|done].
Qed.

End PartnerFacts.

(** X4: a verification request with a mobile and a code signs the partner
    in exactly when a code is on record for the mobile, it has not
    expired (the instant [expiresAt] itself still counts), fewer than
    five wrong attempts were made, and the code matches.  Signing in
    consumes the code: any later verification for the mobile, with any
    code at any time, is refused and changes nothing. *)
Theorem verifyOtp_once
    (newPartnerId : string → string) (now : Z) (m o : string)
    (st : PartnerAuth.AuthState) :
  truthy m = true → truthy o = true →
  let r := PartnerAuth.verifyOtp newPartnerId now (Some m) (Some o) st in
  ((∃ p, r.1 = PartnerAuth.SignedIn p)
   ↔ ∃ rec, PartnerAuth.otpStore st !! ("+91" +:+ m) = Some rec
            ∧ (now <= PartnerAuth.expiresAt rec)%Z
            ∧ PartnerAuth.attempts rec < 5
            ∧ PartnerAuth.code rec = o)
  ∧ ((∃ p, r.1 = PartnerAuth.SignedIn p) →
     ∀ later o',
       PartnerAuth.verifyOtp newPartnerId later (Some m) o' r.2
       = (PartnerAuth.Failure
            (match o' with
             | Some x => if truthy x then 401 else 400
             | None => 400
             end)
            (match o' with
             | Some x =>
                 if truthy x then "OTP is invalid or has expired"
                 else "Mobile and OTP are required"
             | None => "Mobile and OTP are required"
             end),
          r.2)).
Proof.
  intros Hm Ho r. unfold r, PartnerAuth.verifyOtp. rewrite Hm, Ho.
  cbn [andb].
  destruct (PartnerAuth.otpStore st !! ("+91" +:+ m)) as [rec|] eqn:Hrec.
  - destruct (PartnerAuth.expiresAt rec <? now)%Z eqn:Hexp; cbn [orb fst snd].
    { apply Z.ltb_lt in Hexp. split.
      - split; [intros [p Hp]; discriminate Hp|].
        intros (rec' & Heq & Hle & _). simplify_eq. lia.
      - intros [p Hp]; discriminate Hp. }
    apply Z.ltb_ge in Hexp.
    destruct (PartnerAuth.OTP_MAX_ATTEMPTS <=? PartnerAuth.attempts rec)
      eqn:Hatt; cbn [fst snd].
    { apply Nat.leb_le in Hatt. unfold PartnerAuth.OTP_MAX_ATTEMPTS in Hatt.
      split.
      - split; [intros [p Hp]; discriminate Hp|].
        intros (rec' & Heq & _ & Hlt & _). simplify_eq. lia.
      - intros [p Hp]; discriminate Hp. }
    apply Nat.leb_gt in Hatt. unfold PartnerAuth.OTP_MAX_ATTEMPTS in Hatt.
    destruct (decide (PartnerAuth.code rec = o)) as [Hcode|Hcode];
      cbn [fst snd].
    + split.
      * split; [|by eauto]. intros _. exists rec. by repeat split.
      * intros _ later o'.
        destruct o' as [x|]; [|done].
        destruct (truthy x); [|done]. cbn [PartnerAuth.otpStore].
        by rewrite lookup_delete_eq.
    + split.
      * split; [intros [p Hp]; discriminate Hp|].
        intros (rec' & Heq & _ & _ & Hc). by simplify_eq.
      * intros [p Hp]; discriminate Hp.
  - cbn [fst snd]. split.
    + split; [intros [p Hp]; discriminate Hp|].
      intros (rec' & Hnone & _). discriminate Hnone.
    + intros [p Hp]; discriminate Hp.
Qed.

Lemma verifyOtp_once_witness :
  let st :=
    (PartnerAuth.requestOtp 1000 "123456" (Some "9876543210")
       PartnerAuth.noAuth).2 in
  let r :=
    PartnerAuth.verifyOtp PartnerAuth.samplePartnerId 2000
      (Some "9876543210") (Some "123456") st in
  (∃ p, r.1 = PartnerAuth.SignedIn p)
  ∧ PartnerAuth.verifyOtp PartnerAuth.samplePartnerId 3000
      (Some "9876543210") (Some "123456") r.2
    = (PartnerAuth.Failure 401 "OTP is invalid or has expired", r.2).
Proof.
  intros st r.
  destruct (verifyOtp_once PartnerAuth.samplePartnerId 2000 "9876543210"
              "123456" st eq_refl eq_refl) as [Hiff Hreplay].
  fold r in Hiff, Hreplay.
  assert (Hin : ∃ p, r.1 = PartnerAuth.SignedIn p).
  { apply Hiff. eexists. split; [vm_compute; reflexivity|].
    simpl. repeat split; [vm_compute; discriminate|lia]. }
  split; [exact Hin|]. exact (Hreplay Hin 3000%Z (Some "123456")).
Defined.

(** X5: wrong codes are counted up to five, after which the mobile is
    locked: starting from a record with [a] failed attempts, [n] wrong
    guesses before expiry leave [min (a + n) 5] attempts on record and
    never touch the partner table, and once five are reached even the
    right code is refused. *)
Theorem verifyOtp_lockout
    (newPartnerId : string → string) (now : Z) (m : string)
    (guesses : list string) (st : PartnerAuth.AuthState)
    (rec : PartnerAuth.OtpRecord) :
  truthy m = true →
  PartnerAuth.otpStore st !! ("+91" +:+ m) = Some rec →
  (now <= PartnerAuth.expiresAt rec)%Z →
  PartnerAuth.attempts rec ≤ 5 →
  Forall (λ g, truthy g = true ∧ g ≠ PartnerAuth.code rec) guesses →
  let st' := PartnerAuth.verifyAll newPartnerId now m guesses st in
  PartnerAuth.otpStore st' !! ("+91" +:+ m)
  = Some (PartnerAuth.mkOtpRecord (PartnerAuth.code rec)
            (PartnerAuth.expiresAt rec)
            (min (PartnerAuth.attempts rec + length guesses) 5))
  ∧ PartnerAuth.partners st' = PartnerAuth.partners st
  ∧ (5 ≤ PartnerAuth.attempts rec + length guesses →
     truthy (PartnerAuth.code rec) = true →
     PartnerAuth.verifyOtp newPartnerId now (Some m)
       (Some (PartnerAuth.code rec)) st'
     = (PartnerAuth.Failure 401 "OTP is invalid or has expired", st')).
Proof.
  intros Hm. revert st rec.
  induction guesses as [|g guesses IH]; intros st rec Hrec Hexp Hatt Hall st'.
  - unfold st', PartnerAuth.verifyAll. cbn [foldl length].
    rewrite Nat.add_0_r, Nat.min_l by done.
    split; [by destruct rec|]. split; [done|].
    intros H5 Hcode. by eapply verifyOtp_locked.
  - inversion Hall as [|? ? [Hg Hne] Hall']; subst.
    unfold st', PartnerAuth.verifyAll. cbn [foldl length].
    fold (PartnerAuth.verifyAll newPartnerId now m guesses).
    destruct (decide (PartnerAuth.attempts rec = 5)) as [H5|H5].
    + rewrite (verifyOtp_locked newPartnerId now m g st rec) by (done || lia).
      cbn [snd].
      destruct (IH st rec Hrec Hexp Hatt Hall') as (H1 & H2 & H3).
      unfold PartnerAuth.verifyAll in H1, H2, H3.
      split; [|split].
      * rewrite H1. f_equal. f_equal. lia.
      * exact H2.
      * intros _ Hcode. apply H3; [lia|done].
    + rewrite (verifyOtp_wrong newPartnerId now m g st rec) by (done || lia).
      cbn [snd].
      set (rec' := PartnerAuth.mkOtpRecord (PartnerAuth.code rec)
                     (PartnerAuth.expiresAt rec)
                     (S (PartnerAuth.attempts rec))).
      destruct (IH (PartnerAuth.mkAuthState
                      (<["+91" +:+ m := rec']> (PartnerAuth.otpStore st))
                      (PartnerAuth.partners st)) rec')
        as (H1 & H2 & H3).
      * cbn [PartnerAuth.otpStore]. apply lookup_insert_eq.
      * exact Hexp.
      * cbn [rec' PartnerAuth.attempts]. lia.
      * exact Hall'.
      * cbn [rec' PartnerAuth.code PartnerAuth.expiresAt
               PartnerAuth.attempts PartnerAuth.partners] in H1, H2, H3.
        unfold PartnerAuth.verifyAll in H1, H2, H3.
        split; [|split].
        -- rewrite H1. f_equal. f_equal. lia.
        -- exact H2.
        -- intros Hfive Hcode. apply H3; [lia|done].
Qed.

Lemma verifyOtp_lockout_witness :
  let st :=
    (PartnerAuth.requestOtp 1000 "123456" (Some "9876543210")
       PartnerAuth.noAuth).2 in
  let st' :=
    PartnerAuth.verifyAll PartnerAuth.samplePartnerId 2000 "9876543210"
      ["000000"; "111111"; "222222"; "333333"; "444444"] st in
  PartnerAuth.verifyOtp PartnerAuth.samplePartnerId 2000 (Some "9876543210")
    (Some "123456") st'
  = (PartnerAuth.Failure 401 "OTP is invalid or has expired", st').
Proof.
  intros st st'.
  destruct (verifyOtp_lockout PartnerAuth.samplePartnerId 2000 "9876543210"
              ["000000"; "111111"; "222222"; "333333"; "444444"] st
              (PartnerAuth.mkOtpRecord "123456" 301000 0))
    as (_ & _ & Hlock).
  - reflexivity.
  - vm_compute. reflexivity.
  - simpl. lia.
  - simpl. lia.
  - repeat constructor; discriminate.
  - apply Hlock; [simpl; lia|reflexivity].
Defined.

(** X6: a code requested for a ten-digit mobile signs that mobile in when
    presented up to five minutes later, whatever was on record before
    (an earlier lock is lifted by the new request).  The partner of the
    mobile is reused when one exists and created otherwise; the code is
    removed and the partners of other mobiles are untouched. *)
Theorem requestOtp_then_verify
    (newPartnerId : string → string) (now later : Z) (otp m : string)
    (st : PartnerAuth.AuthState) :
  PartnerAuth.isTenDigits m = true → truthy otp = true →
  (later <= now + PartnerAuth.OTP_TTL_MS)%Z →
  let key := "+91" +:+ m in
  let st1 := (PartnerAuth.requestOtp now otp (Some m) st).2 in
  let r := PartnerAuth.verifyOtp newPartnerId later (Some m) (Some otp) st1 in
  let p :=
    default (PartnerAuth.mkPartner (newPartnerId key) key "New Partner")
      (PartnerAuth.partners st !! key) in
  r.1 = PartnerAuth.SignedIn p
  ∧ PartnerAuth.partners r.2 !! key = Some p
  ∧ PartnerAuth.otpStore r.2 !! key = None
  ∧ (∀ k, k ≠ key →
       PartnerAuth.partners r.2 !! k = PartnerAuth.partners st !! k
       ∧ PartnerAuth.otpStore r.2 !! k = PartnerAuth.otpStore st !! k).
Proof.
  intros Hten Hotp Hlater key st1 r p.
  assert (Hm : truthy m = true).
  { destruct m; [discriminate Hten|done]. }
  assert (Hst1 : st1
    = PartnerAuth.mkAuthState
        (<[key := PartnerAuth.mkOtpRecord otp (now + PartnerAuth.OTP_TTL_MS) 0]>
           (PartnerAuth.otpStore st))
        (PartnerAuth.partners st)).
  { unfold st1, PartnerAuth.requestOtp. by rewrite Hm, Hten. }
  assert (Hr : r
    = (PartnerAuth.SignedIn p,
       PartnerAuth.mkAuthState (delete key (PartnerAuth.otpStore st1))
         (<[key := p]> (PartnerAuth.partners st1)))).
  { unfold r, PartnerAuth.verifyOtp. rewrite Hm, Hotp. cbn [andb].
    fold key. rewrite Hst1. cbn [PartnerAuth.otpStore PartnerAuth.partners].
    rewrite lookup_insert_eq. cbn [PartnerAuth.expiresAt PartnerAuth.attempts
                                   PartnerAuth.code].
    assert (Hexp : (now + PartnerAuth.OTP_TTL_MS <? later)%Z = false)
      by (apply Z.ltb_ge; lia).
    rewrite Hexp. cbn [orb Nat.leb PartnerAuth.OTP_MAX_ATTEMPTS].
    destruct (decide (otp = otp)); [|done].
    unfold p. by destruct (PartnerAuth.partners st !! key). }
  rewrite Hr, Hst1. cbn [fst snd PartnerAuth.otpStore PartnerAuth.partners].
  split; [done|]. split; [apply lookup_insert_eq|].
  split; [apply lookup_delete_eq|].
  intros k Hk. split.
  - by rewrite lookup_insert_ne.
  - rewrite lookup_delete_ne by done. by rewrite lookup_insert_ne.
Qed.

Lemma requestOtp_then_verify_witness :
  let st1 :=
    (PartnerAuth.requestOtp 1000 "123456" (Some "9876543210")
       PartnerAuth.noAuth).2 in
  (PartnerAuth.verifyOtp PartnerAuth.samplePartnerId 301000
     (Some "9876543210") (Some "123456") st1).1
  = PartnerAuth.SignedIn
      (PartnerAuth.mkPartner "partner+919876543210" "+919876543210"
         "New Partner").
Proof.
  intros st1.
  destruct (requestOtp_then_verify PartnerAuth.samplePartnerId 1000 301000
              "123456" "9876543210" PartnerAuth.noAuth)
    as (H & _); [reflexivity|reflexivity|vm_compute; discriminate|].
  exact H.
Defined.

(** ** Repeated distribution and wallet credits *)

Section CreditFacts.
Import JsNumber Db Commission.

Lemma getMlSettings_present st settings :
  mlSettings st = Some settings → getMlSettings st = (settings, st).
Proof. unfold getMlSettings. by intros ->. Qed.

Lemma creditedPairs_recipients sourceId intended amounts :
  customerId <$> (rowOf sourceId <$> creditedPairs intended amounts)
  `sublist_of` uplineId <$> intended.
Proof.
  unfold creditedPairs. revert amounts.
  induction intended as [|x intended IH]; intros [|a amounts]; simpl;
    try apply sublist_nil_l.
  destruct (le a (Fin 0)); simpl.
  - apply sublist_cons, IH.
  - apply sublist_skip, IH.
Qed.

Lemma intendedOf_recipients settings chain :
  uplineId <$> intendedOf settings chain = Upline.id <$> chain.
Proof.
  unfold intendedOf. apply list_eq. intros i.
  rewrite !list_lookup_fmap, list_lookup_imap.
  by destruct (chain !! i).
Qed.

End CreditFacts.

(** X7: distribution is not idempotent.  A second run for the same
    purchaser and amount returns the same result and appends the rows of
    the first run once more, and every wallet is credited with them
    again.  So when the first run wrote a row, the second run changes the
    store again: the ledger grows by the same rows and, the recipients
    being distinct, the recipient of the row holds the old balance plus
    the amount after the first run and plus twice the amount after the
    second. *)
Theorem distribute_twice_credits_twice
    (sourceId : string) (gross : JsNumber.number) (st : Db.Store)
    (r : Db.Commission) :
  let first := Commission.distributeCommissionForPurchase sourceId gross st in
  let second :=
    Commission.distributeCommissionForPurchase sourceId gross first.2 in
  let rows := drop (length (Db.commissions st)) (Db.commissions first.2) in
  let credit (old : option JsNumber.number) :=
    match old with
    | Some b => JsNumber.add b (Db.amount r)
    | None => Db.amount r
    end in
  r ∈ rows →
  second.1 = first.1
  ∧ Db.commissions first.2 = Db.commissions st ++ rows
  ∧ Db.commissions second.2 = Db.commissions st ++ rows ++ rows
  ∧ length (Db.commissions first.2) < length (Db.commissions second.2)
  ∧ (∀ k, Db.wallets second.2 !! k
          = Commission.balanceAfter rows k
              (Commission.balanceAfter rows k (Db.wallets st !! k)))
  ∧ (NoDup (Upline.id <$> Upline.getUplineChain (Db.customers st) sourceId 3)
     → Db.wallets first.2 !! Db.customerId r
       = Some (credit (Db.wallets st !! Db.customerId r))
       ∧ Db.wallets second.2 !! Db.customerId r
         = Some (JsNumber.add (credit (Db.wallets st !! Db.customerId r))
                   (Db.amount r)))
  ∧ second.2 ≠ first.2.
Proof.
  intros first second rows credit Hr.
  set (settings := (Commission.getMlSettings st).1).
  set (chain := Upline.getUplineChain (Db.customers st) sourceId 3).
  set (intended := Commission.intendedOf settings chain).
  set (amounts :=
    Commission.scaleAmounts (Commission.capOf settings gross)
      (Commission.rawAmounts intended gross)).
  set (rows0 :=
    Commission.rowOf sourceId <$> Commission.creditedPairs intended amounts).
  assert (Hfirst : first
    = (Commission.mkDistribution (length rows0)
         (Commission.sumAmounts amounts)
         (Commission.detailOf <$> Commission.creditedPairs intended amounts),
       Db.mkStore (Db.customers st)
         (fold_left Commission.creditRow rows0 (Db.wallets st))
         (Db.commissions st ++ rows0) (Some settings) (Db.bookings st)
         (Db.leadSteps st) (Db.issued st)))
    by (unfold first; by rewrite distribute_unfold).
  assert (Hsecond : second
    = (Commission.mkDistribution (length rows0)
         (Commission.sumAmounts amounts)
         (Commission.detailOf <$> Commission.creditedPairs intended amounts),
       Db.mkStore (Db.customers st)
         (fold_left Commission.creditRow rows0
            (fold_left Commission.creditRow rows0 (Db.wallets st)))
         ((Db.commissions st ++ rows0) ++ rows0) (Some settings)
         (Db.bookings st) (Db.leadSteps st) (Db.issued st)))
    by (unfold second; rewrite Hfirst; by rewrite distribute_unfold).
  assert (Hrows : rows = rows0).
  { unfold rows. rewrite Hfirst. cbn [snd Db.commissions].
    by rewrite drop_app_length. }
  rewrite Hrows in Hr |- *. clear Hrows rows.
  assert (Hpos : 0 < length rows0).
  { destruct rows0; [by apply elem_of_nil in Hr|simpl; lia]. }
  rewrite Hsecond, Hfirst.
  cbn [fst snd Db.commissions Db.wallets].
  split; [reflexivity|]. split; [reflexivity|].
  split; [by rewrite <- app_assoc|].
  split; [rewrite !length_app; lia|].
  split; [intros k; by rewrite !fold_credit_balance|].
  split.
  - intros Hnd.
    assert (Hnd0 : NoDup (Db.customerId <$> rows0)).
    { eapply sublist_NoDup; [exact Hnd|]. unfold rows0.
      etrans; [apply creditedPairs_recipients|].
      unfold intended. by rewrite intendedOf_recipients. }
    rewrite (fold_credit_one rows0
               (fold_left Commission.creditRow rows0 (Db.wallets st))
               r Hnd0 Hr).
    by rewrite (fold_credit_one rows0 (Db.wallets st) r Hnd0 Hr).
  - intros Heq. apply (f_equal (λ s, length (Db.commissions s))) in Heq.
    cbn [Db.commissions] in Heq. rewrite !length_app in Heq. lia.
Qed.

Lemma distribute_twice_credits_twice_witness :
  let first :=
    Commission.distributeCommissionForPurchase "D" (JsNumber.Fin 100)
      Commission.freshStore in
  let second :=
    Commission.distributeCommissionForPurchase "D" (JsNumber.Fin 100)
      first.2 in
  Db.wallets Commission.freshStore !! "C" = None
  ∧ Db.wallets first.2 !! "C" = Some (JsNumber.Fin 2)
  ∧ Db.wallets second.2 !! "C" = Some (JsNumber.Fin 4)
  ∧ length (Db.commissions first.2) < length (Db.commissions second.2).
Proof.
  cbv zeta.
  destruct (distribute_twice_credits_twice "D" (JsNumber.Fin 100)
              Commission.freshStore
              (Db.mkCommission "C" "D" 1 (JsNumber.Fin 2)))
    as (_ & _ & _ & Hlen & _ & Hbal & _).
  - vm_compute. apply list_elem_of_here.
  - destruct Hbal as [H1 H2].
    + apply (bool_decide_eq_true_1 _). vm_compute. reflexivity.
    + cbn [Db.customerId Db.amount] in H1, H2.
      split; [vm_compute; reflexivity|].
      split; [rewrite H1; vm_compute; reflexivity|].
      split; [rewrite H2; vm_compute; reflexivity|exact Hlen].
Defined.

(** X8: when the referrer chain of the purchaser is acyclic, every ledger
    row written by a distribution is matched by the balance of its
    recipient: the wallet holds the old balance plus the row's amount (or
    the amount alone when the wallet is created), every other wallet is
    unchanged, and the purchaser's own wallet is never credited. *)
Theorem distribute_wallets
    (sourceId : string) (gross : JsNumber.number) (st : Db.Store)
    (ancestors : list string) :
  Upline.chain_of (Db.customers st) sourceId ancestors →
  let st' :=
    (Commission.distributeCommissionForPurchase sourceId gross st).2 in
  ∃ rows,
    Db.commissions st' = Db.commissions st ++ rows
    ∧ (∀ r, r ∈ rows →
         Db.customerId r ∈ take 3 ancestors
         ∧ Db.wallets st' !! Db.customerId r
           = Some (match Db.wallets st !! Db.customerId r with
                   | Some b => JsNumber.add b (Db.amount r)
                   | None => Db.amount r
                   end))
    ∧ (∀ k, k ∉ Db.customerId <$> rows →
         Db.wallets st' !! k = Db.wallets st !! k)
    ∧ Db.wallets st' !! sourceId = Db.wallets st !! sourceId.
Proof.
  intros Hchain st'.
  set (settings := (Commission.getMlSettings st).1).
  set (chain := Upline.getUplineChain (Db.customers st) sourceId 3).
  set (intended := Commission.intendedOf settings chain).
  set (amounts :=
    Commission.scaleAmounts (Commission.capOf settings gross)
      (Commission.rawAmounts intended gross)).
  set (rows :=
    Commission.rowOf sourceId <$> Commission.creditedPairs intended amounts).
  assert (Hst' : st'
    = Db.mkStore (Db.customers st)
        (fold_left Commission.creditRow rows (Db.wallets st))
        (Db.commissions st ++ rows) (Some settings) (Db.bookings st)
        (Db.leadSteps st) (Db.issued st))
    by (unfold st'; by rewrite distribute_unfold).
  assert (Hsub : Db.customerId <$> rows `sublist_of` take 3 ancestors).
  { unfold rows. etrans; [apply creditedPairs_recipients|].
    unfold intended. rewrite intendedOf_recipients. unfold chain.
    by rewrite (getUplineChain_ids _ _ _ _ Hchain). }
  assert (Hnd : NoDup (Db.customerId <$> rows)).
  { eapply sublist_NoDup; [|exact Hsub].
    eapply sublist_NoDup; [by eapply chain_of_NoDup|apply sublist_take]. }
  assert (Hsrc : sourceId ∉ Db.customerId <$> rows).
  { intros Hin. eapply chain_of_not_self; [exact Hchain|].
    eapply elem_of_sublist in Hin; [|exact Hsub].
    apply elem_of_take in Hin as (i & Hi & _).
    apply list_elem_of_lookup. by exists i. }
  exists rows. rewrite Hst'. simpl.
  split; [done|]. split; [|split].
  - intros r Hr. split.
    + eapply elem_of_sublist; [|exact Hsub]. by apply list_elem_of_fmap_2.
    + by apply fold_credit_one.
  - intros k Hk. by apply fold_credit_other.
  - by apply fold_credit_other.
Qed.

Lemma distribute_wallets_witness :
  Db.wallets
    (Commission.distributeCommissionForPurchase "D" (JsNumber.Fin 100000)
       Commission.freshStore).2 !! "D" = None.
Proof.
  destruct (distribute_wallets "D" (JsNumber.Fin 100000)
              Commission.freshStore ["C"; "B"; "A"; "R"])
    as (rows & _ & _ & _ & Hsrc).
  - repeat (eapply Upline.chain_step; [vm_compute; reflexivity|]).
    apply Upline.chain_root. vm_compute. reflexivity.
  - rewrite Hsrc. reflexivity.
Defined.

(** ** Forced regeneration of the certificate *)

(** X10: the forced regeneration calls the generator exactly once whether
    or not the booking already has a certificate, and never writes a
    step.  On success the returned handle replaces [certificateUrl], and
    if it is not empty no later admin-facing completion calls the
    generator for the booking; on failure the answer is status 500 and
    the booking is left as it was. *)
Theorem regenerate_always_issues
    (generate : Db.CertRequest → option string) (sign : string → string)
    (now : Z) (lead : string) (st : Db.Store) (b : Db.Booking) :
  Db.bookings st !! lead = Some b →
  let r := Regenerate.postRegenerate generate sign now Db.admin lead st in
  ∃ request,
    Db.issued r.2 = Db.issued st ++ [request]
    ∧ Db.certLeadId request = lead
    ∧ Db.leadSteps r.2 = Db.leadSteps st
    ∧ (∀ url, generate request = Some url →
         r.1 = Regenerate.Regenerated (sign url)
         ∧ Db.bookings r.2 !! lead
           = Some (Workflow.setCertificate url now b)
         ∧ (truthy url = true →
            ∀ later userType stepId flag,
              Db.issued
                (Workflow.patchAdminStep generate later userType lead stepId
                   flag r.2).2
              = Db.issued r.2))
    ∧ (generate request = None →
         r.1 = Regenerate.Failure 500 "Internal Server Error"
         ∧ Db.bookings r.2 = Db.bookings st).
Proof.
  intros Hb r. unfold r, Regenerate.postRegenerate. simpl. rewrite Hb.
  eexists. split; [|split; [|split; [|split]]].
  - destruct (generate _); reflexivity.
  - reflexivity.
  - destruct (generate _); reflexivity.
  - intros url ->. simpl. split; [done|].
    split; [by rewrite lookup_alter_eq, Hb|].
    intros Hurl later userType stepId flag.
    apply patchAdminStep_no_reissue. simpl. intros b0.
    rewrite lookup_alter_eq, Hb. simpl. intros [= <-].
    unfold Workflow.hasCertificate. simpl. exact Hurl.
  - intros ->. by split.
Qed.

Lemma regenerate_always_issues_witness :
  let first :=
    (Workflow.patchAdminStep Workflow.issueOk 5000 Db.admin "L1" "s2" true
       Workflow.sampleStore).2 in
  let r :=
    Regenerate.postRegenerate Workflow.issueOk (λ url, url) 9000 Db.admin
      "L1" first in
  length (Db.issued first) = 1 ∧ length (Db.issued r.2) = 2.
Proof.
  intros first r.
  destruct (regenerate_always_issues Workflow.issueOk (λ url, url) 9000 "L1"
              first
              (Workflow.setCertificate "https://certs/L1" 5000
                 Workflow.sampleBooking))
    as (request & Hlog & _).
  - vm_compute. reflexivity.
  - fold r in Hlog. split; [vm_compute; reflexivity|].
    rewrite Hlog, length_app. vm_compute. reflexivity.
Defined.

(** ** Stored due days *)

Section PolicyFacts.
Import Db Workflow DueDaysJobs.

Lemma div_day (x : Z) :
  ∃ q r, (x / msPerDay = q ∧ x = 86400000 * q + r ∧ 0 <= r < 86400000)%Z.
Proof.
  exists (x / msPerDay)%Z, (x mod msPerDay)%Z. unfold msPerDay.
  pose proof (Z.div_mod x (1000 * 60 * 60 * 24)) as H1.
  pose proof (Z.mod_pos_bound x (1000 * 60 * 60 * 24)) as H2. lia.
Qed.

End PolicyFacts.

(** X11: the three due-day policies of the code never differ by more
    than one for an active step whose clock started at or before now:
    the real-time calendar-day value and the value of the initialisation
    script are both at most the value of the start-up sync, which is at
    most one more than either; all three lie in [1, 5]. *)
Theorem due_day_policies_within_one (tzOffset start now : Z) :
  (start <= now)%Z →
  let live := DueDaysJobs.liveValue tzOffset start now in
  let sync := DueDaysJobs.syncValue (Some start) now in
  let init := DueDaysJobs.initValue start now in
  (live <= sync <= live + 1)%Z
  ∧ (init <= sync <= init + 1)%Z
  ∧ (1 <= live <= 5)%Z ∧ (1 <= sync <= 5)%Z ∧ (1 <= init <= 5)%Z.
Proof.
  intros Hle live sync init.
  unfold live, sync, init, DueDaysJobs.liveValue, DueDaysJobs.syncValue,
    DueDaysJobs.initValue.
  rewrite calendarDays_localDay. unfold Workflow.localDay.
  destruct (div_day (now + tzOffset)) as (a & ra & -> & Ha & Hra).
  destruct (div_day (start + tzOffset)) as (b & rb & -> & Hb & Hrb).
  destruct (div_day (now - start)) as (f & rf & -> & Hf & Hrf).
  destruct (div_day (- (now - start))) as (c & rc & -> & Hc & Hrc).
  lia.
Qed.

Lemma due_day_policies_within_one_witness :
  (DueDaysJobs.liveValue 19800000 0 (46 * 3600000) = 2
   ∧ DueDaysJobs.syncValue (Some 0) (46 * 3600000) = 2
   ∧ DueDaysJobs.initValue 0 (46 * 3600000) = 2)%Z
  ∧ (DueDaysJobs.liveValue 0 3600000 (23 * 3600000)
     <= DueDaysJobs.syncValue (Some 3600000) (23 * 3600000))%Z.
Proof.
  split; [vm_compute; repeat split; reflexivity|].
  apply (due_day_policies_within_one 0 3600000 (23 * 3600000)). lia.
Defined.

Section WriteFacts.
Import Db Workflow DueDaysJobs.

Lemma setDueDays_same (s : LeadStep) : setDueDays (dueDays s) s = s.
Proof. by destruct s. Qed.

Lemma lastWrite_snoc ws w k d :
  lastWrite (ws ++ [w]) k d
  = if decide (w.1 = k) then w.2 else lastWrite ws k d.
Proof. unfold lastWrite. by rewrite foldl_app. Qed.

(** The value left for a key is the value of one of the writes to it, or
    the old value when no write names the key. *)
Lemma lastWrite_cases ws k d :
  (lastWrite ws k d = d ∧ ∀ v, (k, v) ∉ ws)
  ∨ (∃ v, (k, v) ∈ ws ∧ lastWrite ws k d = v).
Proof.
  induction ws as [|w ws IH] using rev_ind.
  - left. split; [done|]. intros v Hv. by inversion Hv.
  - rewrite lastWrite_snoc. destruct w as [k' v']. simpl.
    destruct (decide (k' = k)) as [->|Hne].
    + right. exists v'. split; [|done]. apply elem_of_app. right.
      by apply list_elem_of_singleton.
    + destruct IH as [[Hd Hno]|(v & Hv & Hl)].
      * left. split; [done|]. intros v Hv.
        apply elem_of_app in Hv as [Hv|Hv]; [by eapply Hno|].
        apply list_elem_of_singleton in Hv. congruence.
      * right. exists v. split; [|done]. apply elem_of_app. by left.
Qed.

Lemma applyWrites_lookup ws (rows : list LeadStep) j s :
  rows !! j = Some s →
  applyWrites ws rows !! j
  = Some (setDueDays (lastWrite ws (id s) (dueDays s)) s).
Proof.
  revert rows s. induction ws as [|w ws IH]; intros rows s Hs.
  - simpl. by rewrite setDueDays_same.
  - unfold applyWrites, lastWrite. cbn [foldl].
    fold (applyWrites ws (updateStep w.1 (setDueDays w.2) rows)).
    fold (lastWrite ws (id s) (if decide (w.1 = id s) then w.2 else dueDays s)).
    assert (Hrow : updateStep w.1 (setDueDays w.2) rows !! j
      = Some (if decide (id s = w.1) then setDueDays w.2 s else s))
      by (by rewrite updateStep_lookup, Hs).
    rewrite (IH _ _ Hrow).
    destruct (decide (id s = w.1)) as [Heq|Hne].
    + destruct (decide (w.1 = id s)); [|congruence]. done.
    + destruct (decide (w.1 = id s)); [congruence|]. done.
Qed.

Lemma applyWrites_length ws (rows : list LeadStep) :
  length (applyWrites ws rows) = length rows.
Proof.
  revert rows. induction ws as [|w ws IH]; intros rows; [done|].
  unfold applyWrites. cbn [foldl].
  fold (applyWrites ws (updateStep w.1 (setDueDays w.2) rows)).
  by rewrite IH, updateStep_length.
Qed.

(** A loop of [leadStep.update] calls is the sequence of its writes. *)
Lemma foldl_writeDueDays {A} (k : A → string) (v : A → Z) (xs : list A) st :
  foldl (λ acc x, writeDueDays (k x) (v x) acc) st xs
  = setLeadSteps (applyWrites ((λ x, (k x, v x)) <$> xs) (leadSteps st)) st.
Proof.
  revert st. induction xs as [|x xs IH]; intros st; [by destruct st|].
  cbn [foldl]. rewrite IH. by destruct st.
Qed.

(** Rows with distinct keys are determined by their key. *)
Lemma rows_key_inj (rows : list LeadStep) s1 s2 :
  NoDup (id <$> rows) → s1 ∈ rows → s2 ∈ rows → id s1 = id s2 → s1 = s2.
Proof.
  intros Hnd H1 H2 Heq.
  apply list_elem_of_lookup in H1 as [i1 H1].
  apply list_elem_of_lookup in H2 as [i2 H2].
  assert (i1 = i2).
  { eapply NoDup_lookup; [exact Hnd| |].
    - by rewrite list_lookup_fmap, H1.
    - by rewrite list_lookup_fmap, H2, Heq. }
  subst. congruence.
Qed.

End WriteFacts.

Section CronFacts.
Import Db Workflow DueDaysJobs.

Lemma cronTick_store st :
  cronTick st
  = setLeadSteps
      (applyWrites
         ((λ s, (id s, Z.min (dueDays s + 1) 5))
            <$> List.filter isActive (leadSteps st))
         (leadSteps st)) st.
Proof. unfold cronTick. apply foldl_writeDueDays. Qed.

(** One run of the nightly job, row by row. *)
Lemma cronTick_rows st :
  NoDup (id <$> leadSteps st) →
  leadSteps (cronTick st)
  = (λ s, if isActive s then setDueDays (Z.min (dueDays s + 1) 5) s else s)
      <$> leadSteps st.
Proof.
  intros Hnd. rewrite cronTick_store. cbn [leadSteps setLeadSteps].
  apply list_eq. intros j. rewrite list_lookup_fmap.
  destruct (leadSteps st !! j) as [s|] eqn:Hs.
  - rewrite (applyWrites_lookup _ _ _ _ Hs). simpl. f_equal.
    assert (Hin : s ∈ leadSteps st) by (apply list_elem_of_lookup; eauto).
    destruct (lastWrite_cases
                ((λ s, (id s, Z.min (dueDays s + 1) 5))
                   <$> List.filter isActive (leadSteps st))
                (id s) (dueDays s)) as [[Hd Hno]|(v & Hv & Hl)].
    + rewrite Hd, setDueDays_same.
      destruct (isActive s) eqn:Hact; [|done].
      exfalso. apply (Hno (Z.min (dueDays s + 1) 5)).
      apply (list_elem_of_fmap_2' _ _ s); [|done].
      apply list_elem_of_In, filter_In. split; [|done].
      by apply list_elem_of_In.
    + rewrite Hl. apply list_elem_of_fmap in Hv as (s' & Heq & Hs').
      apply list_elem_of_In, filter_In in Hs' as [Hs' Hact].
      apply list_elem_of_In in Hs'. injection Heq as Hid Hv.
      assert (s' = s) by (by eapply rows_key_inj). subst s'.
      by rewrite Hact, Hv.
  - apply lookup_ge_None. rewrite applyWrites_length.
    by apply lookup_ge_None.
Qed.

End CronFacts.

(** X12: the nightly job adds one to the stored due days of every
    incomplete step that shows more than zero, up to five, and changes
    nothing else: with distinct step keys, after [n >= 1] runs such a
    step shows [min (d + n) 5] (so 5 after four runs), while completed
    steps, steps showing zero and all other tables are as before. *)
Theorem cronTick_iterated (st : Db.Store) (n : nat) :
  NoDup (Db.id <$> Db.leadSteps st) → 1 ≤ n →
  let st' := Nat.iter n DueDaysJobs.cronTick st in
  Db.leadSteps st'
  = (λ s, if DueDaysJobs.isActive s
          then Workflow.setDueDays (Z.min (Db.dueDays s + Z.of_nat n) 5) s
          else s) <$> Db.leadSteps st
  ∧ (4 ≤ n → ∀ s, s ∈ Db.leadSteps st' → DueDaysJobs.isActive s = true →
       Db.dueDays s = 5%Z)
  ∧ Db.bookings st' = Db.bookings st
  ∧ Db.issued st' = Db.issued st
  ∧ Db.commissions st' = Db.commissions st
  ∧ Db.wallets st' = Db.wallets st.
Proof.
  intros Hnd Hn st'.
  assert (Hframe : ∀ m,
    Db.bookings (Nat.iter m DueDaysJobs.cronTick st) = Db.bookings st
    ∧ Db.issued (Nat.iter m DueDaysJobs.cronTick st) = Db.issued st
    ∧ Db.commissions (Nat.iter m DueDaysJobs.cronTick st) = Db.commissions st
    ∧ Db.wallets (Nat.iter m DueDaysJobs.cronTick st) = Db.wallets st).
  { induction m as [|m IH]; [done|]. simpl. by rewrite cronTick_store. }
  assert (Hrows : ∀ m,
    Db.leadSteps (Nat.iter (S m) DueDaysJobs.cronTick st)
    = (λ s, if DueDaysJobs.isActive s
            then Workflow.setDueDays
                   (Z.min (Db.dueDays s + Z.of_nat (S m)) 5) s
            else s) <$> Db.leadSteps st).
  { induction m as [|m IH].
    - simpl. rewrite cronTick_rows by done.
      apply list_fmap_ext. intros _ s _. simpl.
      destruct (DueDaysJobs.isActive s); [|done]. f_equal.
    - change (Nat.iter (S (S m)) DueDaysJobs.cronTick st)
        with (DueDaysJobs.cronTick (Nat.iter (S m) DueDaysJobs.cronTick st)).
      rewrite cronTick_rows.
      + rewrite IH, <- list_fmap_compose. apply list_fmap_ext.
        intros _ s _. simpl. unfold DueDaysJobs.isActive.
        destruct (Db.completed s) eqn:Hc; simpl; [by rewrite Hc|].
        destruct (0 <? Db.dueDays s)%Z eqn:Hd; simpl.
        * rewrite Hc. simpl. apply Z.ltb_lt in Hd.
          assert (Hpos : (0 <? Z.min (Db.dueDays s + Z.of_nat (S m)) 5)%Z
                         = true) by (apply Z.ltb_lt; lia).
          rewrite Hpos. unfold Workflow.setDueDays. simpl. f_equal. lia.
        * by rewrite Hc, Hd.
      + rewrite IH, <- list_fmap_compose.
        erewrite list_fmap_ext; [exact Hnd|]. intros _ s _. simpl.
        by destruct (DueDaysJobs.isActive s). }
  destruct n as [|n]; [lia|].
  split; [apply Hrows|]. split; [|apply Hframe].
  intros H4 s Hs Hact. unfold st' in Hs. rewrite Hrows in Hs.
  apply list_elem_of_fmap in Hs as (s0 & -> & _).
  unfold DueDaysJobs.isActive in *.
  destruct (Db.completed s0) eqn:Hc; simpl in *; [by rewrite Hc in Hact|].
  destruct (0 <? Db.dueDays s0)%Z eqn:Hd; simpl in *.
  - apply Z.ltb_lt in Hd. lia.
  - rewrite Hc, Hd in Hact. done.
Qed.

Lemma cronTick_iterated_witness :
  Db.dueDays <$> Db.leadSteps (Nat.iter 4 DueDaysJobs.cronTick
                                 DueDaysJobs.staleStore)
  = [3; 5; 0]%Z.
Proof.
  destruct (cronTick_iterated DueDaysJobs.staleStore 4) as [Hrows _].
  - apply (bool_decide_eq_true_1 _). vm_compute. reflexivity.
  - lia.
  - rewrite Hrows. vm_compute. reflexivity.
Defined.

Section SyncFacts.
Import Db Workflow DueDaysJobs.

Lemma applyWrites_app ws1 ws2 (rows : list LeadStep) :
  applyWrites (ws1 ++ ws2) rows = applyWrites ws2 (applyWrites ws1 rows).
Proof. unfold applyWrites. apply foldl_app. Qed.

Lemma syncBooking_store now snapshot acc entry :
  syncBooking now snapshot acc entry
  = setLeadSteps
      (applyWrites (bookingWrites now snapshot entry) (leadSteps acc)) acc.
Proof.
  unfold syncBooking, bookingWrites.
  generalize (imap pair (stepsOfLeadByOrder entry.1 snapshot)) as xs.
  generalize (stepsOfLeadByOrder entry.1 snapshot) as steps.
  intros steps xs. revert acc.
  induction xs as [|x xs IH]; intros acc; [by destruct acc|].
  cbn [foldl omap list_omap]. rewrite IH.
  unfold syncStep, syncWrite.
  destruct (decide (dueDays x.2 = syncTarget now entry.2 steps x.1 x.2));
    [done|].
  by destruct acc.
Qed.

Lemma foldl_syncBooking now snapshot entries acc :
  foldl (syncBooking now snapshot) acc entries
  = setLeadSteps
      (applyWrites (concat (bookingWrites now snapshot <$> entries))
         (leadSteps acc)) acc.
Proof.
  revert acc. induction entries as [|e entries IH]; intros acc;
    [by destruct acc|].
  cbn [foldl]. rewrite IH, syncBooking_store, fmap_cons.
  cbn [concat]. rewrite applyWrites_app. by destruct acc.
Qed.

Lemma syncDueDaysOnStartup_store now st :
  syncDueDaysOnStartup now st
  = setLeadSteps (applyWrites (syncWrites now st) (leadSteps st)) st.
Proof. apply foldl_syncBooking. Qed.

(** Every write of the sync comes from a step of a stored booking, at its
    place in the booking's ordered steps, and carries the wanted value. *)
Lemma syncWrites_elem now st k v :
  (k, v) ∈ syncWrites now st ↔
  ∃ bid b i step,
    bookings st !! bid = Some b
    ∧ stepsOfLeadByOrder bid (leadSteps st) !! i = Some step
    ∧ k = id step
    ∧ v = syncTarget now b (stepsOfLeadByOrder bid (leadSteps st)) i step
    ∧ dueDays step ≠ v.
Proof.
  unfold syncWrites. rewrite list_elem_of_In, in_concat. split.
  - intros (ws & Hws & Hkv).
    apply list_elem_of_In in Hws, Hkv.
    apply list_elem_of_fmap in Hws as ([bid b] & -> & Hb).
    apply elem_of_map_to_list in Hb.
    unfold bookingWrites in Hkv. simpl in Hkv.
    apply list_elem_of_omap in Hkv as ([i step] & Hin & Hw).
    apply list_elem_of_lookup in Hin as [n Hn].
    rewrite list_lookup_imap in Hn.
    destruct (stepsOfLeadByOrder bid (leadSteps st) !! n) as [x|] eqn:Hx;
      [|done].
    simpl in Hn. injection Hn as <- <-.
    unfold syncWrite in Hw. simpl in Hw.
    destruct (decide _) as [|Hne]; [done|]. injection Hw as <- <-.
    by exists bid, b, n, x.
  - intros (bid & b & i & step & Hb & Hi & -> & -> & Hne).
    exists (bookingWrites now (leadSteps st) (bid, b)). split.
    + apply list_elem_of_In, list_elem_of_fmap.
      exists (bid, b). split; [done|]. by apply elem_of_map_to_list.
    + apply list_elem_of_In. unfold bookingWrites. simpl.
      apply list_elem_of_omap. exists (i, step). split.
      * apply list_elem_of_lookup. exists i.
        by rewrite list_lookup_imap, Hi.
      * unfold syncWrite. simpl. by destruct (decide _).
Qed.

Lemma stepsOfLeadByOrder_elem_of lead rows s :
  s ∈ stepsOfLeadByOrder lead rows ↔ s ∈ rows ∧ leadId s = lead.
Proof.
  unfold stepsOfLeadByOrder, stepsOfLead.
  rewrite sortByKey_elem_of, !list_elem_of_In, filter_In.
  by rewrite bool_decide_eq_true.
Qed.

Lemma stepsOfLeadByOrder_NoDup lead rows :
  NoDup rows → NoDup (stepsOfLeadByOrder lead rows).
Proof.
  intros Hnd. unfold stepsOfLeadByOrder. rewrite sortByKey_perm.
  unfold stepsOfLead. induction Hnd as [|s rows Hs Hnd IH]; simpl;
    [constructor|].
  destruct (bool_decide (leadId s = lead)); [|done].
  constructor; [|done]. intros Hin.
  apply list_elem_of_In, filter_In in Hin as [Hin _].
  by apply list_elem_of_In in Hin.
Qed.

Lemma syncTarget_range now b steps i s :
  (syncTarget now b steps i s = 0 ∨ 1 <= syncTarget now b steps i s <= 5)%Z.
Proof.
  unfold syncTarget, syncValue. destruct (completed s); [by left|].
  destruct (startDateOf steps (createdAt b) i); [right; lia|by left].
Qed.

End SyncFacts.

(** The rows after the start-up sync, by key. *)
Lemma syncDueDays_rows (now : Z) (st : Db.Store) :
  NoDup (Db.id <$> Db.leadSteps st) →
  let st' := DueDaysJobs.syncDueDaysOnStartup now st in
  length (Db.leadSteps st') = length (Db.leadSteps st)
  ∧ (∀ j s, Db.leadSteps st !! j = Some s →
       match Db.bookings st !! Db.leadId s with
       | None => Db.leadSteps st' !! j = Some s
       | Some b =>
           let steps :=
             Workflow.stepsOfLeadByOrder (Db.leadId s) (Db.leadSteps st) in
           (∃ i, steps !! i = Some s)
           ∧ ∀ i, steps !! i = Some s →
               let d :=
                 if Db.completed s then 0%Z
                 else DueDaysJobs.syncValue
                        (Workflow.startDateOf steps (Db.createdAt b) i) now in
               Db.leadSteps st' !! j = Some (Workflow.setDueDays d s)
               ∧ (d = 0 ∨ 1 <= d <= 5)%Z
       end)
  ∧ Db.bookings st' = Db.bookings st
  ∧ Db.issued st' = Db.issued st
  ∧ Db.commissions st' = Db.commissions st
  ∧ Db.wallets st' = Db.wallets st.
Proof.
  intros Hnd st'. unfold st'. rewrite syncDueDaysOnStartup_store.
  cbn [Db.leadSteps Db.setLeadSteps Db.bookings Db.issued Db.commissions
       Db.wallets].
  split; [apply applyWrites_length|]. split; [|done].
  intros j s Hs. rewrite (applyWrites_lookup _ _ _ _ Hs).
  assert (Hin : s ∈ Db.leadSteps st) by (apply list_elem_of_lookup; eauto).
  assert (Hrows : NoDup (Db.leadSteps st)) by (by eapply NoDup_fmap_1).
  assert (Hown : ∀ bid i step,
    Workflow.stepsOfLeadByOrder bid (Db.leadSteps st) !! i = Some step →
    Db.id s = Db.id step → step = s ∧ bid = Db.leadId s).
  { intros bid i step Hi Hid.
    assert (Hstep : step ∈ Workflow.stepsOfLeadByOrder bid (Db.leadSteps st))
      by (apply list_elem_of_lookup; eauto).
    apply stepsOfLeadByOrder_elem_of in Hstep as [Hstep Hlead].
    assert (step = s) by (by eapply rows_key_inj). by subst. }
  destruct (lastWrite_cases (DueDaysJobs.syncWrites now st) (Db.id s)
              (Db.dueDays s)) as [[Hd Hno]|(v & Hv & Hl)].
  - rewrite Hd, setDueDays_same.
    destruct (Db.bookings st !! Db.leadId s) as [b|] eqn:Hb; [|done].
    assert (Hmem : s ∈ Workflow.stepsOfLeadByOrder (Db.leadId s)
                         (Db.leadSteps st))
      by (by apply stepsOfLeadByOrder_elem_of).
    split; [by apply list_elem_of_lookup|].
    intros i Hi. split; [|apply syncTarget_range].
    f_equal. rewrite <- (setDueDays_same s) at 1. f_equal.
    destruct (decide (Db.dueDays s
      = DueDaysJobs.syncTarget now b
          (Workflow.stepsOfLeadByOrder (Db.leadId s) (Db.leadSteps st)) i s))
      as [Heq|Hne]; [exact Heq|].
    exfalso. eapply Hno. apply syncWrites_elem.
    by exists (Db.leadId s), b, i, s.
  - rewrite Hl. apply syncWrites_elem in Hv
      as (bid & b & i & step & Hb & Hi & Hid & -> & Hne).
    destruct (Hown bid i step Hi Hid) as [-> ->].
    rewrite Hb. split; [by exists i|].
    intros i' Hi'. split; [|apply syncTarget_range].
    assert (i' = i).
    { eapply NoDup_lookup; [|exact Hi'|exact Hi].
      by apply stepsOfLeadByOrder_NoDup. }
    by subst.
Qed.

(** X13: with distinct step keys, the start-up sync rewrites only stored
    due days, and only for steps of stored bookings.  Such a step ends
    with 0 when it is completed or its predecessor (in [order]) is not
    completed, and otherwise with the number of 24-hour periods since its
    clock start plus one, clamped to [1, 5]; steps of missing bookings
    and all other tables are unchanged. *)
Theorem syncDueDays_effect (now : Z) (st : Db.Store) :
  NoDup (Db.id <$> Db.leadSteps st) →
  let st' := DueDaysJobs.syncDueDaysOnStartup now st in
  length (Db.leadSteps st') = length (Db.leadSteps st)
  ∧ (∀ j s, Db.leadSteps st !! j = Some s →
       match Db.bookings st !! Db.leadId s with
       | None => Db.leadSteps st' !! j = Some s
       | Some b =>
           let steps :=
             Workflow.stepsOfLeadByOrder (Db.leadId s) (Db.leadSteps st) in
           (∃ i, steps !! i = Some s)
           ∧ ∀ i, steps !! i = Some s →
               let d :=
                 if Db.completed s then 0%Z
                 else DueDaysJobs.syncValue
                        (Workflow.startDateOf steps (Db.createdAt b) i) now in
               Db.leadSteps st' !! j
               = Some (Db.mkLeadStep (Db.id s) (Db.leadId s) (Db.name s)
                         (Db.order s) (Db.completed s) (Db.completedAt s)
                         (Db.completionNotes s) d)
               ∧ Db.dueDays <$> Db.leadSteps st' !! j = Some d
               ∧ (d = 0 ∨ 1 <= d <= 5)%Z
       end)
  ∧ Db.bookings st' = Db.bookings st
  ∧ Db.issued st' = Db.issued st
  ∧ Db.commissions st' = Db.commissions st
  ∧ Db.wallets st' = Db.wallets st.
Proof.
  intros Hnd st'.
  destruct (syncDueDays_rows now st Hnd) as (Hlen & Hrows & Hframe).
  split; [exact Hlen|]. split; [|exact Hframe].
  intros j s Hs. specialize (Hrows j s Hs).
  destruct (Db.bookings st !! Db.leadId s) as [b|]; [|exact Hrows].
  cbv zeta in Hrows |- *.
  destruct Hrows as [Hex Hrows]. split; [exact Hex|].
  intros i Hi. destruct (Hrows i Hi) as [Hrow Hrange].
  split; [exact Hrow|]. split; [|exact Hrange].
  unfold st' in *. by rewrite Hrow.
Qed.

Lemma syncDueDays_effect_witness :
  NoDup (Db.id <$> Db.leadSteps DueDaysJobs.staleStore)
  ∧ Db.dueDays <$> Db.leadSteps DueDaysJobs.staleStore = [3; 2; 0]%Z
  ∧ Db.dueDays
      <$> Db.leadSteps (DueDaysJobs.syncDueDaysOnStartup 200000000 DueDaysJobs.staleStore)
         !! 0
    = Some 0%Z
  ∧ Db.dueDays
      <$> Db.leadSteps (DueDaysJobs.syncDueDaysOnStartup 200000000 DueDaysJobs.staleStore)
         !! 1
    = Some 3%Z.
Proof.
  assert (NoDup (Db.id <$> Db.leadSteps DueDaysJobs.staleStore)) as Hnd
    by (apply (bool_decide_eq_true_1 _); vm_compute; reflexivity).
  split; [exact Hnd|]. split; [reflexivity|].
  destruct (syncDueDays_effect 200000000 DueDaysJobs.staleStore Hnd) as (_ & Hrows & _).
  split.
  - destruct (Hrows 0 _ eq_refl) as [_ H0].
    exact (proj1 (proj2 (H0 0 eq_refl))).
  - destruct (Hrows 1 _ eq_refl) as [_ H1].
    exact (proj1 (proj2 (H1 1 eq_refl))).
Defined.

Section SyncAgain.
Import Db Workflow DueDaysJobs.

Lemma applyWrites_sameButDue ws (rows : list LeadStep) :
  sameButDue rows (applyWrites ws rows).
Proof.
  unfold sameButDue. apply Forall2_same_length_lookup. split; [by rewrite applyWrites_length|].
  intros j s s' Hs Hs'. rewrite (applyWrites_lookup _ _ _ _ Hs) in Hs'.
  injection Hs' as <-. by destruct s.
Qed.

Lemma stepsOfLead_sameButDue lead (l l' : list LeadStep) :
  sameButDue l l' → sameButDue (stepsOfLead lead l) (stepsOfLead lead l').
Proof.
  unfold sameButDue, stepsOfLead.
  induction 1 as [|s s' l l' Hs Hl IH]; simpl; [constructor|].
  assert (Hlead : leadId s' = leadId s) by (rewrite Hs; by destruct s).
  rewrite Hlead. destruct (bool_decide (leadId s = lead)); [|done].
  by constructor.
Qed.

Lemma insertByKey_sameButDue (x x' : LeadStep) (l l' : list LeadStep) :
  x' = setDueDays (dueDays x') x → sameButDue l l' →
  sameButDue (insertByKey order x l) (insertByKey order x' l').
Proof.
  unfold sameButDue. intros Hx.
  induction 1 as [|s s' l l' Hs Hl IH]; simpl; [by repeat constructor|].
  assert (Hox : order x' = order x) by (rewrite Hx; by destruct x).
  assert (Hos : order s' = order s) by (rewrite Hs; by destruct s).
  rewrite Hox, Hos. destruct (order x <=? order s)%Z; by repeat constructor.
Qed.

Lemma sortByKey_sameButDue (l l' : list LeadStep) :
  sameButDue l l' → sameButDue (sortByKey order l) (sortByKey order l').
Proof.
  intros H. unfold sortByKey.
  induction H as [|s s' l l' Hs Hl IH]; simpl; [constructor|].
  by apply insertByKey_sameButDue.
Qed.

Lemma startDateOf_sameButDue (steps steps' : list LeadStep) c i :
  sameButDue steps steps' → startDateOf steps' c i = startDateOf steps c i.
Proof.
  unfold sameButDue. intros H. destruct i as [|i]; [done|]. simpl.
  destruct (steps !! i) as [p|] eqn:Hp.
  - destruct (Forall2_lookup_l _ _ _ _ _ H Hp) as (p' & -> & ->).
    by destruct p.
  - apply lookup_ge_None in Hp. rewrite (Forall2_length _ _ _ H) in Hp.
    apply lookup_ge_None in Hp. by rewrite Hp.
Qed.

End SyncAgain.

(** X14: the start-up sync is idempotent: with distinct step keys,
    running it again at the same instant changes nothing. *)
Theorem syncDueDays_idempotent (now : Z) (st : Db.Store) :
  NoDup (Db.id <$> Db.leadSteps st) →
  DueDaysJobs.syncDueDaysOnStartup now
    (DueDaysJobs.syncDueDaysOnStartup now st)
  = DueDaysJobs.syncDueDaysOnStartup now st.
Proof.
  intros Hnd.
  destruct (syncDueDays_effect now st Hnd) as (Hlen & Heff & Hbook & _).
  set (st' := DueDaysJobs.syncDueDaysOnStartup now st) in *.
  assert (Hsame : DueDaysJobs.sameButDue (Db.leadSteps st) (Db.leadSteps st')).
  { unfold st'. rewrite syncDueDaysOnStartup_store.
    apply applyWrites_sameButDue. }
  assert (Hnone : DueDaysJobs.syncWrites now st' = []).
  { destruct (DueDaysJobs.syncWrites now st') as [|[k v] ws] eqn:Hws;
      [done|].
    exfalso.
    assert (Hkv : (k, v) ∈ DueDaysJobs.syncWrites now st')
      by (rewrite Hws; apply list_elem_of_here).
    apply syncWrites_elem in Hkv
      as (bid & b & i & step' & Hb & Hi & _ & -> & Hne).
    rewrite Hbook in Hb.
    pose proof (sortByKey_sameButDue _ _
                  (stepsOfLead_sameButDue bid _ _ Hsame)) as Hsorted.
    fold (Workflow.stepsOfLeadByOrder bid (Db.leadSteps st)) in Hsorted.
    fold (Workflow.stepsOfLeadByOrder bid (Db.leadSteps st')) in Hsorted.
    destruct (Forall2_lookup_r _ _ _ _ _ Hsorted Hi) as (step & Hstep & Hrel).
    assert (Hin' : step' ∈ Db.leadSteps st').
    { assert (H : step' ∈ Workflow.stepsOfLeadByOrder bid (Db.leadSteps st'))
        by (apply list_elem_of_lookup; eauto).
      by apply stepsOfLeadByOrder_elem_of in H as [H _]. }
    apply list_elem_of_lookup in Hin' as [j Hj].
    destruct (Forall2_lookup_r _ _ _ _ _ Hsame Hj) as (s0 & Hs0 & Hrel0).
    assert (Hmem : step ∈ Workflow.stepsOfLeadByOrder bid (Db.leadSteps st))
      by (apply list_elem_of_lookup; eauto).
    apply stepsOfLeadByOrder_elem_of in Hmem as [Hmem Hlead].
    assert (s0 = step).
    { eapply rows_key_inj; [exact Hnd| |exact Hmem|].
      - apply list_elem_of_lookup; eauto.
      - apply (f_equal Db.id) in Hrel, Hrel0. simpl in Hrel, Hrel0.
        congruence. }
    subst s0. specialize (Heff j step Hs0). rewrite Hlead, Hb in Heff.
    destruct Heff as [_ Heff]. destruct (Heff i Hstep) as [Hrow _].
    rewrite Hj in Hrow. injection Hrow as Hstep'.
    apply Hne. unfold DueDaysJobs.syncTarget.
    rewrite (startDateOf_sameButDue _ _ _ _ Hsorted).
    rewrite Hstep'. simpl. reflexivity. }
  rewrite syncDueDaysOnStartup_store. fold st'. rewrite Hnone.
  by destruct st'.
Qed.

Lemma syncDueDays_idempotent_witness :
  DueDaysJobs.syncDueDaysOnStartup 90000000
    (DueDaysJobs.syncDueDaysOnStartup 90000000 DueDaysJobs.staleStore)
  = DueDaysJobs.syncDueDaysOnStartup 90000000 DueDaysJobs.staleStore.
Proof.
  apply (syncDueDays_idempotent 90000000 DueDaysJobs.staleStore).
  apply (bool_decide_eq_true_1 _). vm_compute. reflexivity.
Defined.

(** ** Referral overview *)

Section ReferralFacts.
Import Upline Referrals.
Variable customers : gmap string Customer.

Lemma uplineLoop_lookup_hop fuel c s i u :
  i < fuel → hop customers c (S i) = Some u →
  uplineLoop customers fuel c s !! i = Some (mkEntry u (s + S i)).
Proof.
  revert c s i. induction fuel as [|fuel IH]; intros c s i Hi; [lia|].
  cbn [hop uplineLoop]. unfold referrer.
  destruct (truthy c); [|done].
  destruct (nextUpline customers c) as [v|]; [|done].
  destruct i as [|i].
  - cbn [hop]. intros [= ->]. simpl. do 2 f_equal.
  - intros Hh. change (uplineLoop customers fuel v (s + 1) !! i
                       = Some (mkEntry u (s + S (S i)))).
    rewrite (IH v (s + 1) i ltac:(lia) Hh). do 2 f_equal. lia.
Qed.

Lemma chain_lookup_hop c n i u :
  i < n →
  getUplineChain customers c n !! i = Some (mkEntry u (S i))
  ↔ hop customers c (S i) = Some u.
Proof.
  intros Hi. unfold getUplineChain. split.
  - intros H. by apply uplineLoop_lookup in H as [_ H].
  - intros H. by rewrite (uplineLoop_lookup_hop n c 0 i u Hi H).
Qed.

Lemma hop_truthy c n u :
  truthy u = true → hop customers c n = Some u → truthy c = true.
Proof.
  destruct n as [|n]; cbn [hop].
  - by intros ? [= ->].
  - unfold referrer. by destruct (truthy c).
Qed.

Lemma stdlib_filter_sublist {A} (f : A → bool) (l : list A) :
  List.filter f l `sublist_of` l.
Proof.
  induction l as [|x l IH]; simpl; [constructor|].
  destruct (f x); by constructor.
Qed.

Lemma referredByIs_elem p c :
  c ∈ referredByIs p customers
  ↔ ∃ cc, customers !! c = Some cc ∧ referredBy cc = Some p.
Proof.
  unfold referredByIs. rewrite list_elem_of_fmap. split.
  - intros [[k v] [-> Hin]].
    apply list_elem_of_In, filter_In in Hin as [Hin Hb].
    apply list_elem_of_In, elem_of_map_to_list in Hin.
    apply bool_decide_eq_true_1 in Hb. by exists v.
  - intros [cc [Hl Hr]]. exists (c, cc). split; [done|].
    apply list_elem_of_In, filter_In. split.
    + by apply list_elem_of_In, elem_of_map_to_list.
    + by apply bool_decide_eq_true_2.
Qed.

Lemma referredByIn_elem ps c :
  c ∈ referredByIn ps customers
  ↔ ∃ cc p, customers !! c = Some cc ∧ referredBy cc = Some p ∧ p ∈ ps.
Proof.
  unfold referredByIn. rewrite list_elem_of_fmap. split.
  - intros [[k v] [-> Hin]].
    apply list_elem_of_In, filter_In in Hin as [Hin Hb].
    apply list_elem_of_In, elem_of_map_to_list in Hin.
    simpl in Hb. destruct (referredBy v) as [p|] eqn:Hp; [|done].
    apply bool_decide_eq_true_1 in Hb. by exists v, p.
  - intros (cc & p & Hl & Hr & Hp). exists (c, cc). split; [done|].
    apply list_elem_of_In, filter_In. split.
    + by apply list_elem_of_In, elem_of_map_to_list.
    + simpl. rewrite Hr. by apply bool_decide_eq_true_2.
Qed.

Lemma referredByIs_NoDup p : NoDup (referredByIs p customers).
Proof.
  unfold referredByIs.
  eapply sublist_NoDup; [apply (NoDup_fst_map_to_list customers)|].
  apply fmap_sublist, stdlib_filter_sublist.
Qed.

Lemma referredByIn_NoDup ps : NoDup (referredByIn ps customers).
Proof.
  unfold referredByIn.
  eapply sublist_NoDup; [apply (NoDup_fst_map_to_list customers)|].
  apply fmap_sublist, stdlib_filter_sublist.
Qed.

Lemma next_level_NoDup ps :
  NoDup (if decide (length ps = 0) then [] else referredByIn ps customers).
Proof. destruct (decide _); [constructor|apply referredByIn_NoDup]. Qed.

Hypothesis keys_truthy : map_Forall (λ k _, truthy k = true) customers.

Lemma referrer_row c u :
  truthy u = true →
  referrer customers c = Some u
  ↔ ∃ cc, customers !! c = Some cc ∧ referredBy cc = Some u.
Proof.
  intros Hu. unfold referrer, nextUpline. split.
  - destruct (truthy c); [|done].
    destruct (customers !! c) as [cc|]; [|done].
    destruct (referredBy cc) as [v|] eqn:Hr; [|done].
    destruct (truthy v); [|done]. intros [= ->]. exists cc. by split.
  - intros [cc [Hl Hr]].
    rewrite (keys_truthy c cc Hl), Hl, Hr, Hu. done.
Qed.

Lemma level1_hop me c :
  truthy me = true →
  c ∈ referredByIs me customers ↔ hop customers c 1 = Some me.
Proof.
  intros Hme. rewrite referredByIs_elem, <- (referrer_row c me Hme).
  cbn [hop]. destruct (referrer customers c); split; congruence.
Qed.

Lemma next_level_hop me ps n c :
  truthy me = true →
  (∀ b, b ∈ ps ↔ hop customers b n = Some me) →
  c ∈ (if decide (length ps = 0) then [] else referredByIn ps customers)
  ↔ hop customers c (S n) = Some me.
Proof.
  intros Hme Hps.
  assert (c ∈ referredByIn ps customers
          ↔ hop customers c (S n) = Some me) as Hin.
  { rewrite referredByIn_elem. cbn [hop]. split.
    - intros (cc & p & Hl & Hr & Hp). apply Hps in Hp.
      assert (referrer customers c = Some p) as ->; [|done].
      apply referrer_row; [by eapply hop_truthy|by exists cc].
    - destruct (referrer customers c) as [u|] eqn:Hu; [|done].
      intros Hh. apply referrer_row in Hu as [cc [Hl Hr]];
        [|by eapply hop_truthy].
      exists cc, u. by rewrite Hps. }
  destruct (decide (length ps = 0)) as [Hz|]; [|done].
  rewrite <- Hin, referredByIn_elem.
  apply nil_length_inv in Hz as ->.
  split; [by intros ?%elem_of_nil|].
  by intros (? & ? & _ & _ & ?%elem_of_nil).
Qed.

End ReferralFacts.

(** X15: the overview's downline levels are the inverse of the upline
    walk.  When no customer id is the empty string, a customer is listed
    (once) in level k of [me]'s downline exactly when [me] is entry k of
    that customer's upline chain, i.e. when [me] is the level-k recipient
    of that customer's purchases; cycles in the graph do not matter. *)
Theorem downlines_upline_duality
    (customers : gmap string Upline.Customer) (me c : string) :
  truthy me = true →
  map_Forall (λ k _, truthy k = true) customers →
  let d := Referrals.downlines me customers in
  (NoDup d.1.1 ∧ NoDup d.1.2 ∧ NoDup d.2) ∧
  (c ∈ d.1.1
   ↔ Upline.getUplineChain customers c 3 !! 0 = Some (Upline.mkEntry me 1)) ∧
  (c ∈ d.1.2
   ↔ Upline.getUplineChain customers c 3 !! 1 = Some (Upline.mkEntry me 2)) ∧
  (c ∈ d.2
   ↔ Upline.getUplineChain customers c 3 !! 2 = Some (Upline.mkEntry me 3)).
Proof.
  intros Hme Hkeys. unfold Referrals.downlines. cbv zeta. cbn [fst snd].
  pose proof (level1_hop customers Hkeys me) as H1.
  pose proof (λ c, next_level_hop customers Hkeys me _ 1 c Hme
                     (λ b, H1 b Hme)) as H2.
  pose proof (λ c, next_level_hop customers Hkeys me _ 2 c Hme H2) as H3.
  split; [|split; [|split]].
  - split; [apply referredByIs_NoDup|].
    split; apply next_level_NoDup.
  - rewrite (chain_lookup_hop customers c 3 0 me) by lia. by apply H1.
  - rewrite (chain_lookup_hop customers c 3 1 me) by lia. apply H2.
  - rewrite (chain_lookup_hop customers c 3 2 me) by lia. apply H3.
Qed.

Lemma downlines_upline_duality_witness :
  let d := Referrals.downlines "A" Upline.linear_customers in
  (NoDup d.1.1 ∧ NoDup d.1.2 ∧ NoDup d.2) ∧
  ("C" ∈ d.1.1
   ↔ Upline.getUplineChain Upline.linear_customers "C" 3 !! 0
     = Some (Upline.mkEntry "A" 1)) ∧
  ("C" ∈ d.1.2
   ↔ Upline.getUplineChain Upline.linear_customers "C" 3 !! 1
     = Some (Upline.mkEntry "A" 2)) ∧
  ("C" ∈ d.2
   ↔ Upline.getUplineChain Upline.linear_customers "C" 3 !! 2
     = Some (Upline.mkEntry "A" 3)).
Proof.
  apply (downlines_upline_duality Upline.linear_customers "A" "C").
  - reflexivity.
  - apply (bool_decide_eq_true_1 _). vm_compute. reflexivity.
Defined.

(** ** The initialisation script of the stored due days *)

Section InitFacts.
Import Db Workflow DueDaysJobs.

Lemma zeroAll_store steps acc :
  zeroAll steps acc
  = setLeadSteps (applyWrites (zeroWrites steps) (leadSteps acc)) acc.
Proof.
  unfold zeroAll, zeroWrites. revert acc.
  induction steps as [|x steps IH]; intros acc; [by destruct acc|].
  cbn [foldl fmap list_fmap]. rewrite IH. by destruct acc.
Qed.

Lemma initBooking_store now snapshot acc entry :
  initBooking now snapshot acc entry
  = setLeadSteps
      (applyWrites (initBookingWrites now snapshot entry) (leadSteps acc)) acc.
Proof.
  unfold initBooking, initBookingWrites. cbv zeta.
  destruct (list_find _ _) as [[k a]|]; [|apply zeroAll_store].
  rewrite !applyWrites_app, !zeroAll_store.
  destruct (initStartDate _ _ _); by destruct acc.
Qed.

Lemma foldl_initBooking now snapshot entries acc :
  foldl (initBooking now snapshot) acc entries
  = setLeadSteps
      (applyWrites (concat (initBookingWrites now snapshot <$> entries))
         (leadSteps acc)) acc.
Proof.
  revert acc. induction entries as [|e entries IH]; intros acc;
    [by destruct acc|].
  cbn [foldl]. rewrite IH, initBooking_store, fmap_cons.
  cbn [concat]. rewrite applyWrites_app. by destruct acc.
Qed.

Lemma initializeDueDays_store now st :
  initializeDueDays now st
  = setLeadSteps (applyWrites (initWrites now st) (leadSteps st)) st.
Proof. apply foldl_initBooking. Qed.

Lemma zeroWrites_elem steps k v :
  (k, v) ∈ zeroWrites steps
  ↔ ∃ i step, steps !! i = Some step ∧ k = id step ∧ v = 0%Z.
Proof.
  unfold zeroWrites. rewrite list_elem_of_fmap. split.
  - intros (step & [= -> ->] & [i Hi]%list_elem_of_lookup). by exists i, step.
  - intros (i & step & Hi & -> & ->). exists step. split; [done|].
    apply list_elem_of_lookup. by exists i.
Qed.

(** Every write of the script for a booking sets a step of the booking
    to the value [initTarget]. *)
Lemma initBookingWrites_elem now snapshot bid b k v :
  (k, v) ∈ initBookingWrites now snapshot (bid, b) →
  ∃ i step,
    stepsOfLeadByOrder bid snapshot !! i = Some step
    ∧ k = id step
    ∧ v = initTarget now b (stepsOfLeadByOrder bid snapshot) i (dueDays step).
Proof.
  unfold initBookingWrites, initTarget. cbn [fst snd].
  generalize (stepsOfLeadByOrder bid snapshot) as steps. intros steps.
  destruct (list_find _ steps) as [[n a]|] eqn:Hf.
  - apply list_find_Some in Hf as (Ha & _ & _).
    rewrite !elem_of_app. intros [Hin|[Hin|Hin]].
    + apply zeroWrites_elem in Hin as (i & step & Hi & -> & ->).
      apply lookup_take_Some in Hi as [Hi Hlt].
      exists i, step. rewrite decide_False by lia. done.
    + destruct (initStartDate steps (createdAt b) n) as [start|] eqn:Hs;
        [|by apply elem_of_nil in Hin].
      apply list_elem_of_singleton in Hin as [= -> ->].
      exists n, a. by rewrite decide_True.
    + apply zeroWrites_elem in Hin as (i & step & Hi & -> & ->).
      rewrite lookup_drop in Hi.
      exists (n + 1 + i), step. rewrite decide_False by lia. done.
  - intros Hin. apply zeroWrites_elem in Hin as (i & step & Hi & -> & ->).
    by exists i, step.
Qed.

(** Every step of a booking is written, except the first incomplete one
    when its start date is unknown. *)
Lemma initBookingWrites_covers now snapshot bid b i step :
  stepsOfLeadByOrder bid snapshot !! i = Some step →
  let target :=
    initTarget now b (stepsOfLeadByOrder bid snapshot) i (dueDays step) in
  (id step, target) ∈ initBookingWrites now snapshot (bid, b)
  ∨ target = dueDays step.
Proof.
  unfold initBookingWrites, initTarget. cbn [fst snd].
  generalize (stepsOfLeadByOrder bid snapshot) as steps. intros steps Hi.
  cbv zeta. destruct (list_find _ steps) as [[n a]|] eqn:Hf.
  - apply list_find_Some in Hf as (Ha & _ & _).
    rewrite !elem_of_app.
    destruct (decide (i = n)) as [->|Hne].
    + assert (a = step) as -> by congruence.
      destruct (initStartDate steps (createdAt b) n); [|by right].
      left. right. left. by apply list_elem_of_singleton.
    + left. destruct (decide (i < n)) as [Hlt|Hge].
      * left. apply zeroWrites_elem. exists i, step.
        by rewrite lookup_take_Some.
      * right. right. apply zeroWrites_elem. exists (i - (n + 1)), step.
        rewrite lookup_drop.
        by replace (n + 1 + (i - (n + 1))) with i by lia.
  - left. apply zeroWrites_elem. by exists i, step.
Qed.

Lemma initWrites_elem now st k v :
  (k, v) ∈ initWrites now st ↔
  ∃ bid b, bookings st !! bid = Some b
           ∧ (k, v) ∈ initBookingWrites now (leadSteps st) (bid, b).
Proof.
  unfold initWrites. rewrite list_elem_of_In, in_concat. split.
  - intros (ws & Hws & Hkv).
    apply list_elem_of_In in Hws, Hkv.
    apply list_elem_of_fmap in Hws as ([bid b] & -> & Hb).
    apply elem_of_map_to_list in Hb. by exists bid, b.
  - intros (bid & b & Hb & Hkv).
    exists (initBookingWrites now (leadSteps st) (bid, b)). split.
    + apply list_elem_of_In, list_elem_of_fmap.
      exists (bid, b). split; [done|]. by apply elem_of_map_to_list.
    + by apply list_elem_of_In.
Qed.

End InitFacts.

(** The rows after the initialisation script, by key. *)
Lemma initializeDueDays_rows (now : Z) (st : Db.Store) :
  NoDup (Db.id <$> Db.leadSteps st) →
  let st' := DueDaysJobs.initializeDueDays now st in
  length (Db.leadSteps st') = length (Db.leadSteps st)
  ∧ (∀ j s, Db.leadSteps st !! j = Some s →
       match Db.bookings st !! Db.leadId s with
       | None => Db.leadSteps st' !! j = Some s
       | Some b =>
           let steps :=
             Workflow.stepsOfLeadByOrder (Db.leadId s) (Db.leadSteps st) in
           (∃ i, steps !! i = Some s)
           ∧ ∀ i, steps !! i = Some s →
               let d :=
                 match list_find (λ x, Db.completed x = false) steps with
                 | None => 0%Z
                 | Some (k, _) =>
                     if decide (i = k) then
                       match DueDaysJobs.initStartDate steps
                               (Db.createdAt b) k with
                       | Some start => DueDaysJobs.initValue start now
                       | None => Db.dueDays s
                       end
                     else 0%Z
                 end in
               Db.leadSteps st' !! j = Some (Workflow.setDueDays d s)
       end)
  ∧ Db.bookings st' = Db.bookings st
  ∧ Db.issued st' = Db.issued st
  ∧ Db.commissions st' = Db.commissions st
  ∧ Db.wallets st' = Db.wallets st.
Proof.
  intros Hnd st'. unfold st'. rewrite initializeDueDays_store.
  cbn [Db.leadSteps Db.setLeadSteps Db.bookings Db.issued Db.commissions
       Db.wallets].
  split; [apply applyWrites_length|]. split; [|done].
  intros j s Hs. rewrite (applyWrites_lookup _ _ _ _ Hs).
  assert (Hin : s ∈ Db.leadSteps st) by (apply list_elem_of_lookup; eauto).
  assert (Hrows : NoDup (Db.leadSteps st)) by (by eapply NoDup_fmap_1).
  assert (Hown : ∀ bid i step,
    Workflow.stepsOfLeadByOrder bid (Db.leadSteps st) !! i = Some step →
    Db.id s = Db.id step → step = s ∧ bid = Db.leadId s).
  { intros bid i step Hi Hid.
    assert (Hstep : step ∈ Workflow.stepsOfLeadByOrder bid (Db.leadSteps st))
      by (apply list_elem_of_lookup; eauto).
    apply stepsOfLeadByOrder_elem_of in Hstep as [Hstep Hlead].
    assert (step = s) by (by eapply rows_key_inj). by subst. }
  destruct (lastWrite_cases (DueDaysJobs.initWrites now st) (Db.id s)
              (Db.dueDays s)) as [[Hd Hno]|(v & Hv & Hl)].
  - rewrite Hd, setDueDays_same.
    destruct (Db.bookings st !! Db.leadId s) as [b|] eqn:Hb; [|done].
    assert (Hmem : s ∈ Workflow.stepsOfLeadByOrder (Db.leadId s)
                         (Db.leadSteps st))
      by (by apply stepsOfLeadByOrder_elem_of).
    split; [by apply list_elem_of_lookup|].
    intros i Hi. cbv zeta.
    change (Some s = Some (Workflow.setDueDays
      (DueDaysJobs.initTarget now b
         (Workflow.stepsOfLeadByOrder (Db.leadId s) (Db.leadSteps st))
         i (Db.dueDays s)) s)).
    destruct (initBookingWrites_covers now (Db.leadSteps st) (Db.leadId s)
                b i s Hi) as [Hw| ->]; [|by rewrite setDueDays_same].
    exfalso. eapply Hno. apply initWrites_elem.
    exists (Db.leadId s), b. split; [exact Hb|exact Hw].
  - rewrite Hl. apply initWrites_elem in Hv as (bid & b & Hb & Hv).
    apply initBookingWrites_elem in Hv as (i & step & Hi & Hid & ->).
    destruct (Hown bid i step Hi Hid) as [-> ->].
    rewrite Hb. split; [by exists i|].
    intros i' Hi'.
    assert (i' = i).
    { eapply NoDup_lookup; [|exact Hi'|exact Hi].
      by apply stepsOfLeadByOrder_NoDup. }
    by subst.
Qed.

(** X16: what the initialisation script leaves behind.  With distinct
    step keys, steps of unknown bookings are untouched; in a stored
    booking every step ends at 0 except the first incomplete one, which
    gets the clamped day count since its start date, or keeps its stored
    value when the step before it has no completion time.  Nothing but
    the due days changes. *)
Theorem initializeDueDays_effect (now : Z) (st : Db.Store) :
  NoDup (Db.id <$> Db.leadSteps st) →
  let st' := DueDaysJobs.initializeDueDays now st in
  length (Db.leadSteps st') = length (Db.leadSteps st)
  ∧ (∀ j s, Db.leadSteps st !! j = Some s →
       match Db.bookings st !! Db.leadId s with
       | None => Db.leadSteps st' !! j = Some s
       | Some b =>
           let steps :=
             Workflow.stepsOfLeadByOrder (Db.leadId s) (Db.leadSteps st) in
           (∃ i, steps !! i = Some s)
           ∧ ∀ i, steps !! i = Some s →
               let d :=
                 match list_find (λ x, Db.completed x = false) steps with
                 | None => 0%Z
                 | Some (k, _) =>
                     if decide (i = k) then
                       match DueDaysJobs.initStartDate steps
                               (Db.createdAt b) k with
                       | Some start => DueDaysJobs.initValue start now
                       | None => Db.dueDays s
                       end
                     else 0%Z
                 end in
               Db.leadSteps st' !! j
               = Some (Db.mkLeadStep (Db.id s) (Db.leadId s) (Db.name s)
                         (Db.order s) (Db.completed s) (Db.completedAt s)
                         (Db.completionNotes s) d)
               ∧ Db.dueDays <$> Db.leadSteps st' !! j = Some d
       end)
  ∧ Db.bookings st' = Db.bookings st
  ∧ Db.issued st' = Db.issued st
  ∧ Db.commissions st' = Db.commissions st
  ∧ Db.wallets st' = Db.wallets st.
Proof.
  intros Hnd st'.
  destruct (initializeDueDays_rows now st Hnd) as (Hlen & Hrows & Hframe).
  split; [exact Hlen|]. split; [|exact Hframe].
  intros j s Hs. specialize (Hrows j s Hs).
  destruct (Db.bookings st !! Db.leadId s) as [b|]; [|exact Hrows].
  cbv zeta in Hrows |- *.
  destruct Hrows as [Hex Hrows]. split; [exact Hex|].
  intros i Hi. pose proof (Hrows i Hi) as Hrow.
  split; [exact Hrow|].
  unfold st' in *. by rewrite Hrow.
Qed.

Lemma initializeDueDays_effect_witness :
  NoDup (Db.id <$> Db.leadSteps DueDaysJobs.staleStore)
  ∧ Db.dueDays <$> Db.leadSteps DueDaysJobs.staleStore = [3; 2; 0]%Z
  ∧ Db.dueDays
      <$> Db.leadSteps (DueDaysJobs.initializeDueDays 200000000 DueDaysJobs.staleStore)
         !! 0
    = Some 0%Z
  ∧ Db.dueDays
      <$> Db.leadSteps (DueDaysJobs.initializeDueDays 200000000 DueDaysJobs.staleStore)
         !! 1
    = Some 3%Z.
Proof.
  assert (NoDup (Db.id <$> Db.leadSteps DueDaysJobs.staleStore)) as Hnd
    by (apply (bool_decide_eq_true_1 _); vm_compute; reflexivity).
  split; [exact Hnd|]. split; [reflexivity|].
  destruct (initializeDueDays_effect 200000000 DueDaysJobs.staleStore Hnd) as (_ & Hrows & _).
  split.
  - destruct (Hrows 0 _ eq_refl) as [_ H0].
    exact (proj2 (H0 0 eq_refl)).
  - destruct (Hrows 1 _ eq_refl) as [_ H1].
    exact (proj2 (H1 1 eq_refl)).
Defined.

(** ** Referral codes *)

Section StringFacts.
Import Workflow ReferralCode.

Lemma string_app_cons x (a b : string) :
  String x a +:+ b = String x (a +:+ b).
Proof. reflexivity. Qed.

Lemma string_app_assoc (a b c : string) : (a +:+ b) +:+ c = a +:+ (b +:+ c).
Proof.
  induction a as [|x a IH]; [done|]. rewrite !string_app_cons. congruence.
Qed.

Lemma string_app_nil_r (a : string) : a +:+ EmptyString = a.
Proof.
  induction a as [|x a IH]; [done|]. rewrite string_app_cons. congruence.
Qed.

Lemma rev_app_spec s acc : String.rev_app s acc = String.rev s +:+ acc.
Proof.
  unfold String.rev. revert acc.
  induction s as [|a s IH]; intros acc; [done|].
  simpl. rewrite (IH (String a EmptyString)), IH, string_app_assoc. done.
Qed.

Lemma rev_cons a s :
  String.rev (String a s) = String.rev s +:+ String a EmptyString.
Proof. unfold String.rev at 1. simpl. apply rev_app_spec. Qed.

Lemma rev_app_distr x y :
  String.rev (x +:+ y) = String.rev y +:+ String.rev x.
Proof.
  induction x as [|a x IH].
  - by rewrite string_app_nil_r.
  - by rewrite string_app_cons, !rev_cons, IH, string_app_assoc.
Qed.

Lemma rev_involutive s : String.rev (String.rev s) = s.
Proof.
  induction s as [|a s IH]; [done|].
  by rewrite rev_cons, rev_app_distr, IH.
Qed.

Lemma truthy_app_l x y : truthy x = true → truthy (x +:+ y) = true.
Proof. by destruct x. Qed.

Lemma truthy_rev s : truthy (String.rev s) = truthy s.
Proof.
  destruct s as [|a s]; [done|]. rewrite rev_cons.
  by destruct (String.rev s).
Qed.

Lemma head_app x y :
  truthy x = true → noLeadingSpace (x +:+ y) = noLeadingSpace x.
Proof. by destruct x. Qed.

Lemma trimStart_head s : noLeadingSpace (trimStart s) = true.
Proof.
  induction s as [|c s IH]; [done|]. simpl.
  destruct (Ascii.is_space c) eqn:Hc; [done|]. simpl. by rewrite Hc.
Qed.

Lemma trimStart_fixed s : noLeadingSpace s = true → trimStart s = s.
Proof.
  destruct s as [|c s]; [done|]. simpl. by destruct (Ascii.is_space c).
Qed.

Lemma trimStart_split s : ∃ w, s = w +:+ trimStart s.
Proof.
  induction s as [|c s [w IH]]; [by exists EmptyString|]. simpl.
  destruct (Ascii.is_space c).
  - exists (String c w). by rewrite string_app_cons, <- IH.
  - by exists EmptyString.
Qed.

Lemma trim_head s : noLeadingSpace (trim s) = true.
Proof.
  unfold trim.
  pose proof (trimStart_head s) as Ha.
  destruct (trimStart_split (String.rev (trimStart s))) as [w Hw].
  apply (f_equal String.rev) in Hw.
  rewrite rev_involutive, rev_app_distr in Hw.
  destruct (truthy (String.rev (trimStart (String.rev (trimStart s)))))
    eqn:Ht.
  - by rewrite <- (head_app _ (String.rev w)), <- Hw.
  - by destruct (String.rev (trimStart (String.rev (trimStart s)))).
Qed.

Lemma trim_last s : noLeadingSpace (String.rev (trim s)) = true.
Proof. unfold trim. rewrite rev_involutive. apply trimStart_head. Qed.

Lemma trim_fixed s :
  noLeadingSpace s = true → noLeadingSpace (String.rev s) = true →
  trim s = s.
Proof.
  intros H1 H2. unfold trim.
  by rewrite (trimStart_fixed s H1), (trimStart_fixed _ H2), rev_involutive.
Qed.

Lemma is_space_upper c :
  Ascii.is_space (toUpperChar c) = Ascii.is_space c.
Proof. by destruct c as [[] [] [] [] [] [] [] []]. Qed.

Lemma toUpperChar_idem c : toUpperChar (toUpperChar c) = toUpperChar c.
Proof. by destruct c as [[] [] [] [] [] [] [] []]. Qed.

Lemma toUpperCase_idem s : toUpperCase (toUpperCase s) = toUpperCase s.
Proof.
  induction s as [|c s IH]; [done|]. simpl. by rewrite toUpperChar_idem, IH.
Qed.

Lemma toUpperCase_app x y :
  toUpperCase (x +:+ y) = toUpperCase x +:+ toUpperCase y.
Proof.
  induction x as [|c x IH]; [done|]. rewrite string_app_cons. simpl.
  by rewrite IH.
Qed.

Lemma toUpperCase_rev s :
  toUpperCase (String.rev s) = String.rev (toUpperCase s).
Proof.
  induction s as [|c s IH]; [done|]. simpl.
  by rewrite !rev_cons, toUpperCase_app, IH.
Qed.

Lemma toUpperCase_head s :
  noLeadingSpace (toUpperCase s) = noLeadingSpace s.
Proof. destruct s as [|c s]; [done|]. simpl. by rewrite is_space_upper. Qed.

Lemma toUpperCase_truthy s : truthy (toUpperCase s) = truthy s.
Proof. by destruct s. Qed.

Lemma toUpperCase_trimStart s :
  toUpperCase (trimStart s) = trimStart (toUpperCase s).
Proof.
  induction s as [|c s IH]; [done|]. simpl. rewrite is_space_upper.
  by destruct (Ascii.is_space c).
Qed.

Lemma toUpperCase_trim s : toUpperCase (trim s) = trim (toUpperCase s).
Proof.
  unfold trim.
  by rewrite toUpperCase_rev, toUpperCase_trimStart, toUpperCase_rev,
    toUpperCase_trimStart.
Qed.

Lemma trim_idem s : trim (trim s) = trim s.
Proof. apply trim_fixed; [apply trim_head|apply trim_last]. Qed.

Lemma prefix_app p t : String.prefix p (p +:+ t) = true.
Proof.
  induction p as [|a p IH]; [by destruct t|].
  rewrite string_app_cons. simpl.
  by destruct (Ascii.ascii_dec a a).
Qed.

(** A string that is already trimmed and in upper case only gets the
    prefix, when it lacks it. *)
Lemma normalize_clean t :
  noLeadingSpace t = true → noLeadingSpace (String.rev t) = true →
  toUpperCase t = t → truthy t = true →
  normalizeReferralInput (Some t)
  = Some (if String.prefix "KLORD-" t then t else "KLORD-" +:+ t).
Proof.
  intros H1 H2 Hu Ht. unfold normalizeReferralInput.
  rewrite Ht, (trim_fixed t H1 H2), Hu, Ht.
  by destruct (String.prefix "KLORD-" t).
Qed.

End StringFacts.

(** X17: referral codes are normalised to a canonical form.  For an
    ASCII input, [normalizeReferralInput] returns null exactly when the
    input is blank; otherwise the result carries the prefix KLORD- and
    is a fixed point of the normalisation.  The result does not depend
    on the case of the input or on white space around it. *)
Theorem normalizeReferralInput_canonical (raw : string) :
  ReferralCode.isAscii raw = true →
  match ReferralCode.normalizeReferralInput (Some raw) with
  | Some c =>
      String.prefix "KLORD-" c = true
      ∧ ReferralCode.normalizeReferralInput (Some c) = Some c
  | None => Workflow.trim raw = EmptyString
  end
  ∧ ReferralCode.normalizeReferralInput (Some (ReferralCode.toUpperCase raw))
    = ReferralCode.normalizeReferralInput (Some raw)
  ∧ ReferralCode.normalizeReferralInput (Some (Workflow.trim raw))
    = ReferralCode.normalizeReferralInput (Some raw).
Proof.
  intros _. split; [|split].
  - unfold ReferralCode.normalizeReferralInput at 1.
    destruct (truthy raw) eqn:Hr; [|by destruct raw].
    cbv zeta.
    pose proof (toUpperCase_truthy (Workflow.trim raw)) as Htt.
    destruct (truthy (ReferralCode.toUpperCase (Workflow.trim raw))) eqn:Ht;
      [|by destruct (Workflow.trim raw)].
    assert (H1 : ReferralCode.noLeadingSpace
                   (ReferralCode.toUpperCase (Workflow.trim raw)) = true)
      by (rewrite toUpperCase_head; apply trim_head).
    assert (H2 : ReferralCode.noLeadingSpace
                   (String.rev (ReferralCode.toUpperCase (Workflow.trim raw)))
                 = true)
      by (rewrite <- toUpperCase_rev, toUpperCase_head; apply trim_last).
    pose proof (toUpperCase_idem (Workflow.trim raw)) as Hu.
    revert Ht H1 H2 Hu.
    generalize (ReferralCode.toUpperCase (Workflow.trim raw)) as t.
    intros t Ht H1 H2 Hu.
    destruct (String.prefix "KLORD-" t) eqn:Hp.
    + split; [exact Hp|]. by rewrite (normalize_clean t H1 H2 Hu Ht), Hp.
    + assert (Hc : String.prefix "KLORD-" ("KLORD-" +:+ t) = true)
        by apply prefix_app.
      split; [exact Hc|].
      rewrite normalize_clean, Hc; [done|reflexivity| | |reflexivity].
      * rewrite rev_app_distr, head_app; [exact H2|].
        by rewrite truthy_rev.
      * rewrite toUpperCase_app, Hu. reflexivity.
  - unfold ReferralCode.normalizeReferralInput.
    by rewrite toUpperCase_truthy, <- toUpperCase_trim, toUpperCase_idem.
  - unfold ReferralCode.normalizeReferralInput. rewrite trim_idem.
    destruct (truthy (Workflow.trim raw)) eqn:Ht.
    + by destruct raw.
    + destruct (truthy raw); [|done].
      by rewrite toUpperCase_truthy, Ht.
Qed.

Lemma normalizeReferralInput_canonical_witness :
  ReferralCode.normalizeReferralInput (Some "  klord-ab12 ")
  = Some "KLORD-AB12"
  ∧ ReferralCode.normalizeReferralInput (Some " ab12") = Some "KLORD-AB12"
  ∧ ReferralCode.normalizeReferralInput (Some "KLORD-AB12")
    = Some "KLORD-AB12".
Proof.
  split; [reflexivity|]. split; [reflexivity|].
  exact (proj2 (proj1 (normalizeReferralInput_canonical " ab12" eq_refl))).
Defined.

Section SignInFacts.
Import Upline ReferralCode.



End SignInFacts.


